(** * Model of the orchestration core of metrics_etl (src/core/pipeline.py)

    Shallow embedding of [ETLEngine] and [SecretsManager]: the values a
    YAML configuration can hold, the cache-key construction
    [_make_hashable_key] (with its [json.dumps] fallback), the environment
    template expansion [_process_env_vars], and the per-signal
    extract/transform/load sequence of [run] and [run_signal] with its
    exception handling, written in a small state/exception monad. *)

From Stdlib Require Import String Ascii ZArith NArith List Bool Lia.
From Stdlib Require Import Permutation Sorting.Sorted.
Import ListNotations.
Open Scope string_scope.
Set Warnings "-register-all".

(** ** Python values *)

(** Hashable atoms, which are what a YAML mapping can use as keys.
    [KOther] stands for any other hashable scalar (a date, ...), known by
    its [str()]. *)
Inductive pykey : Type :=
| KNone
| KBool (b : bool)
| KInt (z : Z)
| KStr (s : string)
| KOther (repr : string).

(** Values as [yaml.safe_load] and the collaborators produce them.  A
    [dict] is the list of its items in insertion order. *)
Inductive pyval : Type :=
| PNone
| PBool (b : bool)
| PInt (z : Z)
| PStr (s : string)
| PList (xs : list pyval)
| PDict (kvs : list (pykey * pyval))
| POther (repr : string).

(** Python's [<] on two keys: [None] is a [TypeError].  [bool] is a
    subclass of [int]; strings compare by code point.  Values outside the
    closed set of scalars are taken as unordered. *)
Definition key_num (k : pykey) : option Z :=
  match k with
  | KBool b => Some (Z.b2z b)
  | KInt z => Some z
  | _ => None
  end.

Definition py_lt (a b : pykey) : option bool :=
  match a, b with
  | KStr s, KStr t => Some (String.ltb s t)
  | _, _ =>
      match key_num a, key_num b with
      | Some x, Some y => Some (x <? y)%Z
      | _, _ => None
      end
  end.

(** ** [sorted] on the items of a dict

    [sorted(...)] on [(key, value)] pairs of one dict: keys of a dict are
    pairwise distinct, so tuple comparison decides on the keys alone.
    Any comparison that raises makes [sorted] raise ([None]).  Insertion
    sort stands for Timsort: when every comparison succeeds both return the
    unique ascending order, and when two keys of the list are of
    incomparable kinds any comparison sort has to compare two of them. *)
Section SortBy.
Context {A : Type} (key : A -> pykey).

Fixpoint insert_by (x : A) (l : list A) : option (list A) :=
  match l with
  | [] => Some [x]
  | y :: r =>
      match py_lt (key x) (key y) with
      | None => None
      | Some true => Some (x :: y :: r)
      | Some false =>
          match insert_by x r with
          | None => None
          | Some r' => Some (y :: r')
          end
      end
  end.

Fixpoint sort_by (l : list A) : option (list A) :=
  match l with
  | [] => Some []
  | x :: r =>
      match sort_by r with
      | None => None
      | Some s => insert_by x s
      end
  end.
End SortBy.

Fixpoint traverse_opt {A B : Type} (f : A -> option B) (l : list A)
  : option (list B) :=
  match l with
  | [] => Some []
  | x :: r =>
      match f x with
      | None => None
      | Some y =>
          match traverse_opt f r with
          | None => None
          | Some ys => Some (y :: ys)
          end
      end
  end.

(** ** [json.dumps(params, sort_keys=True)] *)

Definition digit_char (n : N) : ascii := ascii_of_N (48 + n).

Fixpoint digits_of_N (fuel : nat) (n : N) (acc : string) : string :=
  match fuel with
  | O => acc
  | S f =>
      let acc' := String (digit_char (N.modulo n 10)) acc in
      if (n <? 10)%N then acc' else digits_of_N f (N.div n 10) acc'
  end.

(** [str(z)] for an integer. *)
Definition z_to_string (z : Z) : string :=
  let s := digits_of_N (S (N.to_nat (Z.abs_N z))) (Z.abs_N z) EmptyString in
  if (z <? 0)%Z then "-" ++ s else s.

Definition hex_char (n : N) : ascii :=
  if (n <? 10)%N then ascii_of_N (48 + n) else ascii_of_N (87 + n).

(** The double-quote character. *)
Definition dquote : string := String (ascii_of_nat 34) EmptyString.

(** One character of a JSON string literal with [ensure_ascii=True]. *)
Definition json_escape_char (c : ascii) : string :=
  let n := N_of_ascii c in
  if (n =? 34)%N then String "\" dquote
  else if (n =? 92)%N then "\\"
  else if (n =? 10)%N then "\n"
  else if (n =? 13)%N then "\r"
  else if (n =? 9)%N then "\t"
  else if (n =? 8)%N then "\b"
  else if (n =? 12)%N then "\f"
  else if ((n <? 32) || (127 <? n))%N then
    "\u00" ++ String (hex_char (N.div n 16)) (String (hex_char (N.modulo n 16)) EmptyString)
  else String c EmptyString.

Fixpoint json_escape (s : string) : string :=
  match s with
  | EmptyString => EmptyString
  | String c r => json_escape_char c ++ json_escape r
  end.

Definition json_quote (s : string) : string := dquote ++ json_escape s ++ dquote.

(** A dict key as JSON object key: [str], [int], [bool] and [None] are
    turned into strings, anything else is a [TypeError]. *)
Definition json_key (k : pykey) : option string :=
  match k with
  | KStr s => Some (json_quote s)
  | KInt z => Some (json_quote (z_to_string z))
  | KBool true => Some (json_quote "true")
  | KBool false => Some (json_quote "false")
  | KNone => Some (json_quote "null")
  | KOther _ => None
  end.

Fixpoint json_dumps (v : pyval) : option string :=
  match v with
  | PNone => Some "null"
  | PBool true => Some "true"
  | PBool false => Some "false"
  | PInt z => Some (z_to_string z)
  | PStr s => Some (json_quote s)
  | POther _ => None
  | PList xs =>
      match traverse_opt json_dumps xs with
      | None => None
      | Some ss => Some ("[" ++ String.concat ", " ss ++ "]")
      end
  | PDict kvs =>
      (* the values are serialised before the items are sorted; every
         failure is the same [TypeError], so the order does not matter *)
      match traverse_opt (fun kv => match json_dumps (snd kv) with
                                    | Some vs => Some (fst kv, vs)
                                    | None => None
                                    end) kvs with
      | None => None
      | Some kss =>
          match sort_by fst kss with
          | None => None
          | Some items =>
              match traverse_opt
                      (fun kv => match json_key (fst kv) with
                                 | Some ks => Some (ks ++ ": " ++ snd kv)
                                 | None => None
                                 end) items with
              | None => None
              | Some ss => Some ("{" ++ String.concat ", " ss ++ "}")
              end
          end
      end
  end.

(** ** Hashable keys and [_make_hashable_key] *)

(** The hashable values the key construction builds: atoms and tuples. *)
Inductive hkey : Type :=
| HNone
| HBool (b : bool)
| HInt (z : Z)
| HStr (s : string)
| HObj (repr : string)
| HTuple (hs : list hkey).

Definition hkey_of_key (k : pykey) : hkey :=
  match k with
  | KNone => HNone
  | KBool b => HBool b
  | KInt z => HInt z
  | KStr s => HStr s
  | KOther r => HObj r
  end.

(** [_make_hashable_key]; [None] is the [TypeError] that escapes it. *)
Fixpoint _make_hashable_key (v : pyval) : option hkey :=
  match v with
  | PDict kvs =>
      let direct :=
        match traverse_opt (fun kv => match _make_hashable_key (snd kv) with
                                      | Some h => Some (fst kv, h)
                                      | None => None
                                      end) kvs with
        | None => None
        | Some items =>
            match sort_by fst items with
            | None => None
            | Some sorted =>
                Some (HTuple (map (fun kh => HTuple [hkey_of_key (fst kh); snd kh]) sorted))
            end
        end in
      match direct with
      | Some h => Some h
      | None => option_map HStr (json_dumps v)
      end
  | PList xs =>
      option_map HTuple (traverse_opt _make_hashable_key xs)
  | PNone => Some HNone
  | PBool b => Some (HBool b)
  | PInt z => Some (HInt z)
  | PStr s => Some (HStr s)
  | POther r => Some (HStr r)
  end.

(** ** Python equality of keys, well-formed values, structural equality *)

(** [==] on two keys ([True == 1] since [bool] is a subclass of [int]). *)
Definition key_eqb (a b : pykey) : bool :=
  match a, b with
  | KNone, KNone => true
  | KStr s, KStr t => String.eqb s t
  | KOther r, KOther q => String.eqb r q
  | _, _ =>
      match key_num a, key_num b with
      | Some x, Some y => (x =? y)%Z
      | _, _ => false
      end
  end.




(** ** The engine *)

(** Exceptions, by class. *)
Inductive exn : Type :=
| ExtractionError
| TransformationError
| LoadError
| MissingSecretError
| TypeError
| KeyError
| IndexError
| ImportError
| AttributeError
| OtherError (name : string).

Inductive level : Type := Info | Warning | Error.

(** The log lines the engine writes, by the statement that writes them. *)
Inductive message : Type :=
| MsgPipelineStart
| MsgPipelineEnd
| MsgRunFinished
| MsgSignalStart (signal : string)
| MsgExtractStart (extractor : string)
| MsgImportExtractorFailed (signal : string)
| MsgUnknownExtractor (extractor signal : string)
| MsgSecretNotFound (secret signal : string)
| MsgCacheHit
| MsgCacheMiss
| MsgFetched
| MsgCacheKeyFailed (e : exn)
| MsgFetchedUncached
| MsgTransformStart (transformer : string)
| MsgImportTransformerFailed (signal : string)
| MsgUnknownTransformer (transformer signal : string)
| MsgTransforming
| MsgTransformed
| MsgLoaderSkipped (signal : string)
| MsgSupabaseUrl
| MsgImportLoaderFailed (signal : string)
| MsgLoaderInitFailed (signal : string) (e : exn)
| MsgLoadStart (loader : string)
| MsgLoading (loader signal : string)
| MsgLoaded (loader signal : string)
| MsgLoaderFailed (loader signal : string)
| MsgLoaderUnexpected (loader signal : string) (e : exn)
| MsgEtlSuccess (signal : string)
| MsgNotFullyLoaded (signal : string)
| MsgEtlFailure (signal : string) (e : exn)
| MsgSignalNotFound (signal : string)
| MsgSignalError (signal : string) (e : exn).

(** What the engine does that can be observed: log lines and the calls
    into the collaborators (constructors, [fetch], [transform], [load]). *)
Inductive event : Type :=
| ELog (lvl : level) (m : message)
| EConstructExtractor (cls : string) (params : pyval)
| EFetch (cls : string) (params : pyval)
| ETransform (cls : string) (raw : pyval)
| EConstructLoader (cls : string) (cfg : pyval)
| ELoad (cls : string) (cfg : pyval) (record : pyval).

(** [self.extractor_cache] (a dict from cache keys to raw records) and the
    trace of events, most recent first. *)
Record engine_state : Type := mkState {
  extractor_cache : list (hkey * pyval);
  trace : list event
}.

Inductive outcome (A : Type) : Type :=
| Ret (a : A)
| Throw (e : exn)
| Exit.
Arguments Ret {A} a.
Arguments Throw {A} e.
Arguments Exit {A}.

(** A state and exception monad; [Exit] is the early way out of a
    signal's body ([continue] in [run], [return False] in [run_signal]). *)
Definition M (A : Type) : Type := engine_state -> outcome A * engine_state.

Definition ret {A} (a : A) : M A := fun st => (Ret a, st).
Definition throw {A} (e : exn) : M A := fun st => (Throw e, st).
Definition exit_ {A} : M A := fun st => (Exit, st).

Definition bind {A B} (m : M A) (k : A -> M B) : M B :=
  fun st =>
    match m st with
    | (Ret a, st') => k a st'
    | (Throw e, st') => (Throw e, st')
    | (Exit, st') => (Exit, st')
    end.

Notation "x <- m ;; k" := (bind m (fun x => k))
  (at level 61, m at next level, right associativity).
Notation "m ;;; k" := (bind m (fun _ => k))
  (at level 61, right associativity).

(** [try: m except Exception as e: h(e)]. *)
Definition try_catch {A} (m : M A) (h : exn -> M A) : M A :=
  fun st =>
    match m st with
    | (Throw e, st') => h e st'
    | r => r
    end.

(** Runs [m] and returns how it ended, keeping its effects. *)
Definition attempt {A} (m : M A) : M (outcome A) :=
  fun st => let (o, st') := m st in (Ret o, st').

Definition emit (e : event) : M unit :=
  fun st => (Ret tt, mkState (extractor_cache st) (e :: trace st)).

Definition log (lvl : level) (m : message) : M unit := emit (ELog lvl m).

Definition get_cache : M (list (hkey * pyval)) :=
  fun st => (Ret (extractor_cache st), st).

Definition put_cache (c : list (hkey * pyval)) : M unit :=
  fun st => (Ret tt, mkState c (trace st)).

(** ** Dicts, strings and the environment *)

Definition hkey_num (h : hkey) : option Z :=
  match h with
  | HBool b => Some (Z.b2z b)
  | HInt z => Some z
  | _ => None
  end.

(** [==] on cache keys. *)
Fixpoint hkey_eqb (a b : hkey) : bool :=
  match a, b with
  | HNone, HNone => true
  | HStr s, HStr t => String.eqb s t
  | HObj r, HObj q => String.eqb r q
  | HTuple xs, HTuple ys =>
      (fix go (xs ys : list hkey) : bool :=
         match xs, ys with
         | [], [] => true
         | x :: xs', y :: ys' => hkey_eqb x y && go xs' ys'
         | _, _ => false
         end) xs ys
  | _, _ =>
      match hkey_num a, hkey_num b with
      | Some x, Some y => (x =? y)%Z
      | _, _ => false
      end
  end.

(** [key in cache] / [cache[key]]. *)
Fixpoint cache_lookup (key : hkey) (c : list (hkey * pyval)) : option pyval :=
  match c with
  | [] => None
  | (k, v) :: r => if hkey_eqb k key then Some v else cache_lookup key r
  end.

(** [cache[key] = v]: an equal key keeps its place, a new one goes last. *)
Fixpoint cache_store (key : hkey) (v : pyval) (c : list (hkey * pyval))
  : list (hkey * pyval) :=
  match c with
  | [] => [(key, v)]
  | (k, w) :: r => if hkey_eqb k key then (k, v) :: r else (k, w) :: cache_store key v r
  end.

(** [d[k] = v] on a dict. *)
Fixpoint py_dict_set (d : list (pykey * pyval)) (k : pykey) (v : pyval)
  : list (pykey * pyval) :=
  match d with
  | [] => [(k, v)]
  | (k', w) :: r => if key_eqb k' k then (k', v) :: r else (k', w) :: py_dict_set r k v
  end.

Fixpoint py_dict_get (d : list (pykey * pyval)) (k : pykey) : option pyval :=
  match d with
  | [] => None
  | (k', w) :: r => if key_eqb k' k then Some w else py_dict_get r k
  end.

Fixpoint str_dict_set (d : list (string * string)) (k v : string)
  : list (string * string) :=
  match d with
  | [] => [(k, v)]
  | (k', w) :: r => if String.eqb k' k then (k', v) :: r else (k', w) :: str_dict_set r k v
  end.

Fixpoint str_dict_get (d : list (string * string)) (k : string) : option string :=
  match d with
  | [] => None
  | (k', w) :: r => if String.eqb k' k then Some w else str_dict_get r k
  end.

Definition is_upper (c : ascii) : bool :=
  let n := N_of_ascii c in (65 <=? n)%N && (n <=? 90)%N.
Definition is_lower (c : ascii) : bool :=
  let n := N_of_ascii c in (97 <=? n)%N && (n <=? 122)%N.
Definition to_lower (c : ascii) : ascii :=
  if is_upper c then ascii_of_N (N_of_ascii c + 32) else c.
Definition to_upper (c : ascii) : ascii :=
  if is_lower c then ascii_of_N (N_of_ascii c - 32) else c.

(** [s.lower()]. *)
Fixpoint str_lower (s : string) : string :=
  match s with
  | EmptyString => EmptyString
  | String c r => String (to_lower c) (str_lower r)
  end.

(** [pat in s]. *)
Fixpoint str_contains (pat s : string) : bool :=
  String.prefix pat s ||
  match s with
  | EmptyString => false
  | String _ r => str_contains pat r
  end.

(** [word.title()]: a letter after a letter is lowered, a letter after
    anything else is raised. *)
Fixpoint title_from (after_letter : bool) (s : string) : string :=
  match s with
  | EmptyString => EmptyString
  | String c r =>
      let letter := is_upper c || is_lower c in
      let c' := if letter then (if after_letter then to_lower c else to_upper c) else c in
      String c' (title_from letter r)
  end.

(** [plugin_name.split('_')]. *)
Fixpoint split_underscore (s : string) : list string :=
  match s with
  | EmptyString => [EmptyString]
  | String c r =>
      let parts := split_underscore r in
      if (N_of_ascii c =? 95)%N then EmptyString :: parts
      else match parts with
           | [] => [String c EmptyString]
           | p :: ps => String c p :: ps
           end
  end.

(** The class name [_load_plugin] looks up. *)
Definition class_name_of (plugin_name : string) : string :=
  String.concat EmptyString (map (title_from false) (split_underscore plugin_name)).

(** Truthiness of a value ([if transformer_params]). *)
Definition py_truthy (v : pyval) : bool :=
  match v with
  | PNone => false
  | PBool b => b
  | PInt z => negb (z =? 0)%Z
  | PStr s => negb (String.eqb s EmptyString)
  | PList xs => negb (Nat.eqb (length xs) 0)
  | PDict kvs => negb (Nat.eqb (length kvs) 0)
  | POther _ => true
  end.

Definition default {A} (d : A) (o : option A) : A :=
  match o with Some a => a | None => d end.

(** ** Collaborators and configuration *)

(** Keyword a loader constructor is called with. *)
Inductive ctor_kw : Type := KwParams | KwConfig.

(** The process environment and the plugin classes the engine calls.
    A class is known by its name; [None] from a constructor or from
    [load] means it returned, [Some e] that it raised [e]. *)
Record world : Type := mkWorld {
  w_env : string -> option string;                 (** [os.getenv] *)
  w_import : string -> string -> option string;    (** [getattr(import_module(m), c)] *)
  w_extractor_init : string -> pyval -> option exn;
  w_fetch : string -> pyval -> exn + pyval;
  w_transformer_init : string -> option pyval -> option exn;
  w_transform : string -> pyval -> exn + pyval;
  w_loader_init : string -> ctor_kw -> pyval -> option exn;
  w_load : string -> pyval -> pyval -> option exn
}.

(** [self.extractor_map]. *)
Definition extractor_map (n : string) : option string :=
  if String.eqb n "fred_extractor" then Some "FredExtractor"
  else if String.eqb n "alternative_extractor" then Some "AlternativeExtractor"
  else if String.eqb n "coingecko_extractor" then Some "CoinGeckoExtractor"
  else if String.eqb n "alternative_global_extractor" then Some "AlternativeGlobalExtractor"
  else None.

(** [self.transformer_map]. *)
Definition transformer_map (n : string) : option string :=
  if String.eqb n "m2_transformer" then Some "M2Transformer"
  else if String.eqb n "fear_greed_transformer" then Some "FearGreedTransformer"
  else if String.eqb n "bitcoin_price_transformer" then Some "BitcoinPriceTransformer"
  else if String.eqb n "total_market_cap_transformer" then Some "TotalMarketCapTransformer"
  else if String.eqb n "bitcoin_24h_change_transformer" then Some "Bitcoin24hChangeTransformer"
  else if String.eqb n "bitcoin_7d_change_transformer" then Some "Bitcoin7dChangeTransformer"
  else if String.eqb n "bitcoin_30d_change_transformer" then Some "Bitcoin30dChangeTransformer"
  else if String.eqb n "bitcoin_market_cap_transformer" then Some "BitcoinMarketCapTransformer"
  else if String.eqb n "bitcoin_24h_volume_transformer" then Some "Bitcoin24hVolumeTransformer"
  else None.

(** [extractor]: a name of [extractor_map], or [{module, class, params}]. *)
Inductive extractor_def : Type :=
| ExtName (name : string)
| ExtModule (module cls : string) (params : option (list (pykey * pyval))).

Record transformer_dict : Type := mkTDict {
  t_module : string;
  t_class : string;
  t_params : option pyval
}.

(** [transformer]: a name, a dict, or a list of dicts (the first is used). *)
Inductive transformer_def : Type :=
| TrName (name : string)
| TrDict (d : transformer_dict)
| TrList (ds : list transformer_dict).

(** One entry of [loaders]; [None] is a missing key. *)
Record loader_config : Type := mkLoader {
  lc_module : option string;
  lc_class : option string;
  lc_type : option string;
  lc_params : option (list (pykey * pyval));
  lc_config : option (list (pykey * pyval))
}.

Record signal_config : Type := mkSignal {
  sc_extractor : extractor_def;
  sc_extractor_params : option (list (pykey * pyval));
  sc_secrets : option (list string);
  sc_secret_mapping : option (list (string * string));
  sc_transformer : transformer_def;
  sc_loaders : option (list loader_config)
}.

(** [self.config]: the [signals] mapping, in file order. *)
Record config : Type := mkConfig {
  cfg_signals : list (string * signal_config)
}.

Fixpoint signal_lookup (name : string) (sigs : list (string * signal_config))
  : option signal_config :=
  match sigs with
  | [] => None
  | (n, sc) :: r => if String.eqb n name then Some sc else signal_lookup name r
  end.

Definition getenv_val (w : world) (k : string) : pyval :=
  match w_env w k with Some v => PStr v | None => PNone end.

(** ** [SecretsManager.get_secrets] *)

Fixpoint get_secrets_into (w : world) (names : list string)
  (secrets : list (string * string)) : M (list (string * string)) :=
  match names with
  | [] => ret secrets
  | n :: r =>
      match w_env w n with
      | Some v =>
          if String.eqb v EmptyString then throw MissingSecretError
          else get_secrets_into w r (str_dict_set secrets n v)
      | None => throw MissingSecretError
      end
  end.

Definition get_secrets (w : world) (names : list string) : M (list (string * string)) :=
  get_secrets_into w names [].

(** The [secret_mapping] loop of [run] / [run_signal]. *)
Fixpoint apply_secret_mapping (signal : string) (secrets : list (string * string))
  (mapping : list (string * string)) (params : list (pykey * pyval))
  : M (list (pykey * pyval)) :=
  match mapping with
  | [] => ret params
  | (param_name, secret_name) :: r =>
      match str_dict_get secrets secret_name with
      | Some v => apply_secret_mapping signal secrets r (py_dict_set params (KStr param_name) (PStr v))
      | None =>
          log Warning (MsgSecretNotFound secret_name signal) ;;;
          apply_secret_mapping signal secrets r params
      end
  end.

(** ** Extraction *)

(** What the cache key records of the extractor. *)
Inductive extractor_id : Type :=
| IdName (name : string)
| IdModule (module cls : string).

(** [(extractor_name, key)] or [(module_name, class_name, key)]. *)
Definition cache_key (id : extractor_id) (hk : hkey) : hkey :=
  match id with
  | IdName n => HTuple [HStr n; hk]
  | IdModule m c => HTuple [HStr m; HStr c; hk]
  end.

(** Resolution of the extractor, with its parameters (and, for a named
    extractor, the secrets merged in). *)
Definition resolve_extractor (w : world) (signal : string) (sc : signal_config)
  : M (extractor_id * string * list (pykey * pyval)) :=
  match sc_extractor sc with
  | ExtModule m c p =>
      log Info (MsgExtractStart c) ;;;
      match w_import w m c with
      | None => log Error (MsgImportExtractorFailed signal) ;;; exit_
      | Some cls => ret (IdModule m c, cls, default [] p)
      end
  | ExtName n =>
      log Info (MsgExtractStart n) ;;;
      match extractor_map n with
      | None => log Error (MsgUnknownExtractor n signal) ;;; exit_
      | Some cls =>
          secrets <- get_secrets w (default [] (sc_secrets sc)) ;;
          params <- apply_secret_mapping signal secrets
                      (default [] (sc_secret_mapping sc))
                      (default [] (sc_extractor_params sc)) ;;
          ret (IdName n, cls, params)
      end
  end.

(** [extractor_class(params=extractor_params)] then [extractor.fetch()]. *)
Definition construct_and_fetch (w : world) (cls : string) (params : list (pykey * pyval))
  : M pyval :=
  emit (EConstructExtractor cls (PDict params)) ;;;
  match w_extractor_init w cls (PDict params) with
  | Some e => throw e
  | None =>
      emit (EFetch cls (PDict params)) ;;;
      match w_fetch w cls (PDict params) with
      | inl e => throw e
      | inr raw => ret raw
      end
  end.

(** The caching block: the [try] covers the key construction, the lookup
    and the cached fetch; its [except Exception] fetches again, uncached. *)
Definition extract (w : world) (id : extractor_id) (cls : string)
  (params : list (pykey * pyval)) : M pyval :=
  try_catch
    (match _make_hashable_key (PDict params) with
     | None => throw TypeError
     | Some hk =>
         let key := cache_key id hk in
         c <- get_cache ;;
         match cache_lookup key c with
         | Some raw => log Info MsgCacheHit ;;; ret raw
         | None =>
             log Info MsgCacheMiss ;;;
             raw <- construct_and_fetch w cls params ;;
             c' <- get_cache ;;
             put_cache (cache_store key raw c') ;;;
             log Info MsgFetched ;;;
             ret raw
         end
     end)
    (fun e =>
       log Error (MsgCacheKeyFailed e) ;;;
       raw <- construct_and_fetch w cls params ;;
       log Info MsgFetchedUncached ;;;
       ret raw).

(** ** Transformation *)

(** A dict-style transformer: import and construction share one [try]
    that catches [ImportError] and [AttributeError] only. *)
Definition init_transformer_dict (w : world) (signal : string) (d : transformer_dict)
  : M string :=
  log Info (MsgTransformStart (t_class d)) ;;;
  let p := default (PDict []) (t_params d) in
  match w_import w (t_module d) (t_class d) with
  | None => log Error (MsgImportTransformerFailed signal) ;;; exit_
  | Some cls =>
      match w_transformer_init w cls (if py_truthy p then Some p else None) with
      | None => ret cls
      | Some ImportError | Some AttributeError =>
          log Error (MsgImportTransformerFailed signal) ;;; exit_
      | Some e => throw e
      end
  end.

Definition resolve_transformer (w : world) (signal : string) (sc : signal_config)
  : M string :=
  match sc_transformer sc with
  | TrName n =>
      log Info (MsgTransformStart n) ;;;
      match transformer_map n with
      | None => log Error (MsgUnknownTransformer n signal) ;;; exit_
      | Some cls =>
          match w_transformer_init w cls None with
          | None => ret cls
          | Some e => throw e
          end
      end
  | TrDict d => init_transformer_dict w signal d
  | TrList [] => throw IndexError          (* transformer_def[0] *)
  | TrList (d :: _) => init_transformer_dict w signal d
  end.

(** [transformer.transform(raw_data)] then
    [transformed_data.update({"signal_name": signal_name})]. *)
Definition transform_step (w : world) (signal tcls : string) (raw : pyval) : M pyval :=
  log Info MsgTransforming ;;;
  emit (ETransform tcls raw) ;;;
  match w_transform w tcls raw with
  | inl e => throw e
  | inr (PDict d) =>
      let record := PDict (py_dict_set d (KStr "signal_name") (PStr signal)) in
      log Info MsgTransformed ;;;
      ret record
  | inr _ => throw AttributeError          (* .update on a non-dict *)
  end.

(** ** Loading *)

Definition default_loaders : list loader_config :=
  [mkLoader None None (Some "supabase_loader") None
            (Some [(KStr "table", PStr "financial_signals")])].

(** The Supabase log line slices [loader_params['url'][:10]]: slicing
    [None] (an unset [SUPABASE_URL]) raises [TypeError]. *)
Definition log_supabase_url (url : pyval) : M unit :=
  match url with
  | PStr _ => log Info MsgSupabaseUrl
  | _ => throw TypeError
  end.

Definition inject_supabase (w : world) (p : list (pykey * pyval))
  : M (list (pykey * pyval)) :=
  let p' := py_dict_set (py_dict_set p (KStr "url") (getenv_val w "SUPABASE_URL"))
                        (KStr "key") (getenv_val w "SUPABASE_KEY") in
  log_supabase_url (getenv_val w "SUPABASE_URL") ;;;
  ret p'.

(** [loader_class(config=...)] (or [params=...]); a constructed loader is
    its class and the dict it was given. *)
Definition construct_loader (w : world) (cls : string) (kw : ctor_kw)
  (cfg : list (pykey * pyval)) : M (option exn) :=
  emit (EConstructLoader cls (PDict cfg)) ;;;
  ret (w_loader_init w cls kw (PDict cfg)).

(** The body of the loader-construction loop for one entry; [None] is a
    [continue] (the loader is left out). *)
Definition init_loader (w : world) (signal : string) (lc : loader_config)
  : M (option (string * pyval)) :=
  match lc_module lc with
  | Some m =>
      if str_contains "google_sheets_loader" (str_lower m) then
        log Info (MsgLoaderSkipped signal) ;;; ret None
      else
        let p0 := default [] (lc_params lc) in
        (* the [elif "google_sheets_loader"] branch cannot be reached here *)
        p <- (if str_contains "supabase_loader" (str_lower m)
              then inject_supabase w p0 else ret p0) ;;
        match lc_class lc with
        | None => throw TypeError           (* getattr(module, None) *)
        | Some c =>
            match w_import w m c with
            | None => log Error (MsgImportLoaderFailed signal) ;;; ret None
            | Some cls =>
                r1 <- construct_loader w cls KwParams p ;;
                match r1 with
                | None => ret (Some (cls, PDict p))
                | Some TypeError =>
                    r2 <- construct_loader w cls KwConfig p ;;
                    match r2 with
                    | None => ret (Some (cls, PDict p))
                    | Some ImportError | Some AttributeError =>
                        log Error (MsgImportLoaderFailed signal) ;;; ret None
                    | Some e => throw e
                    end
                | Some ImportError | Some AttributeError =>
                    log Error (MsgImportLoaderFailed signal) ;;; ret None
                | Some e => throw e
                end
            end
        end
  | None =>
      match lc_type lc with
      | None => throw KeyError               (* loader_config["type"] *)
      | Some t =>
          if String.eqb t "google_sheets_loader" then
            log Info (MsgLoaderSkipped signal) ;;; ret None
          else
            let c0 := default [] (lc_config lc) in
            c <- (if String.eqb t "supabase_loader" then inject_supabase w c0 else ret c0) ;;
            (* [_load_plugin("load", t)] *)
            match w_import w ("etl.load." ++ t) (class_name_of t) with
            | None => throw ImportError
            | Some cls =>
                r <- construct_loader w cls KwConfig c ;;
                match r with
                | None => ret (Some (cls, PDict c))
                | Some e => throw e
                end
            end
      end
  end.

Fixpoint init_loaders (w : world) (signal : string) (lcs : list loader_config)
  : M (list (string * pyval)) :=
  match lcs with
  | [] => ret []
  | lc :: r =>
      o <- try_catch (init_loader w signal lc)
             (fun e => log Error (MsgLoaderInitFailed signal e) ;;; ret None) ;;
      rest <- init_loaders w signal r ;;
      ret (match o with Some inst => inst :: rest | None => rest end)
  end.

(** The loading loop; [ok] is [load_successful]. *)
Fixpoint run_loads (w : world) (signal : string) (record : pyval)
  (ls : list (string * pyval)) (ok : bool) : M bool :=
  match ls with
  | [] => ret ok
  | (cls, cfg) :: r =>
      log Info (MsgLoadStart cls) ;;;
      log Info (MsgLoading cls signal) ;;;
      emit (ELoad cls cfg record) ;;;
      ok' <- (match w_load w cls cfg record with
              | None => log Info (MsgLoaded cls signal) ;;; ret ok
              | Some LoadError => log Error (MsgLoaderFailed cls signal) ;;; ret false
              | Some e => log Error (MsgLoaderUnexpected cls signal e) ;;; ret false
              end) ;;
      run_loads w signal record r ok'
  end.

(** ** One signal, [run], [run_signal] *)

(** The body of the per-signal [try]; it returns [load_successful]. *)
Definition process_signal (w : world) (signal : string) (sc : signal_config) : M bool :=
  r <- resolve_extractor w signal sc ;;
  let '(id, cls, params) := r in
  raw <- extract w id cls params ;;
  tcls <- resolve_transformer w signal sc ;;
  record <- transform_step w signal tcls raw ;;
  loaders <- init_loaders w signal (default default_loaders (sc_loaders sc)) ;;
  ok <- run_loads w signal record loaders true ;;
  (if ok then log Info (MsgEtlSuccess signal)
   else log Warning (MsgNotFullyLoaded signal)) ;;;
  ret ok.

(** The terminal state each signal reaches in [run] (which of its
    branches ends the iteration). *)
Inductive status : Type :=
| Succeeded
| PartiallyLoaded
| Skipped
| Failed (e : exn).

Definition run_one (w : world) (entry : string * signal_config) : M status :=
  let (signal, sc) := entry in
  log Info (MsgSignalStart signal) ;;;
  o <- attempt (process_signal w signal sc) ;;
  match o with
  | Ret true => ret Succeeded
  | Ret false => ret PartiallyLoaded
  | Exit => ret Skipped
  | Throw e => log Error (MsgEtlFailure signal e) ;;; ret (Failed e)
  end.

Fixpoint run_all (w : world) (sigs : list (string * signal_config))
  : M (list (string * status)) :=
  match sigs with
  | [] => ret []
  | entry :: r =>
      s <- run_one w entry ;;
      rest <- run_all w r ;;
      ret ((fst entry, s) :: rest)
  end.

Definition clear_cache : M unit := put_cache [].

(** [ETLEngine.run]. *)
Definition run (w : world) (cfg : config) : M (list (string * status)) :=
  log Info MsgPipelineStart ;;;
  clear_cache ;;;
  sts <- run_all w (cfg_signals cfg) ;;
  log Info MsgPipelineEnd ;;;
  log Info MsgRunFinished ;;;
  ret sts.

(** [ETLEngine.run_signal].  Its handlers call [log_etl_failure] with three
    arguments while it takes two, so each of them raises [TypeError]. *)
Definition run_signal (w : world) (cfg : config) (signal : string) : M bool :=
  log Info MsgPipelineStart ;;;
  clear_cache ;;;
  match signal_lookup signal (cfg_signals cfg) with
  | None => log Error (MsgSignalNotFound signal) ;;; ret false
  | Some sc =>
      log Info (MsgSignalStart signal) ;;;
      o <- attempt (process_signal w signal sc) ;;
      match o with
      | Ret _ => ret true
      | Exit => ret false
      | Throw e => log Error (MsgSignalError signal e) ;;; throw TypeError
      end
  end.


(** ** [main] (src/main.py)

    The exit code of [main]: [ETLEngine(args.config)] raising
    [FileNotFoundError] (an absent configuration, [None] here) gives 1;
    otherwise [run_signal] when [--signal] is given and non-empty, [run]
    otherwise, and any exception they raise gives 1.  The log lines and the
    timing of [main] itself are not recorded. *)
Definition main (w : world) (cfg : option config) (signal : option string) : M Z :=
  match cfg with
  | None => ret 1%Z
  | Some c =>
      try_catch
        ((match signal with
          | Some s =>
              if String.eqb s EmptyString then run w c ;;; ret tt
              else run_signal w c s ;;; ret tt
          | None => run w c ;;; ret tt
          end) ;;;
         ret 0%Z)
        (fun _ => ret 1%Z)
  end.

(** ** [_process_env_vars] *)

(** [\s] of a [str] pattern (on code points up to 255). *)
Definition is_space (c : ascii) : bool :=
  let n := N_of_ascii c in
  ((9 <=? n)%N && (n <=? 13)%N) || ((28 <=? n)%N && (n <=? 32)%N)
  || (n =? 133)%N || (n =? 160)%N.

(** [[A-Za-z0-9_]]. *)
Definition is_name_char (c : ascii) : bool :=
  let n := N_of_ascii c in
  is_upper c || is_lower c || ((48 <=? n)%N && (n <=? 57)%N) || (n =? 95)%N.

Definition is_char (k : N) (c : ascii) : bool := (N_of_ascii c =? k)%N.

Fixpoint skip_spaces (s : string) : nat * string :=
  match s with
  | String c r => if is_space c then let (n, r') := skip_spaces r in (S n, r') else (0, s)
  | EmptyString => (0, s)
  end.

(** The longest prefix of name characters, its length, and the rest. *)
Fixpoint take_name (s : string) : string * nat * string :=
  match s with
  | String c r =>
      if is_name_char c then
        let '(nm, n, r') := take_name r in (String c nm, S n, r')
      else (EmptyString, 0, s)
  | EmptyString => (EmptyString, 0, s)
  end.

(** [\{\{\s*([A-Za-z0-9_]+)\s*\}\}] at the start of [s]: the group and
    the length of the match.  The classes are disjoint, so the greedy
    match is the only one. *)
Definition match_brace (s : string) : option (string * nat) :=
  match s with
  | String c1 (String c2 r) =>
      if is_char 123 c1 && is_char 123 c2 then
        let (n1, r1) := skip_spaces r in
        match take_name r1 with
        | (_, 0, _) => None
        | (nm, n2, r2) =>
            let (n3, r3) := skip_spaces r2 in
            match r3 with
            | String d1 (String d2 _) =>
                if is_char 125 d1 && is_char 125 d2
                then Some (nm, 2 + n1 + n2 + n3 + 2) else None
            | _ => None
            end
        end
      else None
  | _ => None
  end.

(** [\$\{([A-Za-z0-9_]+)\}] at the start of [s]. *)
Definition match_dollar (s : string) : option (string * nat) :=
  match s with
  | String c1 (String c2 r) =>
      if is_char 36 c1 && is_char 123 c2 then
        match take_name r with
        | (_, 0, _) => None
        | (nm, n, String d _) => if is_char 125 d then Some (nm, 2 + n + 1) else None
        | _ => None
        end
      else None
  | _ => None
  end.

(** [re.findall]: left to right, a match resumes the scan after its end;
    [skip] counts the characters of the current match still to pass. *)
Fixpoint findall_from (m : string -> option (string * nat)) (skip : nat) (s : string)
  : list string :=
  match s with
  | EmptyString => []
  | String _ r =>
      match skip with
      | S k => findall_from m k r
      | O =>
          match m s with
          | Some (nm, len) => nm :: findall_from m (len - 1) r
          | None => findall_from m 0 r
          end
      end
  end.

Definition findall (m : string -> option (string * nat)) (s : string) : list string :=
  findall_from m 0 s.

(** [s.replace(old, new)] (for a non-empty [old]). *)
Fixpoint replace_from (old new : string) (skip : nat) (s : string) : string :=
  match s with
  | EmptyString => EmptyString
  | String c r =>
      match skip with
      | S k => replace_from old new k r
      | O =>
          if String.prefix old s
          then new ++ replace_from old new (String.length old - 1) r
          else String c (replace_from old new 0 r)
      end
  end.

Definition str_replace (s old new : string) : string := replace_from old new 0 s.

Definition lbrace : string := String (ascii_of_N 123) EmptyString.
Definition rbrace : string := String (ascii_of_N 125) EmptyString.

(** The [{{ VAR }}] loop: [f'{{ {var_name} }}'] is ["{ VAR }"] and
    [f'{{{{{var_name}}}}}'] is ["{{VAR}}"]. *)
Definition expand_braces (env : string -> option string) (s : string) : string :=
  fold_left
    (fun result var =>
       match env var with
       | Some v =>
           if String.eqb v EmptyString then result
           else str_replace
                  (str_replace result (lbrace ++ " " ++ var ++ " " ++ rbrace) v)
                  (lbrace ++ lbrace ++ var ++ rbrace ++ rbrace) v
       | None => result
       end)
    (findall match_brace s) s.

(** The [${VAR}] loop, run on the result of the first. *)
Definition expand_dollars (env : string -> option string) (s : string) : string :=
  fold_left
    (fun result var =>
       match env var with
       | Some v =>
           if String.eqb v EmptyString then result
           else str_replace result ("$" ++ lbrace ++ var ++ rbrace) v
       | None => result
       end)
    (findall match_dollar s) s.

Definition process_string (env : string -> option string) (s : string) : string :=
  expand_dollars env (expand_braces env s).

Fixpoint _process_env_vars (env : string -> option string) (v : pyval) : pyval :=
  match v with
  | PDict kvs => PDict (map (fun kv => (fst kv, _process_env_vars env (snd kv))) kvs)
  | PList xs => PList (map (_process_env_vars env) xs)
  | PStr s => PStr (process_string env s)
  | _ => v
  end.


(** ** Observations on runs *)

(** [m] changes the cache as [R] allows and appends only events that
    satisfy [P]. *)
Definition frame {A : Type} (R : list (hkey * pyval) -> list (hkey * pyval) -> Prop)
  (P : event -> Prop) (m : M A) : Prop :=
  forall st,
    R (extractor_cache st) (extractor_cache (snd (m st))) /\
    exists evs, trace (snd (m st)) = (evs ++ trace st)%list /\ Forall P evs.

(** Events that are neither an extractor construction nor a [fetch()]. *)
Definition quiet (e : event) : Prop :=
  match e with
  | EFetch _ _ | EConstructExtractor _ _ => False
  | _ => True
  end.

(** A [transform()] call, if the event is one, receives [raw]. *)
Definition fed (raw : pyval) (e : event) : Prop :=
  match e with
  | ETransform _ r => r = raw
  | _ => True
  end.

Definition is_fetch (e : event) : bool :=
  match e with EFetch _ _ => true | _ => false end.

Definition count_fetches (evs : list event) : nat := length (filter is_fetch evs).

Definition is_load (e : event) : bool :=
  match e with ELoad _ _ _ => true | _ => false end.

(** The class an extractor identity resolves to. *)
Definition id_class (w : world) (id : extractor_id) : option string :=
  match id with
  | IdName n => extractor_map n
  | IdModule m c => w_import w m c
  end.

(** Every cache entry was stored under the key of an extractor whose
    class returned that record from some [fetch()]. *)
Definition cache_ok (w : world) (c : list (hkey * pyval)) : Prop :=
  forall k v, In (k, v) c ->
    exists id hk cls p, k = cache_key id hk /\ id_class w id = Some cls /\
                        w_fetch w cls p = inr v.

(** Resolution of a signal's extractor ends with these values (it does
    not depend on the state). *)
Definition resolves (w : world) (signal : string) (sc : signal_config)
  (id : extractor_id) (cls : string) (p : list (pykey * pyval)) : Prop :=
  forall st, fst (resolve_extractor w signal sc st) = Ret (id, cls, p).

(** A signal whose extractor resolves, constructs and always raises
    [ExtractionError] from [fetch()]. *)
Definition extractor_always_fails (w : world) (signal : string) (sc : signal_config) : Prop :=
  exists id cls p, resolves w signal sc id cls p /\
    w_extractor_init w cls (PDict p) = None /\
    forall q, w_fetch w cls q = inl ExtractionError.

(** A signal whose plugins resolve and never raise: its extractor
    constructs and fetches, its transformer constructs and returns a dict
    on any input. *)
Definition well_behaved (w : world) (signal : string) (sc : signal_config) : Prop :=
  (exists id cls p, resolves w signal sc id cls p /\
     w_extractor_init w cls (PDict p) = None /\
     forall q, exists raw, w_fetch w cls q = inr raw) /\
  (exists tcls, (forall st, fst (resolve_transformer w signal sc st) = Ret tcls) /\
     forall raw, exists d, w_transform w tcls raw = inr (PDict d)).

(** A loader entry that yields no loader instance (it raises, fails to
    import, or is skipped). *)
Definition loader_dropped (w : world) (signal : string) (lc : loader_config) : Prop :=
  forall st, match fst (init_loader w signal lc st) with
             | Ret (Some _) => False
             | _ => True
             end.


(** Text with no [{], [}] or [$]. *)
Definition plain (s : string) : bool :=
  forallb (fun c => negb (is_char 123 c || is_char 125 c || is_char 36 c))
          (list_ascii_of_string s).

Definition valid_name (nm : string) : bool :=
  negb (String.eqb nm EmptyString) && forallb is_name_char (list_ascii_of_string nm).

(** Every value [m] returns satisfies [Q]. *)
Definition yields {A : Type} (Q : A -> Prop) (m : M A) : Prop :=
  forall st a, fst (m st) = Ret a -> Q a.

(** A [load()] call, if the event is one, receives the record built from a
    dict [d] returned by a [transform()] call, with [signal_name] set. *)
Definition record_tagged (w : world) (signal : string) (e : event) : Prop :=
  match e with
  | ELoad _ _ r =>
      exists tcls raw d, w_transform w tcls raw = inr (PDict d) /\
        r = PDict (py_dict_set d (KStr "signal_name") (PStr signal)) /\
        py_dict_get (match r with PDict d' => d' | _ => [] end) (KStr "signal_name")
          = Some (PStr signal)
  | _ => True
  end.

(** The terminal states of a signal whose [try] body completed. *)
Definition completed (s : status) : Prop := s = Succeeded \/ s = PartiallyLoaded.

(** [a <= b] in the order [sorted] uses: [b < a] is defined and false. *)
Definition key_le (a b : pykey) : Prop := py_lt b a = Some false.

(** The comparable kinds of keys: [str] ([true]) and numbers ([false]). *)
Definition key_kind (k : pykey) : option bool :=
  match k with
  | KStr _ => Some true
  | KBool _ | KInt _ => Some false
  | _ => None
  end.

(** The cache invariant is kept from [c] to [c']. *)
Definition cache_grows (w : world) (c c' : list (hkey * pyval)) : Prop :=
  cache_ok w c -> cache_ok w c'.

(** [m] never takes the early way out. *)
Definition no_exit {A : Type} (m : M A) : Prop := forall st, fst (m st) <> Exit.

(** [m] always returns a value. *)
Definition always_ret {A : Type} (m : M A) : Prop := forall st, exists a, fst (m st) = Ret a.

(** The status [run] records for a configured signal: its name, and the
    terminal state its kind of extractor and transformer lead to. *)
Definition status_rel (w : world) (e : string * signal_config) (s : string * status) : Prop :=
  fst s = fst e /\
  (well_behaved w (fst e) (snd e) -> completed (snd s)) /\
  (extractor_always_fails w (fst e) (snd e) -> snd s = Failed ExtractionError).

(** A world with four collaborators that never fail, except [fetch()] of
    [FredExtractor], which always raises [ExtractionError]. *)
Definition demo_world : world :=
  mkWorld (fun _ => None)
          (fun _ c => Some c)
          (fun _ _ => None)
          (fun cls _ => if String.eqb cls "FredExtractor" then inl ExtractionError
                        else inr (PDict [(KStr "price", PInt 100)]))
          (fun _ _ => None)
          (fun _ raw => inr (PDict [(KStr "value", raw)]))
          (fun _ _ _ => None)
          (fun _ _ _ => None).

Definition demo_signal (ext tr : string) : signal_config :=
  mkSignal (ExtName ext) None None None (TrName tr)
           (Some [mkLoader (Some "etl.load.file_loader") (Some "FileLoader") None None None]).

Definition demo_config : config :=
  mkConfig [("bitcoin_price", demo_signal "coingecko_extractor" "bitcoin_price_transformer");
            ("m2_money_supply", demo_signal "fred_extractor" "m2_transformer");
            ("fear_and_greed", demo_signal "alternative_extractor" "fear_greed_transformer")].

(** [m2_money_supply] as in [config/signals.yaml], with its FRED key
    declared as a secret. *)
Definition fred_signal : signal_config :=
  mkSignal (ExtName "fred_extractor") (Some [(KStr "series_id", PStr "M2SL")])
           (Some ["FRED_API_KEY"]) (Some [("api_key", "FRED_API_KEY")])
           (TrName "m2_transformer") (Some []).

(** Parameters whose keys [sorted] cannot order (an [int] and a [str]):
    both the tuple key and the [json.dumps] fallback raise [TypeError]. *)
Definition mixed_params : list (pykey * pyval) :=
  [(KInt 1, PStr "a"); (KStr "b", PStr "c")].

(** [load()] of this loader returned. *)
Definition load_ok (w : world) (l : string * pyval) (record : pyval) : bool :=
  match w_load w (fst l) (snd l) record with None => true | Some _ => false end.

(** Two file-style loaders; [load()] of [DbLoader] always raises [LoadError]. *)
Definition two_loaders : list loader_config :=
  [mkLoader (Some "etl.load.db_loader") (Some "DbLoader") None None None;
   mkLoader (Some "etl.load.file_loader") (Some "FileLoader") None None None].

Definition load_world : world :=
  mkWorld (fun _ => None)
          (fun _ c => Some c)
          (fun _ _ => None)
          (fun _ _ => inr (PDict [(KStr "price", PInt 100)]))
          (fun _ _ => None)
          (fun _ raw => inr (PDict [(KStr "value", raw)]))
          (fun _ _ _ => None)
          (fun cls _ _ => if String.eqb cls "DbLoader" then Some LoadError else None).

Definition partial_signal : signal_config :=
  mkSignal (ExtName "coingecko_extractor") None None None
           (TrName "bitcoin_price_transformer") (Some two_loaders).

Definition full_signal : signal_config :=
  mkSignal (ExtName "coingecko_extractor") None None None
           (TrName "bitcoin_price_transformer")
           (Some [mkLoader (Some "etl.load.file_loader") (Some "FileLoader") None None None]).

Definition partial_config : config := mkConfig [("bitcoin_price", partial_signal)].
Definition full_config : config := mkConfig [("bitcoin_price", full_signal)].

(** [demo_world] where every loader constructor raises. *)
Definition dropped_world : world :=
  mkWorld (w_env demo_world) (w_import demo_world) (w_extractor_init demo_world)
          (w_fetch demo_world) (w_transformer_init demo_world) (w_transform demo_world)
          (fun _ _ _ => Some (OtherError "ConnectionError"))
          (w_load demo_world).


(** The character with code [k] does not occur in [s]. *)
Definition no_char (k : N) (s : string) : bool :=
  forallb (fun c => negb (is_char k c)) (list_ascii_of_string s).



Definition coin_params : list (pykey * pyval) :=
  [(KStr "coin_id", PStr "bitcoin"); (KStr "days", PInt 30)].



(** A secret name [secrets] does not hold ([secret_name in secrets] is false). *)
Definition secret_missing (secrets : list (string * string)) (sn : string) : bool :=
  match str_dict_get secrets sn with Some _ => false | None => true end.

Definition is_str_key (k : pykey) : bool := match k with KStr _ => true | _ => false end.

(** Every dict inside the value, at any depth, has only [str] keys. *)
Fixpoint str_keyed (v : pyval) : bool :=
  match v with
  | PList xs => forallb str_keyed xs
  | PDict kvs => forallb (fun kv => is_str_key (fst kv) && str_keyed (snd kv)) kvs
  | _ => true
  end.

(** Every string inside the value satisfies [p]. *)
Fixpoint all_strings (p : string -> bool) (v : pyval) : bool :=
  match v with
  | PStr s => p s
  | PList xs => forallb (all_strings p) xs
  | PDict kvs => forallb (fun kv => all_strings p (snd kv)) kvs
  | _ => true
  end.

(** Text with no [{] and no [$]: no template can start in it. *)
Definition template_free (s : string) : bool := no_char 123 s && no_char 36 s.

(** The entries [init_loader] treats as Supabase loaders. *)
Definition supabase_entry (lc : loader_config) : bool :=
  match lc_module lc with
  | Some m => negb (str_contains "google_sheets_loader" (str_lower m))
              && str_contains "supabase_loader" (str_lower m)
  | None =>
      match lc_type lc with
      | Some t => String.eqb t "supabase_loader"
      | None => false
      end
  end.

(** The config the default Supabase loader is built with when
    [SUPABASE_URL] is [u]. *)
Definition supabase_config (w : world) (u : string) : list (pykey * pyval) :=
  [(KStr "table", PStr "financial_signals"); (KStr "url", PStr u);
   (KStr "key", getenv_val w "SUPABASE_KEY")].

(** An environment with the FRED key and the Supabase settings. *)
Definition env_vars (n : string) : option string :=
  if String.eqb n "FRED_API_KEY" then Some "k123"
  else if String.eqb n "SUPABASE_URL" then Some "https://db.example"
  else if String.eqb n "SUPABASE_KEY" then Some "sk"
  else None.

(** [demo_world] with [env_vars], a module [etl.load.missing_loader] that
    does not import, and a [LegacyLoader] and a [SupabaseLoader] whose
    constructors only accept [config=]. *)
Definition env_world : world :=
  mkWorld env_vars
          (fun m c => if String.eqb m "etl.load.missing_loader" then None else Some c)
          (w_extractor_init demo_world) (w_fetch demo_world)
          (w_transformer_init demo_world) (w_transform demo_world)
          (fun cls kw _ =>
             if String.eqb cls "LegacyLoader" || String.eqb cls "SupabaseLoader"
             then match kw with KwParams => Some TypeError | KwConfig => None end
             else None)
          (w_load demo_world).

Definition legacy_entry : loader_config :=
  mkLoader (Some "etl.load.legacy_loader") (Some "LegacyLoader") None None None.

(** A signal on the CoinGecko extractor whose transformer is [tr]. *)
Definition transformer_signal (tr : transformer_def) : signal_config :=
  mkSignal (ExtName "coingecko_extractor") None None None tr (Some []).

Definition m2_config : config := mkConfig [("m2_money_supply", fred_signal)].

(** ** Strings cut into text and references *)




(** The value the spec substitutes for [NAME]: its value when it is set
    and non-empty. *)
Definition env_value (env : string -> option string) (nm : string) : option string :=
  match env nm with
  | Some v => if String.eqb v EmptyString then None else Some v
  | None => None
  end.













(** ** Loader entries left out *)

(** The signal [sc] with the loader entries [lcs]. *)
Definition with_loaders (sc : signal_config) (lcs : list loader_config) : signal_config :=
  mkSignal (sc_extractor sc) (sc_extractor_params sc) (sc_secrets sc)
           (sc_secret_mapping sc) (sc_transformer sc) (Some lcs).

(** [m] returns the same outcome from every state. *)
Definition blind {A : Type} (m : M A) : Prop := forall st st', fst (m st) = fst (m st').

(** Two results with the same outcome, the same cache and the same
    [load()] calls. *)
Definition same_loads {A : Type} (x y : outcome A * engine_state) : Prop :=
  fst x = fst y /\ extractor_cache (snd x) = extractor_cache (snd y) /\
  filter is_load (trace (snd x)) = filter is_load (trace (snd y)).

(** A loader entry with neither [module] nor [type]:
    [loader_config["type"]] raises [KeyError]. *)
Definition keyless_entry : loader_config := mkLoader None None None None None.

Definition mixed_loaders_signal : signal_config :=
  mkSignal (ExtName "coingecko_extractor") None None None (TrName "bitcoin_price_transformer")
           (Some [keyless_entry;
                  mkLoader (Some "etl.load.file_loader") (Some "FileLoader") None None None]).

(** ** Module-style loader entries *)

(** The dict a loader entry with module [m] and params [p0] is
    constructed with: [p0], with [url] and [key] set from the environment
    for a Supabase module. *)
Definition loader_kwargs (w : world) (m : string) (p0 : list (pykey * pyval))
  : list (pykey * pyval) :=
  if str_contains "supabase_loader" (str_lower m)
  then py_dict_set (py_dict_set p0 (KStr "url") (getenv_val w "SUPABASE_URL"))
                   (KStr "key") (getenv_val w "SUPABASE_KEY")
  else p0.

(** The trace after the module path's Supabase log line, if any. *)
Definition loader_kwargs_trace (m : string) (tr : list event) : list event :=
  if str_contains "supabase_loader" (str_lower m) then ELog Info MsgSupabaseUrl :: tr else tr.

(** A Supabase entry given as [module] and [class]. *)
Definition supabase_module_entry : loader_config :=
  mkLoader (Some "etl.load.supabase_loader") (Some "SupabaseLoader") None
           (Some [(KStr "table", PStr "financial_signals")]) None.

(** ** Signals around two that share an extractor *)




(** * Proofs *)

Open Scope list_scope.

Section Frames.
Variable R : list (hkey * pyval) -> list (hkey * pyval) -> Prop.
Variable P : event -> Prop.
Hypothesis R_refl : forall c, R c c.
Hypothesis R_trans : forall a b c, R a b -> R b c -> R a c.

Lemma frame_ret {A} (a : A) : frame R P (ret a).
Proof. intro st. split; [apply R_refl | exists []; auto]. Qed.

Lemma frame_throw {A} e : frame R P (@throw A e).
Proof. intro st. split; [apply R_refl | exists []; auto]. Qed.

Lemma frame_exit {A} : frame R P (@exit_ A).
Proof. intro st. split; [apply R_refl | exists []; auto]. Qed.

Lemma frame_emit e : P e -> frame R P (emit e).
Proof. intros H st. split; [apply R_refl | exists [e]; simpl; auto]. Qed.

Lemma frame_get_cache : frame R P get_cache.
Proof. intro st. split; [apply R_refl | exists []; auto]. Qed.

Lemma frame_bind {A B} (m : M A) (k : A -> M B) :
  frame R P m -> (forall a, frame R P (k a)) -> frame R P (bind m k).
Proof.
  intros Hm Hk st. unfold bind.
  destruct (Hm st) as [HR1 [evs1 [Ht1 HP1]]].
  destruct (m st) as [o st1] eqn:E. simpl in *.
  destruct o as [a|e|].
  - destruct (Hk a st1) as [HR2 [evs2 [Ht2 HP2]]].
    split; [eauto|].
    exists (evs2 ++ evs1). rewrite Ht2, Ht1, app_assoc.
    split; [reflexivity | apply Forall_app; auto].
  - simpl. split; [auto | exists evs1; auto].
  - simpl. split; [auto | exists evs1; auto].
Qed.

Lemma frame_try_catch {A} (m : M A) (h : exn -> M A) :
  frame R P m -> (forall e, frame R P (h e)) -> frame R P (try_catch m h).
Proof.
  intros Hm Hh st. unfold try_catch.
  destruct (Hm st) as [HR1 [evs1 [Ht1 HP1]]].
  destruct (m st) as [o st1] eqn:E. simpl in *.
  destruct o as [a|e|].
  - split; [auto | exists evs1; auto].
  - destruct (Hh e st1) as [HR2 [evs2 [Ht2 HP2]]].
    split; [eauto|].
    exists (evs2 ++ evs1). rewrite Ht2, Ht1, app_assoc.
    split; [reflexivity | apply Forall_app; auto].
  - split; [auto | exists evs1; auto].
Qed.

Lemma frame_attempt {A} (m : M A) : frame R P m -> frame R P (attempt m).
Proof.
  intros Hm st. unfold attempt.
  destruct (Hm st) as [HR1 [evs1 [Ht1 HP1]]].
  destruct (m st) as [o st1]. simpl in *. split; [auto | exists evs1; auto].
Qed.
End Frames.

Create HintDb frames.
#[export] Hint Resolve frame_ret frame_throw frame_exit frame_get_cache : frames.

Ltac frame_side :=
  intros; cbv beta in *; first [reflexivity | congruence | auto | unfold cache_grows in *; auto].

(** Closes the side conditions on the cache relation left by a frame lemma. *)
Ltac frame_sides :=
  try match goal with
      | |- frame _ _ _ => fail 1
      | |- forall _, frame _ _ _ => fail 1
      | |- _ => solve [frame_side]
      end.

(** Walks a computation built from the monad's combinators. *)
Ltac frame_go :=
  repeat match goal with
  | |- forall _, _ => intro
  | |- frame _ _ (bind _ _) => eapply frame_bind; frame_sides
  | |- frame _ _ (try_catch _ _) => eapply frame_try_catch; frame_sides
  | |- frame _ _ (attempt _) => eapply frame_attempt; frame_sides
  | |- frame _ _ (ret _) => eapply frame_ret; frame_sides
  | |- frame _ _ (throw _) => eapply frame_throw; frame_sides
  | |- frame _ _ exit_ => eapply frame_exit; frame_sides
  | |- frame _ _ get_cache => eapply frame_get_cache; frame_sides
  | |- frame _ _ (log _ _) => unfold log
  | |- frame _ _ (emit _) => eapply frame_emit; frame_sides; try (simpl; repeat split; auto)
  | |- frame _ _ ((fun _ => _) _) => cbv beta
  | |- frame _ _ (let (_, _) := ?x in _) => destruct x
  | |- frame _ _ (match ?x with _ => _ end) => destruct x
  end.

Lemma frame_weaken {A} (R R' : list (hkey * pyval) -> list (hkey * pyval) -> Prop)
  (P P' : event -> Prop) (m : M A) :
  (forall c c', R c c' -> R' c c') -> (forall e, P e -> P' e) ->
  frame R P m -> frame R' P' m.
Proof.
  intros HR HP Hm st. destruct (Hm st) as [H1 [evs [H2 H3]]].
  split; [auto | exists evs; split; [auto | eapply Forall_impl; eauto]].
Qed.

Section Quiet.
Variable w : world.
Variable signal : string.
Variable raw : pyval.

Lemma get_secrets_into_frame names secrets : frame eq (fun e => quiet e /\ fed raw e /\ is_load e = false) (get_secrets_into w names secrets).
Proof.
  revert secrets. induction names as [|n r IH]; intro secrets; simpl; frame_go; auto.
Qed.

Lemma apply_secret_mapping_frame secrets mapping params :
  frame eq (fun e => quiet e /\ fed raw e /\ is_load e = false) (apply_secret_mapping signal secrets mapping params).
Proof.
  revert params. induction mapping as [|[pn sn] r IH]; intro params; simpl; frame_go; auto.
Qed.

Lemma resolve_extractor_frame sc : frame eq (fun e => quiet e /\ fed raw e /\ is_load e = false) (resolve_extractor w signal sc).
Proof.
  unfold resolve_extractor, get_secrets. frame_go;
    auto using get_secrets_into_frame, apply_secret_mapping_frame.
Qed.

Lemma resolve_transformer_frame sc : frame eq (fun e => quiet e /\ fed raw e /\ is_load e = false) (resolve_transformer w signal sc).
Proof.
  unfold resolve_transformer, init_transformer_dict. frame_go.
Qed.

Lemma transform_step_frame tcls : frame eq (fun e => quiet e /\ fed raw e /\ is_load e = false) (transform_step w signal tcls raw).
Proof.
  unfold transform_step. frame_go.
Qed.

Lemma init_loader_frame lc : frame eq (fun e => quiet e /\ fed raw e /\ is_load e = false) (init_loader w signal lc).
Proof.
  unfold init_loader, inject_supabase, log_supabase_url, construct_loader. frame_go.
Qed.

Lemma init_loaders_frame lcs : frame eq (fun e => quiet e /\ fed raw e /\ is_load e = false) (init_loaders w signal lcs).
Proof.
  induction lcs as [|lc r IH]; simpl; frame_go; auto using init_loader_frame.
Qed.

Lemma run_loads_frame record ls ok :
  frame eq (fun e => quiet e /\ fed raw e /\
                     match e with ELoad _ _ r => r = record | _ => True end)
    (run_loads w signal record ls ok).
Proof.
  revert ok. induction ls as [|[c cfg] r IH]; intro ok; simpl; frame_go; auto.
Qed.
End Quiet.

(** ** Stepping through binds *)

Lemma bind_ret_step {A B} (m : M A) (k : A -> M B) st a :
  fst (m st) = Ret a -> bind m k st = k a (snd (m st)).
Proof. unfold bind. destruct (m st) as [o st1]. simpl. intros ->. reflexivity. Qed.

Lemma bind_throw_step {A B} (m : M A) (k : A -> M B) st e :
  fst (m st) = Throw e -> bind m k st = (Throw e, snd (m st)).
Proof. unfold bind. destruct (m st) as [o st1]. simpl. intros ->. reflexivity. Qed.


Lemma try_catch_throw_step {A} (m : M A) h st e :
  fst (m st) = Throw e -> try_catch m h st = h e (snd (m st)).
Proof. unfold try_catch. destruct (m st) as [o st1]. simpl. intros ->. reflexivity. Qed.

Lemma frame_bind_post {A B} R P (Q : A -> Prop) (m : M A) (k : A -> M B) :
  (forall c, R c c) -> (forall a b c, R a b -> R b c -> R a c) ->
  frame R P m -> yields Q m -> (forall a, Q a -> frame R P (k a)) ->
  frame R P (bind m k).
Proof.
  intros Hrefl Htrans Hm HQ Hk st. unfold bind.
  destruct (Hm st) as [HR1 [evs1 [Ht1 HP1]]].
  specialize (HQ st).
  destruct (m st) as [o st1] eqn:E. simpl in *.
  destruct o as [a|e|].
  - destruct (Hk a (HQ a eq_refl) st1) as [HR2 [evs2 [Ht2 HP2]]].
    split; [eauto|].
    exists (evs2 ++ evs1). rewrite Ht2, Ht1, app_assoc.
    split; [reflexivity | apply Forall_app; auto].
  - simpl. split; [auto | exists evs1; auto].
  - simpl. split; [auto | exists evs1; auto].
Qed.

Lemma frame_put_cache R P c0 :
  (forall c, R c c0) -> frame R P (put_cache c0).
Proof. intros H st. split; [apply H | exists []; auto]. Qed.

Lemma frame_any_eq {A} R P (m : M A) :
  (forall c, R c c) -> frame eq P m -> frame R P m.
Proof.
  intros Hr Hm st. destruct (Hm st) as [H1 H2]. rewrite <- H1. auto.
Qed.

(** ** Dicts and cache keys *)

Lemma key_eqb_refl k : key_eqb k k = true.
Proof.
  destruct k; simpl; try apply String.eqb_refl; try reflexivity; apply Z.eqb_refl.
Qed.

Lemma py_dict_get_set d k v : py_dict_get (py_dict_set d k v) k = Some v.
Proof.
  induction d as [|[k' w] r IH]; simpl.
  - rewrite key_eqb_refl. reflexivity.
  - destruct (key_eqb k' k) eqn:E; simpl; rewrite ?E; auto.
Qed.

Lemma hkey_eqb_str s t : hkey_eqb (HStr s) (HStr t) = true -> s = t.
Proof. simpl. apply String.eqb_eq. Qed.

Lemma hkey_eqb_cache_key id hk id' hk' :
  hkey_eqb (cache_key id hk) (cache_key id' hk') = true -> id = id'.
Proof.
  destruct id as [n|m c], id' as [n'|m' c']; simpl;
    rewrite ?Bool.andb_true_iff; intuition;
    repeat match goal with
           | H : (_ =? _)%string = true |- _ => apply String.eqb_eq in H; subst
           end; try reflexivity;
    repeat match goal with
           | H : (if ?b then _ else _) = true |- _ => destruct b
           | H : _ && _ = true |- _ => apply Bool.andb_true_iff in H; destruct H
           end; try discriminate.
Qed.

(** ** The order of [sorted] on keys *)




Ltac some_inv :=
  repeat match goal with
         | H : Some _ = Some _ |- _ => injection H as H
         | H : Some _ = None |- _ => discriminate H
         | H : None = Some _ |- _ => discriminate H
         end.



Lemma py_lt_defined a b :
  key_kind a = key_kind b -> key_kind a <> None -> exists x, py_lt a b = Some x.
Proof. destruct a, b; simpl; intros H1 H2; try congruence; eauto. Qed.





(** ** Insertion sort by a key *)

Section SortFacts.
Context {A : Type} (key : A -> pykey).
Let R := fun a b => key_le (key a) (key b).

(** Every key of [l] is comparable and of kind [k], or [l] is too short
    to need a comparison. *)
Let D (l : list A) : Prop :=
  length l <= 1 \/ exists k, forall a, In a l -> key_kind (key a) = Some k.

Lemma insert_by_perm x l l' : insert_by key x l = Some l' -> Permutation (x :: l) l'.
Proof.
  revert l'. induction l as [|y r IH]; simpl; intros l' H.
  - some_inv. subst. auto.
  - destruct (py_lt (key x) (key y)) as [[|]|]; some_inv; subst; try discriminate; auto.
    destruct (insert_by key x r) as [r'|] eqn:E; some_inv; subst; try discriminate.
    specialize (IH r' eq_refl).
    eapply perm_trans; [apply perm_swap | apply perm_skip; exact IH].
Qed.

Lemma sort_by_perm l s : sort_by key l = Some s -> Permutation l s.
Proof.
  revert s. induction l as [|x r IH]; simpl; intros s H.
  - some_inv. subst. auto.
  - destruct (sort_by key r) as [s'|] eqn:E; try discriminate.
    apply insert_by_perm in H.
    eapply perm_trans; [apply perm_skip; apply IH; reflexivity | exact H].
Qed.




Lemma insert_by_defined x l k :
  key_kind (key x) = Some k -> (forall y, In y l -> key_kind (key y) = Some k) ->
  exists l', insert_by key x l = Some l'.
Proof.
  intros Hx. induction l as [|y r IH]; simpl; intros Hl; eauto.
  destruct (py_lt_defined (key x) (key y)) as [b Hb];
    [rewrite Hx, Hl; auto | congruence |].
  rewrite Hb. destruct b; eauto.
  destruct IH as [r' Hr']; auto. rewrite Hr'. eauto.
Qed.

Lemma sort_by_defined l : D l -> exists s, sort_by key l = Some s.
Proof.
  induction l as [|x r IH]; simpl; intros HD; eauto.
  destruct r as [|y r'].
  - simpl. eauto.
  - destruct HD as [HD | [k Hk]]; [simpl in HD; lia|].
    destruct IH as [s Hs]; [right; exists k; intros a Ha; apply Hk; simpl in *; tauto|].
    rewrite Hs. eapply insert_by_defined.
    + apply Hk. simpl. auto.
    + intros z Hz. apply Hk. right.
      eapply Permutation_in; [symmetry; apply sort_by_perm; exact Hs | exact Hz].
Qed.





End SortFacts.

Lemma insert_by_map {A B} (ka : A -> pykey) (kb : B -> pykey) (f : A -> B)
  (Hk : forall a, kb (f a) = ka a) x l :
  insert_by kb (f x) (map f l) = option_map (map f) (insert_by ka x l).
Proof.
  induction l as [|y r IH]; simpl; auto.
  rewrite !Hk. destruct (py_lt (ka x) (ka y)) as [[|]|]; auto.
  rewrite IH. destruct (insert_by ka x r); reflexivity.
Qed.

Lemma sort_by_map {A B} (ka : A -> pykey) (kb : B -> pykey) (f : A -> B)
  (Hk : forall a, kb (f a) = ka a) l :
  sort_by kb (map f l) = option_map (map f) (sort_by ka l).
Proof.
  induction l as [|x r IH]; simpl; auto.
  rewrite IH. destruct (sort_by ka r) as [s|]; simpl; auto.
  apply insert_by_map. exact Hk.
Qed.

(** Whether [sorted] raises depends on the keys alone. *)
Lemma sort_by_none_keys {B C} (l1 : list (pykey * B)) (l2 : list (pykey * C)) :
  map fst l1 = map fst l2 -> sort_by fst l1 = None -> sort_by fst l2 = None.
Proof.
  intros Hk H.
  pose proof (sort_by_map fst (fun k => k) fst (fun _ => eq_refl) l1) as E1.
  pose proof (sort_by_map fst (fun k => k) fst (fun _ => eq_refl) l2) as E2.
  rewrite H in E1. simpl in E1. rewrite Hk in E1. rewrite E1 in E2.
  destruct (sort_by fst l2); simpl in E2; congruence.
Qed.

(** ** [traverse_opt] *)




Lemma traverse_none_in {A B} (f : A -> option B) l :
  traverse_opt f l = None -> exists x, In x l /\ f x = None.
Proof.
  induction l as [|x r IH]; simpl; [discriminate|].
  destruct (f x) eqn:E; eauto.
  destruct (traverse_opt f r); [discriminate|]. intros _.
  destruct IH as [y [Hy Hf]]; eauto.
Qed.

Lemma traverse_in_none {A B} (f : A -> option B) l x :
  In x l -> f x = None -> traverse_opt f l = None.
Proof.
  induction l as [|y r IH]; simpl; [tauto|]. intros [<- | Hx] Hf.
  - rewrite Hf. reflexivity.
  - destruct (f y); auto. rewrite IH; auto.
Qed.

Lemma traverse_keys {B C} (h : B -> option C) (l : list (pykey * B)) r :
  traverse_opt (fun kv => match h (snd kv) with Some y => Some (fst kv, y) | None => None end) l
    = Some r -> map fst r = map fst l.
Proof.
  revert r. induction l as [|[k v] l IH]; simpl; intros r H.
  - some_inv. subst. reflexivity.
  - destruct (h v); try discriminate.
    match type of H with
    | context [traverse_opt ?g l] => destruct (traverse_opt g l) as [t|] eqn:E
    end; try discriminate.
    some_inv. subst. simpl. f_equal. apply IH. reflexivity.
Qed.


(** ** Nested induction on values *)

Lemma pyval_ind2 (P : pyval -> Prop) :
  P PNone -> (forall b, P (PBool b)) -> (forall z, P (PInt z)) -> (forall s, P (PStr s)) ->
  (forall xs, Forall P xs -> P (PList xs)) ->
  (forall kvs, Forall (fun kv => P (snd kv)) kvs -> P (PDict kvs)) ->
  (forall r, P (POther r)) ->
  forall v, P v.
Proof.
  intros Hn Hb Hi Hs Hl Hd Ho.
  refine (fix IH (v : pyval) {struct v} : P v := _).
  destruct v as [| b | z | s | xs | kvs | r].
  - exact Hn.
  - apply Hb.
  - apply Hi.
  - apply Hs.
  - apply Hl. induction xs as [|x xs IHxs]; constructor; [apply IH | exact IHxs].
  - apply Hd. induction kvs as [|[k x] kvs IHkvs]; constructor; [apply IH | exact IHkvs].
  - apply Ho.
Qed.


(** ** [_make_hashable_key] *)

Lemma mk_dict_eq kvs :
  _make_hashable_key (PDict kvs) =
  match
    match traverse_opt (fun kv => match _make_hashable_key (snd kv) with
                                  | Some h => Some (fst kv, h)
                                  | None => None
                                  end) kvs with
    | None => None
    | Some items =>
        match sort_by fst items with
        | None => None
        | Some sorted =>
            Some (HTuple (map (fun kh => HTuple [hkey_of_key (fst kh); snd kh]) sorted))
        end
    end
  with
  | Some h => Some h
  | None => option_map HStr (json_dumps (PDict kvs))
  end.
Proof. reflexivity. Qed.

(** [_make_hashable_key] fails only where [json.dumps] fails too. *)
Lemma mk_none_json v : _make_hashable_key v = None -> json_dumps v = None.
Proof.
  induction v as [| b | z | s | xs IH | kvs IH | r] using pyval_ind2;
    try (simpl; discriminate).
  - simpl. intro H. destruct (traverse_opt _make_hashable_key xs) eqn:E; try discriminate.
    destruct (traverse_none_in _ _ E) as [x [Hx Hm]].
    rewrite Forall_forall in IH.
    rewrite (traverse_in_none json_dumps xs x Hx (IH x Hx Hm)). reflexivity.
  - rewrite mk_dict_eq.
    match goal with
    | |- match ?direct with Some _ => _ | None => _ end = None -> _ =>
        destruct direct; [discriminate|]
    end.
    destruct (json_dumps (PDict kvs)); simpl; [discriminate | auto].
Qed.

(** The [json.dumps] fallback never yields a key: whenever the direct
    construction fails, [json.dumps] fails as well. *)
Lemma mk_dict_direct kvs :
  _make_hashable_key (PDict kvs) =
    match traverse_opt (fun kv => match _make_hashable_key (snd kv) with
                                  | Some h => Some (fst kv, h)
                                  | None => None
                                  end) kvs with
    | None => None
    | Some items =>
        match sort_by fst items with
        | None => None
        | Some sorted =>
            Some (HTuple (map (fun kh => HTuple [hkey_of_key (fst kh); snd kh]) sorted))
        end
    end.
Proof.
  rewrite mk_dict_eq.
  destruct (traverse_opt _ kvs) as [items|] eqn:Em.
  - destruct (sort_by fst items) as [sorted|] eqn:Es; [reflexivity|].
    cbn [json_dumps].
    match goal with
    | |- context [traverse_opt ?g kvs] => destruct (traverse_opt g kvs) as [kss|] eqn:Ej
    end; [|reflexivity].
    apply traverse_keys in Em. apply traverse_keys in Ej.
    rewrite (sort_by_none_keys items kss); [reflexivity | congruence | exact Es].
  - destruct (traverse_none_in _ _ Em) as [kv [Hin Hn]].
    destruct (_make_hashable_key (snd kv)) eqn:Hk; try discriminate.
    apply mk_none_json in Hk.
    cbn [json_dumps].
    match goal with
    | |- context [traverse_opt ?g kvs] => rewrite (traverse_in_none g kvs kv Hin)
    end; [reflexivity|].
    simpl. rewrite Hk. reflexivity.
Qed.



(** ** Returned values *)

Lemma yields_ret {A} (Q : A -> Prop) a : Q a -> yields Q (ret a).
Proof. intros H st b E. simpl in E. some_inv. injection E as <-. exact H. Qed.

Lemma yields_throw {A} (Q : A -> Prop) e : yields Q (throw e).
Proof. intros st b E. discriminate. Qed.

Lemma yields_exit {A} (Q : A -> Prop) : yields Q exit_.
Proof. intros st b E. discriminate. Qed.

Lemma yields_bind {A B} (Q : B -> Prop) (m : M A) (k : A -> M B) :
  (forall a, yields Q (k a)) -> yields Q (bind m k).
Proof.
  intros Hk st b. unfold bind. destruct (m st) as [[a|e|] st1]; simpl; try discriminate.
  apply Hk.
Qed.

Ltac yields_go :=
  repeat match goal with
  | |- yields _ (bind _ _) => apply yields_bind; intro
  | |- yields _ (ret _) => apply yields_ret
  | |- yields _ (throw _) => apply yields_throw
  | |- yields _ exit_ => apply yields_exit
  | |- yields _ (log _ _) => unfold log
  | |- yields _ (match ?x with _ => _ end) => destruct x eqn:?
  end.

Lemma resolve_extractor_class w signal sc :
  yields (fun r => id_class w (fst (fst r)) = Some (snd (fst r))) (resolve_extractor w signal sc).
Proof. unfold resolve_extractor. yields_go; simpl; auto. Qed.

Lemma transform_step_yields w signal tcls raw :
  yields (fun r => exists d, w_transform w tcls raw = inr (PDict d) /\
                             r = PDict (py_dict_set d (KStr "signal_name") (PStr signal)))
    (transform_step w signal tcls raw).
Proof. unfold transform_step. yields_go; eauto. Qed.

(** ** Extraction and the cache *)

Lemma cache_store_ok w c id hk cls p raw :
  cache_ok w c -> id_class w id = Some cls -> w_fetch w cls p = inr raw ->
  cache_ok w (cache_store (cache_key id hk) raw c).
Proof.
  intros Hc Hid Hf. induction c as [|[k v] r IH]; simpl.
  - intros k v [E | []]. injection E as <- <-. exists id, hk, cls, p. auto.
  - destruct (hkey_eqb k (cache_key id hk)) eqn:E.
    + intros k' v' [E' | Hin].
      * injection E' as <- <-.
        destruct (Hc k v (or_introl eq_refl)) as [id' [hk' [cls' [p' [-> _]]]]].
        apply hkey_eqb_cache_key in E. subst id'.
        exists id, hk', cls, p. auto.
      * apply Hc. right. exact Hin.
    + intros k' v' [E' | Hin].
      * apply Hc. left. exact E'.
      * apply IH; auto. intros k1 v1 H1. apply Hc. right. exact H1.
Qed.

Lemma cache_ok_nil w : cache_ok w [].
Proof. intros k v []. Qed.

Ltac unfold_extract :=
  unfold extract, try_catch, construct_and_fetch, bind, get_cache, put_cache,
    emit, log, ret, throw.

Lemma extract_uncached w id cls params raw st :
  _make_hashable_key (PDict params) = None ->
  w_extractor_init w cls (PDict params) = None ->
  w_fetch w cls (PDict params) = inr raw ->
  extract w id cls params st =
    (Ret raw, mkState (extractor_cache st)
                ([ELog Info MsgFetchedUncached; EFetch cls (PDict params);
                  EConstructExtractor cls (PDict params);
                  ELog Error (MsgCacheKeyFailed TypeError)] ++ trace st)).
Proof. intros Hk Hi Hf. unfold_extract. rewrite Hk. simpl. rewrite Hi, Hf. reflexivity. Qed.

Lemma extract_miss w id cls params hk raw st :
  _make_hashable_key (PDict params) = Some hk ->
  cache_lookup (cache_key id hk) (extractor_cache st) = None ->
  w_extractor_init w cls (PDict params) = None ->
  w_fetch w cls (PDict params) = inr raw ->
  extract w id cls params st =
    (Ret raw, mkState (cache_store (cache_key id hk) raw (extractor_cache st))
                ([ELog Info MsgFetched; EFetch cls (PDict params);
                  EConstructExtractor cls (PDict params);
                  ELog Info MsgCacheMiss] ++ trace st)).
Proof. intros Hk Hl Hi Hf. unfold_extract. rewrite Hk. simpl. rewrite Hl, Hi, Hf. reflexivity. Qed.

Lemma extract_hit w id cls params hk raw st :
  _make_hashable_key (PDict params) = Some hk ->
  cache_lookup (cache_key id hk) (extractor_cache st) = Some raw ->
  extract w id cls params st =
    (Ret raw, mkState (extractor_cache st) (ELog Info MsgCacheHit :: trace st)).
Proof. intros Hk Hl. unfold_extract. rewrite Hk. simpl. rewrite Hl. reflexivity. Qed.

Lemma pre_cons (x : event) l evs t : l = evs ++ t -> x :: l = (x :: evs) ++ t.
Proof. intros ->. reflexivity. Qed.

Lemma pre_nil (t : list event) : t = [] ++ t.
Proof. reflexivity. Qed.

(** Finds the events a step put in front of the old trace. *)
Ltac trace_prefix := repeat eapply pre_cons; apply pre_nil.

Lemma extract_frame w id cls params :
  frame (fun c c' => id_class w id = Some cls -> cache_ok w c -> cache_ok w c')
        (fun e => match e with ETransform _ _ | ELoad _ _ _ => False | _ => True end)
        (extract w id cls params).
Proof.
  intro st. unfold_extract.
  destruct (_make_hashable_key (PDict params)) as [hk|]; simpl;
    [destruct (cache_lookup (cache_key id hk) (extractor_cache st)); simpl|];
    try destruct (w_extractor_init w cls (PDict params)); simpl;
    try destruct (w_fetch w cls (PDict params)) eqn:Hf; simpl;
    (split; [intros Hid Hc; eauto using cache_store_ok
            | eexists; split; [trace_prefix | repeat constructor]]).
Qed.

(** A constructible extractor whose [fetch()] always returns: extraction
    returns a record. *)
Lemma extract_ret w id cls params st :
  w_extractor_init w cls (PDict params) = None ->
  (forall q, exists raw, w_fetch w cls q = inr raw) ->
  exists raw, fst (extract w id cls params st) = Ret raw.
Proof.
  intros Hi Hf. destruct (Hf (PDict params)) as [raw Hr].
  destruct (_make_hashable_key (PDict params)) as [hk|] eqn:Hk.
  - destruct (cache_lookup (cache_key id hk) (extractor_cache st)) as [v|] eqn:Hl.
    + rewrite (extract_hit w id cls params hk v st Hk Hl). simpl. eauto.
    + rewrite (extract_miss w id cls params hk raw st Hk Hl Hi Hr). simpl. eauto.
  - rewrite (extract_uncached w id cls params raw st Hk Hi Hr). simpl. eauto.
Qed.

(** An extractor whose [fetch()] always raises, and whose key the cache
    does not hold: extraction raises the same exception. *)
Lemma extract_throw w id cls params st e :
  id_class w id = Some cls -> cache_ok w (extractor_cache st) ->
  w_extractor_init w cls (PDict params) = None ->
  (forall q, w_fetch w cls q = inl e) ->
  fst (extract w id cls params st) = Throw e.
Proof.
  intros Hid Hc Hi Hf. unfold_extract.
  destruct (_make_hashable_key (PDict params)) as [hk|]; simpl.
  - destruct (cache_lookup (cache_key id hk) (extractor_cache st)) as [v|] eqn:Hl; simpl.
    + exfalso. clear -Hl Hc Hid Hf.
      induction (extractor_cache st) as [|[k v'] r IH]; simpl in Hl; [discriminate|].
      destruct (hkey_eqb k (cache_key id hk)) eqn:E.
      * some_inv. subst v'.
        destruct (Hc k v (or_introl eq_refl)) as [id' [hk' [cls' [p [-> [Hid' Hf']]]]]].
        apply hkey_eqb_cache_key in E. subst id'. rewrite Hid in Hid'. some_inv. subst.
        rewrite Hf in Hf'. discriminate.
      * apply IH; auto. intros k1 v1 H1. apply Hc. right. exact H1.
    + simpl. rewrite ?Hi, ?Hf. simpl. rewrite ?Hi, ?Hf. reflexivity.
  - rewrite ?Hi, ?Hf. simpl. rewrite ?Hi, ?Hf. reflexivity.
Qed.

(** ** One signal *)

Section OneSignal.
Variable w : world.

Lemma Rc_refl c : cache_grows w c c.
Proof. unfold cache_grows. auto. Qed.

Lemma Rc_trans a b c : cache_grows w a b -> cache_grows w b c -> cache_grows w a c.
Proof. unfold cache_grows. auto. Qed.

Lemma weaken_quiet {A} signal (m : M A) raw :
  frame eq (fun e => quiet e /\ fed raw e /\ is_load e = false) m ->
  frame (cache_grows w) (record_tagged w signal) m.
Proof.
  intro H. apply frame_any_eq; [apply Rc_refl|].
  eapply frame_weaken; [intros c c' E; exact E | | exact H].
  intros [] [_ [_ E]]; simpl in *; try discriminate; auto.
Qed.

Lemma process_signal_frame signal sc :
  frame (cache_grows w) (record_tagged w signal) (process_signal w signal sc).
Proof.
  unfold process_signal.
  eapply frame_bind_post; [apply Rc_refl | apply Rc_trans | | apply resolve_extractor_class |].
  { apply (weaken_quiet signal _ PNone). apply resolve_extractor_frame. }
  intros [[id cls] params] Hid. simpl in Hid. cbv beta iota.
  eapply frame_bind; [apply Rc_trans | |].
  { eapply frame_weaken; [| | apply extract_frame].
    - intros c c' H. unfold cache_grows. auto.
    - intros [] H; simpl in *; tauto. }
  intro raw.
  eapply frame_bind; [apply Rc_trans | |].
  { apply (weaken_quiet signal _ raw). apply resolve_transformer_frame. }
  intro tcls.
  eapply frame_bind_post; [apply Rc_refl | apply Rc_trans | | apply transform_step_yields |].
  { apply (weaken_quiet signal _ raw). apply transform_step_frame. }
  intros record [d [Ht ->]].
  eapply frame_bind; [apply Rc_trans | |].
  { apply (weaken_quiet signal _ raw). apply init_loaders_frame. }
  intro loaders.
  eapply frame_bind; [apply Rc_trans | |].
  { apply frame_any_eq; [apply Rc_refl|].
    eapply frame_weaken; [intros c c' E; exact E | | apply (run_loads_frame w signal raw)].
    intros [] [_ [_ E]]; simpl in *; auto. subst.
    exists tcls, raw, d. split; [exact Ht|]. split; [reflexivity|]. apply py_dict_get_set. }
  intro ok. frame_go; solve [apply Rc_refl | eapply Rc_trans; eassumption].
Qed.

Lemma run_one_frame signal sc :
  frame (cache_grows w) (record_tagged w signal) (run_one w (signal, sc)).
Proof.
  unfold run_one. frame_go; try solve [apply Rc_refl | eapply Rc_trans; eassumption].
  apply process_signal_frame.
Qed.

Lemma run_signal_frame cfg signal :
  frame (cache_grows w) (record_tagged w signal) (run_signal w cfg signal).
Proof.
  unfold run_signal, clear_cache.
  frame_go.
  all: try solve [apply Rc_refl | eapply Rc_trans; eassumption
                 | apply frame_put_cache; intros c _; apply cache_ok_nil
                 | apply process_signal_frame].
Qed.
End OneSignal.

(** ** Computations that always return *)

Lemma no_exit_ret {A} (a : A) : no_exit (ret a).
Proof. intros st. discriminate. Qed.

Lemma no_exit_throw {A} e : no_exit (@throw A e).
Proof. intros st. discriminate. Qed.

Lemma no_exit_emit e : no_exit (emit e).
Proof. intros st. discriminate. Qed.

Lemma no_exit_bind {A B} (m : M A) (k : A -> M B) :
  no_exit m -> (forall a, no_exit (k a)) -> no_exit (bind m k).
Proof.
  intros Hm Hk st. specialize (Hm st). unfold bind.
  destruct (m st) as [[a|e|] st1]; simpl in *; [apply Hk | discriminate | contradiction].
Qed.

Lemma no_exit_try_catch {A} (m : M A) h :
  no_exit m -> (forall e, no_exit (h e)) -> no_exit (try_catch m h).
Proof.
  intros Hm Hh st. specialize (Hm st). unfold try_catch.
  destruct (m st) as [[a|e|] st1]; simpl in *; [discriminate | apply Hh | contradiction].
Qed.

Ltac no_exit_go :=
  repeat match goal with
  | |- no_exit (bind _ _) => apply no_exit_bind; [|intro]
  | |- no_exit (try_catch _ _) => apply no_exit_try_catch; [|intro]
  | |- no_exit (ret _) => apply no_exit_ret
  | |- no_exit (throw _) => apply no_exit_throw
  | |- no_exit (emit _) => apply no_exit_emit
  | |- no_exit (log _ _) => unfold log
  | |- no_exit ((fun _ => _) _) => cbv beta
  | |- no_exit (match ?x with _ => _ end) => destruct x
  end.

Lemma always_ret_ret {A} (a : A) : always_ret (ret a).
Proof. intros st. exists a. reflexivity. Qed.

Lemma always_ret_emit e : always_ret (emit e).
Proof. intros st. exists tt. reflexivity. Qed.

Lemma always_ret_bind {A B} (m : M A) (k : A -> M B) :
  always_ret m -> (forall a, always_ret (k a)) -> always_ret (bind m k).
Proof.
  intros Hm Hk st. destruct (Hm st) as [a Ha].
  rewrite (bind_ret_step m k st a Ha). apply Hk.
Qed.

Lemma always_ret_try_catch {A} (m : M A) h :
  no_exit m -> (forall e, always_ret (h e)) -> always_ret (try_catch m h).
Proof.
  intros Hm Hh st. specialize (Hm st). unfold try_catch.
  destruct (m st) as [[a|e|] st1]; simpl in *; [eauto | apply Hh | contradiction].
Qed.

Ltac always_ret_go :=
  repeat match goal with
  | |- always_ret (bind _ _) => apply always_ret_bind; [|intro]
  | |- always_ret (ret _) => apply always_ret_ret
  | |- always_ret (emit _) => apply always_ret_emit
  | |- always_ret (log _ _) => unfold log
  | |- always_ret ((fun _ => _) _) => cbv beta
  | |- always_ret (match ?x with _ => _ end) => destruct x
  end.

Lemma init_loader_no_exit w signal lc : no_exit (init_loader w signal lc).
Proof.
  unfold init_loader, inject_supabase, log_supabase_url, construct_loader. no_exit_go.
Qed.

Lemma init_loaders_ret w signal lcs : always_ret (init_loaders w signal lcs).
Proof.
  induction lcs as [|lc r IH]; simpl; always_ret_go; auto.
  apply always_ret_try_catch; [apply init_loader_no_exit | intro e; always_ret_go].
Qed.

Lemma run_loads_ret w signal record ls ok : always_ret (run_loads w signal record ls ok).
Proof.
  revert ok. induction ls as [|[c cfg] r IH]; intro ok; simpl; always_ret_go; auto.
Qed.

(** ** The outcome of one signal *)

Lemma transform_step_ret w signal tcls raw d st :
  w_transform w tcls raw = inr (PDict d) ->
  fst (transform_step w signal tcls raw st)
  = Ret (PDict (py_dict_set d (KStr "signal_name") (PStr signal))).
Proof. intros H. unfold transform_step, bind, log, emit, ret. cbn. rewrite H. reflexivity. Qed.

Lemma process_signal_wb w signal sc st :
  well_behaved w signal sc -> exists b, fst (process_signal w signal sc st) = Ret b.
Proof.
  intros [[id [cls [p [Hres [Hi Hf]]]]] [tcls [Htr Ht]]].
  unfold process_signal.
  rewrite (bind_ret_step _ _ _ _ (Hres st)). cbn beta iota.
  match goal with |- context [bind (extract ?w ?id ?c ?p) ?k ?st] =>
    destruct (extract_ret w id c p st Hi Hf) as [raw Hx];
    rewrite (bind_ret_step _ k st raw Hx) end.
  match goal with |- context [bind (resolve_transformer ?w ?s ?sc) ?k ?st] =>
    rewrite (bind_ret_step _ k st tcls (Htr st)) end.
  destruct (Ht raw) as [d Hd].
  match goal with |- context [bind (transform_step ?w ?s ?t ?r) ?k ?st] =>
    rewrite (bind_ret_step _ k st _ (transform_step_ret w s t r d st Hd)) end.
  match goal with |- context [bind (init_loaders ?w ?s ?l) ?k ?st] =>
    destruct (init_loaders_ret w s l st) as [ls Hl];
    rewrite (bind_ret_step _ k st ls Hl) end.
  match goal with |- context [bind (run_loads ?w ?s ?r ?l ?o) ?k ?st] =>
    destruct (run_loads_ret w s r l o st) as [ok Hok];
    rewrite (bind_ret_step _ k st ok Hok) end.
  exists ok. destruct ok; reflexivity.
Qed.

Lemma process_signal_fail w signal sc st :
  cache_ok w (extractor_cache st) -> extractor_always_fails w signal sc ->
  fst (process_signal w signal sc st) = Throw ExtractionError.
Proof.
  intros Hc [id [cls [p [Hres [Hi Hf]]]]].
  pose proof (resolve_extractor_class w signal sc st (id, cls, p) (Hres st)) as Hid.
  simpl in Hid.
  destruct (resolve_extractor_frame w signal PNone sc st) as [Ec _].
  unfold process_signal.
  rewrite (bind_ret_step _ _ _ _ (Hres st)). cbn beta iota.
  rewrite Ec in Hc.
  rewrite (bind_throw_step _ _ _ _ (extract_throw w id cls p _ ExtractionError Hid Hc Hi Hf)).
  reflexivity.
Qed.

Lemma run_one_eq w n sc st :
  run_one w (n, sc) st =
    match process_signal w n sc
            (mkState (extractor_cache st) (ELog Info (MsgSignalStart n) :: trace st)) with
    | (Ret true, st2) => (Ret Succeeded, st2)
    | (Ret false, st2) => (Ret PartiallyLoaded, st2)
    | (Exit, st2) => (Ret Skipped, st2)
    | (Throw e, st2) =>
        (Ret (Failed e), mkState (extractor_cache st2)
                                  (ELog Error (MsgEtlFailure n e) :: trace st2))
    end.
Proof.
  unfold run_one, bind, attempt, log, emit, ret. cbn.
  destruct (process_signal w n sc _) as [[[|]|e|] st2]; reflexivity.
Qed.

Lemma run_one_wb w n sc st :
  well_behaved w n sc -> exists s, fst (run_one w (n, sc) st) = Ret s /\ completed s.
Proof.
  intros Hwb. rewrite run_one_eq.
  destruct (process_signal_wb w n sc
              (mkState (extractor_cache st) (ELog Info (MsgSignalStart n) :: trace st)) Hwb)
    as [b Hb].
  destruct (process_signal w n sc _) as [o st2]. simpl in Hb. subst o.
  destruct b; eexists; split; try reflexivity; unfold completed; auto.
Qed.

Lemma run_one_fail w n sc st :
  cache_ok w (extractor_cache st) -> extractor_always_fails w n sc ->
  fst (run_one w (n, sc) st) = Ret (Failed ExtractionError).
Proof.
  intros Hc Hf. rewrite run_one_eq.
  pose proof (process_signal_fail w n sc
                (mkState (extractor_cache st) (ELog Info (MsgSignalStart n) :: trace st)) Hc Hf)
    as Hp.
  destruct (process_signal w n sc _) as [o st2]. simpl in Hp. subst o. reflexivity.
Qed.

(** ** All the signals of [run] *)

Lemma run_one_status w n sc st :
  cache_ok w (extractor_cache st) ->
  well_behaved w n sc \/ extractor_always_fails w n sc ->
  exists s, fst (run_one w (n, sc) st) = Ret s /\ status_rel w (n, sc) (n, s).
Proof.
  intros Hc [Hwb | Hf]; unfold status_rel; simpl.
  - destruct (run_one_wb w n sc st Hwb) as [s [Hs Hcs]].
    exists s. split; [exact Hs|]. split; [reflexivity|]. split; [auto|].
    intro Hf. rewrite (run_one_fail w n sc st Hc Hf) in Hs. congruence.
  - exists (Failed ExtractionError). split; [apply run_one_fail; auto|].
    split; [reflexivity|]. split; [|auto].
    intro Hwb. destruct (run_one_wb w n sc st Hwb) as [s [Hs Hcs]].
    rewrite (run_one_fail w n sc st Hc Hf) in Hs. injection Hs as <-. exact Hcs.
Qed.

Lemma run_all_spec w sigs st :
  cache_ok w (extractor_cache st) ->
  Forall (fun e => well_behaved w (fst e) (snd e) \/ extractor_always_fails w (fst e) (snd e)) sigs ->
  exists sts, fst (run_all w sigs st) = Ret sts /\ Forall2 (status_rel w) sigs sts.
Proof.
  revert st. induction sigs as [|[n sc] r IH]; intros st Hc Hall.
  - exists []. split; [reflexivity | constructor].
  - inversion Hall as [|? ? He Hr]; subst.
    destruct (run_one_status w n sc st Hc He) as [s [Hs Hrel]].
    cbn [run_all]. rewrite (bind_ret_step _ _ st s Hs).
    destruct (run_one_frame w n sc st) as [Hc' _].
    destruct (IH _ (Hc' Hc) Hr) as [sts [Hsts Hf2]].
    rewrite (bind_ret_step _ _ _ sts Hsts).
    eexists; split; [reflexivity | constructor; auto].
Qed.

Lemma statuses_completed w sigs sts :
  Forall2 (status_rel w) sigs sts ->
  Forall (fun e => well_behaved w (fst e) (snd e)) sigs ->
  map fst sts = map fst sigs /\ Forall (fun s => completed (snd s)) sts.
Proof.
  induction 1 as [|e s r rs [Hn [Hwb _]] _ IH]; intros Hall; [split; auto|].
  inversion Hall; subst. destruct IH as [IH1 IH2]; auto.
  simpl. rewrite Hn, IH1. split; [reflexivity | constructor; auto].
Qed.

(** ** Secrets *)

Lemma get_secrets_into_missing w names secrets nm st :
  In nm names -> w_env w nm = None \/ w_env w nm = Some EmptyString ->
  get_secrets_into w names secrets st = (Throw MissingSecretError, st).
Proof.
  revert secrets. induction names as [|n r IH]; intros secrets Hin Hnm; [destruct Hin|].
  simpl. destruct Hin as [-> | Hin].
  - destruct Hnm as [-> | ->]; reflexivity.
  - destruct (w_env w n) as [v|]; [|reflexivity].
    destruct (String.eqb v EmptyString); [reflexivity|]. apply IH; auto.
Qed.

Lemma resolve_extractor_missing w signal sc n cls nm st :
  sc_extractor sc = ExtName n -> extractor_map n = Some cls ->
  In nm (default [] (sc_secrets sc)) -> w_env w nm = None \/ w_env w nm = Some EmptyString ->
  resolve_extractor w signal sc st =
    (Throw MissingSecretError,
     mkState (extractor_cache st) (ELog Info (MsgExtractStart n) :: trace st)).
Proof.
  intros Hext Hmap Hin Hnm. unfold resolve_extractor. rewrite Hext.
  unfold bind at 1, log, emit. cbn beta iota. rewrite Hmap.
  unfold get_secrets, bind at 1.
  rewrite (get_secrets_into_missing w _ [] nm _ Hin Hnm). reflexivity.
Qed.

(** ** Loading and the end of a signal *)

Lemma bind_ret_inv {A B} (m : M A) (k : A -> M B) st b :
  fst (bind m k st) = Ret b -> exists a, fst (m st) = Ret a /\ fst (k a (snd (m st))) = Ret b.
Proof.
  unfold bind. destruct (m st) as [[a|e|] st1]; simpl; intros H; [eauto | discriminate | discriminate].
Qed.

Lemma attempt_step {A} (m : M A) st : attempt m st = (Ret (fst (m st)), snd (m st)).
Proof. unfold attempt. destruct (m st). reflexivity. Qed.

(** Takes the first step of a computation that returned. *)
Ltac peel :=
  match goal with
  | H : fst (bind ?m ?k ?st) = Ret _ |- _ =>
      let a := fresh "a" in let Ha := fresh "Ha" in let H' := fresh "H" in
      destruct (bind_ret_inv m k st _ H) as [a [Ha H']]; clear H; rename H' into H;
      rewrite (bind_ret_step m k st a Ha); cbv beta in H |- *
  end.

Lemma run_loads_spec w signal record ls : forall ok st,
  fst (run_loads w signal record ls ok st)
    = Ret (ok && forallb (fun l => load_ok w l record) ls) /\
  exists evs, trace (snd (run_loads w signal record ls ok st)) = evs ++ trace st /\
              filter is_load evs = rev (map (fun l => ELoad (fst l) (snd l) record) ls).
Proof.
  induction ls as [|[c cfg] r IH]; intros ok st.
  - simpl. rewrite andb_true_r. split; [reflexivity | exists []; auto].
  - cbn [run_loads]. unfold bind, log, emit, ret. cbn -[run_loads].
    unfold load_ok at 1. simpl fst. simpl snd.
    destruct (w_load w c cfg record) as [e|];
      [destruct e; rewrite andb_false_r; simpl andb|rewrite andb_true_l];
      match goal with |- context [run_loads w signal record r ?o ?s] =>
        destruct (IH o s) as [H1 [evs [H2 H3]]]; rewrite H1;
        (split; [try rewrite andb_false_l; reflexivity|]);
        rewrite H2; simpl trace;
        eexists (evs ++ [_; ELoad c cfg record; _; _]);
        rewrite <- app_assoc; split; [reflexivity|];
        rewrite filter_app, H3; reflexivity
      end.
Qed.

Lemma process_signal_last w signal sc st b :
  fst (process_signal w signal sc st) = Ret b ->
  hd_error (trace (snd (process_signal w signal sc st)))
    = Some (if b then ELog Info (MsgEtlSuccess signal)
            else ELog Warning (MsgNotFullyLoaded signal)).
Proof.
  unfold process_signal. intros H.
  peel. destruct a as [[id cls] params]. cbn beta iota in H |- *.
  do 5 peel.
  destruct a3; unfold bind, log, emit, ret in H |- *; simpl in H |- *;
    injection H as <-; reflexivity.
Qed.

(** ** Loaders left out *)

Lemma init_loaders_dropped w signal lcs st :
  Forall (loader_dropped w signal) lcs -> fst (init_loaders w signal lcs st) = Ret [].
Proof.
  intros Hd. revert st. induction Hd as [|lc r Hlc Hr IH]; intro st; [reflexivity|].
  cbn [init_loaders].
  assert (E : fst (try_catch (init_loader w signal lc)
                     (fun e => log Error (MsgLoaderInitFailed signal e) ;;; ret None) st) = Ret None).
  { specialize (Hlc st). pose proof (init_loader_no_exit w signal lc st) as Hx.
    unfold try_catch. destruct (init_loader w signal lc st) as [[[inst|]|e|] st1];
      simpl in *; try contradiction; reflexivity. }
  rewrite (bind_ret_step _ _ st None E).
  match goal with |- context [bind (init_loaders w signal r) ?k ?st1] =>
    rewrite (bind_ret_step _ k st1 [] (IH st1)) end.
  reflexivity.
Qed.

Lemma forall_no_load evs : Forall (fun e => is_load e = false) evs -> filter is_load evs = [].
Proof. induction 1 as [|e r He _ IH]; simpl; [reflexivity | rewrite He; exact IH]. Qed.

Lemma process_signal_no_load w signal sc :
  Forall (loader_dropped w signal) (default default_loaders (sc_loaders sc)) ->
  frame (fun _ _ => True) (fun e => is_load e = false) (process_signal w signal sc).
Proof.
  intros Hd. unfold process_signal.
  eapply frame_bind; [intros; exact I | |].
  { eapply frame_weaken; [| | apply (resolve_extractor_frame w signal PNone)]; [intros; exact I | intros e [_ [_ E]]; exact E]. }
  intros [[id cls] p]. cbv beta iota.
  eapply frame_bind; [intros; exact I | |].
  { eapply frame_weaken; [| | apply (extract_frame w id cls p)];
      [intros; exact I | intros [] H; simpl in *; first [reflexivity | contradiction]]. }
  intro raw.
  eapply frame_bind; [intros; exact I | |].
  { eapply frame_weaken; [| | apply (resolve_transformer_frame w signal raw)]; [intros; exact I | intros e [_ [_ E]]; exact E]. }
  intro tcls.
  eapply frame_bind; [intros; exact I | |].
  { eapply frame_weaken; [| | apply (transform_step_frame w signal raw)]; [intros; exact I | intros e [_ [_ E]]; exact E]. }
  intro record.
  eapply frame_bind_post with (Q := fun ls => ls = []);
    [intros; exact I | intros; exact I | | |].
  { eapply frame_weaken; [| | apply (init_loaders_frame w signal raw)]; [intros; exact I | intros e [_ [_ E]]; exact E]. }
  { intros st ls E. rewrite init_loaders_dropped in E by exact Hd. congruence. }
  intros ls ->. cbn [run_loads]. frame_go.
Qed.

Lemma process_signal_dropped w signal sc st :
  well_behaved w signal sc ->
  Forall (loader_dropped w signal) (default default_loaders (sc_loaders sc)) ->
  fst (process_signal w signal sc st) = Ret true.
Proof.
  intros [[id [cls [p [Hres [Hi Hf]]]]] [tcls [Htr Ht]]] Hd.
  unfold process_signal.
  rewrite (bind_ret_step _ _ _ _ (Hres st)). cbn beta iota.
  match goal with |- context [bind (extract ?w ?id ?c ?p) ?k ?st] =>
    destruct (extract_ret w id c p st Hi Hf) as [raw Hx];
    rewrite (bind_ret_step _ k st raw Hx) end.
  match goal with |- context [bind (resolve_transformer ?w ?s ?sc) ?k ?st] =>
    rewrite (bind_ret_step _ k st tcls (Htr st)) end.
  destruct (Ht raw) as [d Hdd].
  match goal with |- context [bind (transform_step ?w ?s ?t ?r) ?k ?st] =>
    rewrite (bind_ret_step _ k st _ (transform_step_ret w s t r d st Hdd)) end.
  match goal with |- context [bind (init_loaders ?w ?s ?l) ?k ?st] =>
    rewrite (bind_ret_step _ k st [] (init_loaders_dropped w s l st Hd)) end.
  reflexivity.
Qed.

Lemma run_signal_found w cfg signal sc st b :
  signal_lookup signal (cfg_signals cfg) = Some sc ->
  fst (process_signal w signal sc
         (mkState [] (ELog Info (MsgSignalStart signal) :: ELog Info MsgPipelineStart :: trace st)))
    = Ret b ->
  fst (run_signal w cfg signal st) = Ret true.
Proof.
  intros Hl Hb. unfold run_signal.
  rewrite (bind_ret_step (log Info MsgPipelineStart) _ st tt eq_refl).
  rewrite (bind_ret_step clear_cache _ _ tt eq_refl). cbv beta.
  rewrite Hl.
  rewrite (bind_ret_step (log Info (MsgSignalStart signal)) _ _ tt eq_refl). cbv beta.
  match goal with |- context [bind (attempt ?m) ?k ?st1] =>
    assert (E : fst (attempt m st1) = Ret (Ret b))
      by (rewrite attempt_step; cbn [fst]; f_equal; exact Hb);
    rewrite (bind_ret_step _ k st1 _ E) end.
  reflexivity.
Qed.


(** ** Template references in strings *)

Section Templates.
Local Open Scope string_scope.

Lemma app_empty_r (s : string) : s ++ EmptyString = s.
Proof. induction s as [|c r IH]; simpl; [reflexivity | rewrite IH; reflexivity]. Qed.

Lemma str_app_assoc (x y z : string) : (x ++ y) ++ z = x ++ y ++ z.
Proof. induction x as [|c r IH]; simpl; [reflexivity | rewrite IH; reflexivity]. Qed.

Lemma no_char_app k x y : no_char k (x ++ y) = no_char k x && no_char k y.
Proof.
unfold no_char. induction x as [|c r IH]; simpl; [reflexivity|].
rewrite IH, andb_assoc. reflexivity.
Qed.

Lemma no_char_cons k c r : no_char k (String c r) = negb (is_char k c) && no_char k r.
Proof. reflexivity. Qed.

Lemma plain_no_char s :
plain s = true -> no_char 123 s = true /\ no_char 125 s = true /\ no_char 36 s = true.
Proof.
unfold plain, no_char. induction s as [|c r IH]; simpl; [auto|].
intros H. apply andb_prop in H as [H1 H2]. destruct (IH H2) as [A [B C]].
rewrite A, B, C.
destruct (is_char 123 c), (is_char 125 c), (is_char 36 c); simpl in *; auto; discriminate.
Qed.

Lemma name_not_space c : is_name_char c = true -> is_space c = false.
Proof.
destruct c as [[] [] [] [] [] [] [] []]; vm_compute; intros H;
  first [reflexivity | discriminate].
Qed.

Lemma name_no_char nm k :
forallb is_name_char (list_ascii_of_string nm) = true ->
is_name_char (ascii_of_N k) = false -> no_char k nm = true.
Proof.
unfold no_char. intros H Hk. induction nm as [|c r IH]; simpl in *; [reflexivity|].
apply andb_prop in H as [H1 H2]. rewrite (IH H2), andb_true_r.
destruct (is_char k c) eqn:E; [|reflexivity].
unfold is_char in E. apply N.eqb_eq in E. subst k.
rewrite ascii_N_embedding in Hk. congruence.
Qed.

Lemma take_name_app nm t :
forallb is_name_char (list_ascii_of_string nm) = true ->
match t with String c _ => is_name_char c = false | EmptyString => True end ->
take_name (nm ++ t) = (nm, String.length nm, t).
Proof.
intros H Ht. induction nm as [|c r IH]; simpl in *.
- destruct t as [|c r]; [reflexivity|]. simpl. rewrite Ht. reflexivity.
- apply andb_prop in H as [H1 H2]. rewrite H1, (IH H2). reflexivity.
Qed.

Lemma valid_name_split nm :
valid_name nm = true ->
exists c r, nm = String c r /\ is_name_char c = true /\
            forallb is_name_char (list_ascii_of_string nm) = true.
Proof.
unfold valid_name. intros H. apply andb_prop in H as [H1 H2].
destruct nm as [|c r]; [discriminate|]. exists c, r. split; [reflexivity|].
simpl in H2. apply andb_prop in H2 as [H2 H3]. split; [exact H2|]. simpl. rewrite H2, H3. reflexivity.
Qed.

(** [re.findall] passes over text where no match can start. *)
Lemma findall_skip_prefix (m : string -> option (string * nat)) k x y :
(forall c r, is_char k c = false -> m (String c r) = None) ->
no_char k x = true -> findall_from m 0 (x ++ y) = findall_from m 0 y.
Proof.
intros Hm. induction x as [|c r IH]; intros Hx; [reflexivity|].
rewrite no_char_cons in Hx. apply andb_prop in Hx as [H1 H2].
simpl. rewrite Hm by (destruct (is_char k c); [discriminate | reflexivity]).
apply IH. exact H2.
Qed.

Lemma findall_skip_exact (m : string -> option (string * nat)) x y :
findall_from m (String.length x) (x ++ y) = findall_from m 0 y.
Proof. induction x as [|c r IH]; [reflexivity | exact IH]. Qed.

Lemma findall_step_none (m : string -> option (string * nat)) c r :
m (String c r) = None -> findall_from m 0 (String c r) = findall_from m 0 r.
Proof. intros H. simpl. rewrite H. reflexivity. Qed.

Lemma findall_step_some (m : string -> option (string * nat)) c r nm len :
m (String c r) = Some (nm, len) ->
findall_from m 0 (String c r) = nm :: findall_from m (len - 1) r.
Proof. intros H. simpl. rewrite H. reflexivity. Qed.

Lemma match_brace_head c r : is_char 123 c = false -> match_brace (String c r) = None.
Proof. intros H. destruct r; simpl; [reflexivity | rewrite H; reflexivity]. Qed.

Lemma match_dollar_head c r : is_char 36 c = false -> match_dollar (String c r) = None.
Proof. intros H. destruct r; simpl; [reflexivity | rewrite H; reflexivity]. Qed.

Lemma findall_none (m : string -> option (string * nat)) k s :
(forall c r, is_char k c = false -> m (String c r) = None) ->
no_char k s = true -> findall_from m 0 s = [].
Proof.
intros Hm Hs. rewrite <- (app_empty_r s). rewrite (findall_skip_prefix m k s); auto.
Qed.

Lemma skip_spaces_name c r t :
is_name_char c = true -> skip_spaces (String c r ++ t) = (0%nat, String c r ++ t).
Proof. intros H. simpl. rewrite (name_not_space c H). reflexivity. Qed.

Lemma match_brace_ref nm post : valid_name nm = true ->
match_brace ("{{" ++ nm ++ "}}" ++ post) = Some (nm, 2 + 0 + String.length nm + 0 + 2)%nat.
Proof.
intros Hnm. destruct (valid_name_split nm Hnm) as [c [r [Enm [Hc Hall]]]].
simpl. rewrite Enm at 1. rewrite (skip_spaces_name c r _ Hc). rewrite <- Enm.
rewrite (take_name_app nm _ Hall) by reflexivity.
rewrite Enm. simpl. reflexivity.
Qed.

Lemma match_dollar_ref nm post : valid_name nm = true ->
match_dollar ("${" ++ nm ++ "}" ++ post) = Some (nm, 2 + String.length nm + 1)%nat.
Proof.
intros Hnm. destruct (valid_name_split nm Hnm) as [c [r [Enm [Hc Hall]]]].
simpl. rewrite (take_name_app nm _ Hall) by reflexivity.
rewrite Enm. simpl. reflexivity.
Qed.

Lemma prefix_app x y : String.prefix x (x ++ y) = true.
Proof.
induction x as [|c r IH]; simpl; [destruct y; reflexivity|].
destruct (ascii_dec c c) as [_|n]; [exact IH | contradiction].
Qed.

Lemma prefix_other c0 rest c r :
is_char (N_of_ascii c0) c = false -> String.prefix (String c0 rest) (String c r) = false.
Proof.
intros H. simpl. destruct (ascii_dec c0 c) as [<-|]; [|reflexivity].
unfold is_char in H. rewrite N.eqb_refl in H. discriminate.
Qed.

Lemma prefix_cons_same a x y : String.prefix (String a x) (String a y) = String.prefix x y.
Proof. simpl. destruct (ascii_dec a a); [reflexivity | contradiction]. Qed.

Lemma replace_skip_exact old new x y :
replace_from old new (String.length x) (x ++ y) = replace_from old new 0 y.
Proof. induction x as [|c r IH]; [reflexivity | exact IH]. Qed.

Lemma replace_skip_prefix c0 rest new x y :
no_char (N_of_ascii c0) x = true ->
replace_from (String c0 rest) new 0 (x ++ y) = x ++ replace_from (String c0 rest) new 0 y.
Proof.
induction x as [|c r IH]; intros Hx; [reflexivity|].
rewrite no_char_cons in Hx. apply andb_prop in Hx as [H1 H2].
change (String c r ++ y) with (String c (r ++ y)).
cbn [replace_from]. rewrite prefix_other by (destruct (is_char (N_of_ascii c0) c); [discriminate | reflexivity]).
rewrite IH by exact H2. reflexivity.
Qed.

Lemma replace_none c0 rest new s :
no_char (N_of_ascii c0) s = true -> replace_from (String c0 rest) new 0 s = s.
Proof.
intros H. rewrite <- (app_empty_r s). rewrite replace_skip_prefix by exact H. reflexivity.
Qed.

Lemma replace_hit old new y :
old <> EmptyString -> replace_from old new 0 (old ++ y) = new ++ replace_from old new 0 y.
Proof.
intros H. destruct old as [|c r]; [contradiction|].
change (String c r ++ y) with (String c (r ++ y)). cbn [replace_from].
change (String c (r ++ y)) with (String c r ++ y). rewrite prefix_app.
change (String.length (String c r) - 1)%nat with (S (String.length r) - 1)%nat.
rewrite Nat.sub_succ, Nat.sub_0_r, replace_skip_exact. reflexivity.
Qed.

Lemma replace_nomatch_cons old new c r :
String.prefix old (String c r) = false ->
replace_from old new 0 (String c r) = String c (replace_from old new 0 r).
Proof. intros H. cbn [replace_from]. rewrite H. reflexivity. Qed.

Lemma str_length_app x y : String.length (x ++ y) = (String.length x + String.length y)%nat.
Proof. induction x as [|c r IH]; simpl; [reflexivity | rewrite IH; reflexivity]. Qed.

Lemma name_char_ne k c :
is_name_char c = true -> is_name_char (ascii_of_N k) = false -> is_char k c = false.
Proof.
intros H Hk. destruct (is_char k c) eqn:E; [|reflexivity].
unfold is_char in E. apply N.eqb_eq in E. subst k.
rewrite ascii_N_embedding in Hk. congruence.
Qed.

Lemma expand_dollars_plain env s : no_char 36 s = true -> expand_dollars env s = s.
Proof.
intros H. unfold expand_dollars, findall.
rewrite (findall_none match_dollar 36 s) by (auto using match_dollar_head). reflexivity.
Qed.

Lemma brace_findall pre nm post :
plain pre = true -> plain post = true -> valid_name nm = true ->
findall match_brace (pre ++ "{{" ++ nm ++ "}}" ++ post) = [nm].
Proof.
intros Hpre Hpost Hnm.
destruct (plain_no_char _ Hpre) as [P1 _]. destruct (plain_no_char _ Hpost) as [Q1 _].
unfold findall. rewrite (findall_skip_prefix match_brace 123 pre) by (auto using match_brace_head).
change ("{{" ++ nm ++ "}}" ++ post) with (String "{" ("{" ++ nm ++ "}}" ++ post)).
rewrite (findall_step_some match_brace "{" ("{" ++ nm ++ "}}" ++ post) nm _ (match_brace_ref nm post Hnm)).
replace (2 + 0 + String.length nm + 0 + 2 - 1)%nat with (String.length ("{" ++ nm ++ "}}"))
  by (rewrite !str_length_app; simpl; lia).
replace ("{" ++ nm ++ "}}" ++ post) with (("{" ++ nm ++ "}}") ++ post)
  by (rewrite !str_app_assoc; reflexivity).
rewrite findall_skip_exact. rewrite (findall_none match_brace 123 post) by (auto using match_brace_head).
reflexivity.
Qed.

Lemma process_brace_set env pre nm post v :
plain pre = true -> plain post = true -> valid_name nm = true ->
env nm = Some v -> v <> EmptyString -> plain v = true ->
process_string env (pre ++ "{{" ++ nm ++ "}}" ++ post) = pre ++ v ++ post.
Proof.
intros Hpre Hpost Hnm Hv Hne Hpv.
destruct (plain_no_char _ Hpre) as [P1 [P2 P3]].
destruct (plain_no_char _ Hpost) as [Q1 [Q2 Q3]].
destruct (plain_no_char _ Hpv) as [V1 [V2 V3]].
destruct (valid_name_split nm Hnm) as [c [r [Enm [Hc Hall]]]].
assert (N1 : no_char 123 nm = true) by (apply name_no_char; [exact Hall | reflexivity]).
assert (Hsp : is_char 32 c = false) by (apply name_char_ne; [exact Hc | reflexivity]).
unfold process_string, expand_braces. rewrite brace_findall by assumption.
cbn [fold_left]. rewrite Hv.
destruct (String.eqb_spec v EmptyString) as [E|_]; [contradiction|].
unfold str_replace.
change (lbrace ++ " " ++ nm ++ " " ++ rbrace) with (String "{" (" " ++ nm ++ " " ++ rbrace)).
rewrite replace_skip_prefix by exact P1.
change ("{{" ++ nm ++ "}}" ++ post) with (String "{" (String "{" (nm ++ "}}" ++ post))).
rewrite replace_nomatch_cons by reflexivity.
rewrite replace_nomatch_cons
  by (rewrite Enm, prefix_cons_same; apply prefix_other; exact Hsp).
rewrite replace_none
  by (change (N_of_ascii "{") with 123%N; rewrite !no_char_app, N1, Q1; reflexivity).
change (lbrace ++ lbrace ++ nm ++ rbrace ++ rbrace) with (String "{" ("{" ++ nm ++ "}}")).
rewrite replace_skip_prefix by exact P1.
replace (String "{" (String "{" (nm ++ "}}" ++ post)))
  with (String "{" ("{" ++ nm ++ "}}") ++ post) by (simpl; rewrite str_app_assoc; reflexivity).
rewrite replace_hit by discriminate.
rewrite replace_none by exact Q1.
apply expand_dollars_plain. rewrite !no_char_app, P3, V3, Q3. reflexivity.
Qed.

Lemma process_brace_unset env pre nm post :
plain pre = true -> plain post = true -> valid_name nm = true ->
env nm = None \/ env nm = Some EmptyString ->
process_string env (pre ++ "{{" ++ nm ++ "}}" ++ post) = pre ++ "{{" ++ nm ++ "}}" ++ post.
Proof.
intros Hpre Hpost Hnm Henv.
destruct (plain_no_char _ Hpre) as [_ [_ P3]].
destruct (plain_no_char _ Hpost) as [_ [_ Q3]].
destruct (valid_name_split nm Hnm) as [c [r [Enm [Hc Hall]]]].
assert (N3 : no_char 36 nm = true) by (apply name_no_char; [exact Hall | reflexivity]).
unfold process_string, expand_braces. rewrite brace_findall by assumption.
cbn [fold_left]. destruct Henv as [-> | ->]; cbn -[append];
  apply expand_dollars_plain; rewrite !no_char_app, P3, N3, Q3; reflexivity.
Qed.

Lemma match_brace_second c1 c2 r : is_char 123 c2 = false -> match_brace (String c1 (String c2 r)) = None.
Proof. intros H. simpl. rewrite H, andb_false_r. reflexivity. Qed.

Lemma dollar_findalls pre nm post :
plain pre = true -> plain post = true -> valid_name nm = true ->
findall match_brace (pre ++ "${" ++ nm ++ "}" ++ post) = [] /\
findall match_dollar (pre ++ "${" ++ nm ++ "}" ++ post) = [nm].
Proof.
intros Hpre Hpost Hnm.
destruct (plain_no_char _ Hpre) as [P1 [_ P3]].
destruct (plain_no_char _ Hpost) as [Q1 [_ Q3]].
destruct (valid_name_split nm Hnm) as [c [r [Enm [Hc Hall]]]].
assert (N1 : no_char 123 nm = true) by (apply name_no_char; [exact Hall | reflexivity]).
unfold findall. change ("${" ++ nm ++ "}" ++ post) with (String "$" ("{" ++ nm ++ "}" ++ post)).
split.
- rewrite (findall_skip_prefix match_brace 123 pre) by (auto using match_brace_head).
  rewrite findall_step_none by (apply match_brace_head; reflexivity).
  change ("{" ++ nm ++ "}" ++ post) with (String "{" (nm ++ "}" ++ post)).
  rewrite findall_step_none
    by (rewrite Enm; apply match_brace_second; apply name_char_ne; [exact Hc | reflexivity]).
  apply (findall_none match_brace 123); [auto using match_brace_head|].
  rewrite !no_char_app, N1, Q1. reflexivity.
- rewrite (findall_skip_prefix match_dollar 36 pre) by (auto using match_dollar_head).
  rewrite (findall_step_some match_dollar "$" ("{" ++ nm ++ "}" ++ post) nm _ (match_dollar_ref nm post Hnm)).
  replace (2 + String.length nm + 1 - 1)%nat with (String.length ("{" ++ nm ++ "}"))
    by (rewrite !str_length_app; simpl; lia).
  replace ("{" ++ nm ++ "}" ++ post) with (("{" ++ nm ++ "}") ++ post)
    by (rewrite !str_app_assoc; reflexivity).
  rewrite findall_skip_exact. rewrite (findall_none match_dollar 36 post) by (auto using match_dollar_head).
  reflexivity.
Qed.

Lemma process_dollar env pre nm post :
plain pre = true -> plain post = true -> valid_name nm = true ->
process_string env (pre ++ "${" ++ nm ++ "}" ++ post)
= match env nm with
  | Some v => if String.eqb v EmptyString then pre ++ "${" ++ nm ++ "}" ++ post
              else pre ++ v ++ post
  | None => pre ++ "${" ++ nm ++ "}" ++ post
  end.
Proof.
intros Hpre Hpost Hnm.
destruct (plain_no_char _ Hpre) as [_ [_ P3]].
destruct (plain_no_char _ Hpost) as [_ [_ Q3]].
destruct (dollar_findalls pre nm post Hpre Hpost Hnm) as [F1 F2].
unfold process_string, expand_braces. rewrite F1. cbn [fold_left].
unfold expand_dollars. rewrite F2. cbn [fold_left].
destruct (env nm) as [v|]; [|reflexivity].
destruct (String.eqb v EmptyString); [reflexivity|].
unfold str_replace.
change ("$" ++ lbrace ++ nm ++ rbrace) with (String "$" ("{" ++ nm ++ "}")).
rewrite replace_skip_prefix by exact P3.
replace ("${" ++ nm ++ "}" ++ post) with (String "$" ("{" ++ nm ++ "}") ++ post)
  by (simpl; rewrite str_app_assoc; reflexivity).
rewrite replace_hit by discriminate.
rewrite replace_none by exact Q3.
reflexivity.
Qed.

End Templates.

(** ** The extractor cache across two signals *)

Lemma hkey_eqb_refl h : hkey_eqb h h = true.
Proof.
  revert h. refine (fix IH (h : hkey) {struct h} : hkey_eqb h h = true := _).
  destruct h as [| b | z | s | r | hs]; simpl.
  - reflexivity.
  - apply Z.eqb_refl.
  - apply Z.eqb_refl.
  - apply String.eqb_refl.
  - apply String.eqb_refl.
  - induction hs as [|x r IHr]; [reflexivity|]. rewrite (IH x). exact IHr.
Qed.

Lemma cache_store_new key v c :
  cache_lookup key c = None -> cache_store key v c = c ++ [(key, v)].
Proof.
  induction c as [|[k w] r IH]; simpl; [reflexivity|].
  destruct (hkey_eqb k key); [discriminate|]. intro H. rewrite (IH H). reflexivity.
Qed.

Lemma cache_lookup_app key c d :
  cache_lookup key (c ++ d) =
    match cache_lookup key c with Some v => Some v | None => cache_lookup key d end.
Proof.
  induction c as [|[k w] r IH]; simpl; [reflexivity|].
  destruct (hkey_eqb k key); [reflexivity | exact IH].
Qed.

Lemma cache_lookup_store_miss key v c :
  cache_lookup key c = None -> cache_lookup key (cache_store key v c) = Some v.
Proof.
  intro H. rewrite (cache_store_new key v c H), cache_lookup_app, H. simpl.
  rewrite hkey_eqb_refl. reflexivity.
Qed.

Lemma count_fetches_app a b : count_fetches (a ++ b) = count_fetches a + count_fetches b.
Proof. unfold count_fetches. rewrite filter_app, length_app. reflexivity. Qed.

Lemma count_fetches_quiet evs : Forall quiet evs -> count_fetches evs = 0.
Proof.
  induction 1 as [|e r He _ IH]; [reflexivity|].
  destruct e; simpl in He |- *; try contradiction; exact IH.
Qed.

(** The steps of [process_signal] after the extraction. *)
Lemma process_signal_decomp w s sc id cls p raw st :
  resolves w s sc id cls p ->
  exists evs1, Forall (fun e => quiet e /\ fed raw e) evs1 /\
    process_signal w s sc st =
    bind (extract w id cls p) (fun raw =>
      tcls <- resolve_transformer w s sc ;;
      record <- transform_step w s tcls raw ;;
      loaders <- init_loaders w s (default default_loaders (sc_loaders sc)) ;;
      ok <- run_loads w s record loaders true ;;
      (if ok then log Info (MsgEtlSuccess s) else log Warning (MsgNotFullyLoaded s)) ;;;
      ret ok) (mkState (extractor_cache st) (evs1 ++ trace st)).
Proof.
  intro Hr. destruct (resolve_extractor_frame w s raw sc st) as [Hc [evs1 [Ht Hq]]].
  exists evs1. split; [eapply Forall_impl; [|exact Hq]; simpl; tauto|].
  unfold process_signal. rewrite (bind_ret_step _ _ st _ (Hr st)).
  rewrite Hc, <- Ht. destruct (snd (resolve_extractor w s sc st)). reflexivity.
Qed.

Lemma eq_trans3 (a b c : list (hkey * pyval)) : a = b -> b = c -> a = c.
Proof. congruence. Qed.

Lemma process_tail_frame w s sc raw :
  frame eq (fun e => quiet e /\ fed raw e)
    (tcls <- resolve_transformer w s sc ;;
     record <- transform_step w s tcls raw ;;
     loaders <- init_loaders w s (default default_loaders (sc_loaders sc)) ;;
     ok <- run_loads w s record loaders true ;;
     (if ok then log Info (MsgEtlSuccess s) else log Warning (MsgNotFullyLoaded s)) ;;;
     ret ok).
Proof.
  assert (W : forall {A} (m : M A),
             frame eq (fun e => quiet e /\ fed raw e /\ is_load e = false) m ->
             frame eq (fun e => quiet e /\ fed raw e) m).
  { intros A m. apply frame_weaken; [auto | tauto]. }
  eapply frame_bind; [apply eq_trans3 | apply W, resolve_transformer_frame |]. intro tcls.
  eapply frame_bind; [apply eq_trans3 | apply W, transform_step_frame |]. intro record.
  eapply frame_bind; [apply eq_trans3 | apply W, init_loaders_frame |]. intro loaders.
  eapply frame_bind; [apply eq_trans3 | |].
  { eapply frame_weaken; [| | apply (run_loads_frame w s raw)]; [auto | intros e [H1 [H2 _]]; split; assumption]. }
  intro ok. frame_go; simpl; auto.
Qed.

Lemma fed_quiet_count raw evs :
  Forall (fun e => quiet e /\ fed raw e) evs -> Forall (fed raw) evs /\ count_fetches evs = 0.
Proof.
  intro H. split; [eapply Forall_impl; [|exact H]; intros e [H1 H2]; exact H2|].
  apply count_fetches_quiet. eapply Forall_impl; [|exact H]; intros e [H1 H2]; exact H1.
Qed.

(** One [process_signal] whose extractor key is absent from the cache or
    maps to [raw]: it fetches once or not at all, and leaves [raw] under
    the key. *)
Lemma process_signal_fetch w s sc id cls p hk raw st :
  resolves w s sc id cls p -> _make_hashable_key (PDict p) = Some hk ->
  (cache_lookup (cache_key id hk) (extractor_cache st) = None /\
   w_extractor_init w cls (PDict p) = None /\ w_fetch w cls (PDict p) = inr raw) \/
  cache_lookup (cache_key id hk) (extractor_cache st) = Some raw ->
  exists evs, trace (snd (process_signal w s sc st)) = evs ++ trace st /\
    Forall (fed raw) evs /\
    count_fetches evs =
      match cache_lookup (cache_key id hk) (extractor_cache st) with
      | None => 1 | Some _ => 0 end /\
    cache_lookup (cache_key id hk) (extractor_cache (snd (process_signal w s sc st))) = Some raw.
Proof.
  intros Hr Hk Hpre.
  destruct (process_signal_decomp w s sc id cls p raw st Hr) as [evs1 [Hq1 E]].
  rewrite E. clear E.
  destruct (fed_quiet_count raw evs1 Hq1) as [Hfed1 Hc1].
  set (st1 := mkState (extractor_cache st) (evs1 ++ trace st)).
  destruct Hpre as [[Hn [Hi Hf]] | Hs].
  - assert (Hn1 : cache_lookup (cache_key id hk) (extractor_cache st1) = None) by exact Hn.
    pose proof (extract_miss w id cls p hk raw st1 Hk Hn1 Hi Hf) as Ex.
    rewrite (bind_ret_step _ _ st1 raw) by (rewrite Ex; reflexivity).
    rewrite Ex. cbv beta. cbn [snd].
    match goal with |- context [?m (mkState ?c ?t)] =>
      destruct (process_tail_frame w s sc raw (mkState c t)) as [Hc2 [evs2 [Ht2 Hq2]]] end.
    destruct (fed_quiet_count raw evs2 Hq2) as [Hfed2 Hc2'].
    exists (evs2 ++ [ELog Info MsgFetched; EFetch cls (PDict p);
                     EConstructExtractor cls (PDict p); ELog Info MsgCacheMiss] ++ evs1).
    rewrite Hn. split; [|split; [|split]].
    + subst st1. cbn [extractor_cache trace] in *. rewrite Ht2. simpl. rewrite <- !app_assoc. reflexivity.
    + apply Forall_app; split; [exact Hfed2|].
      apply Forall_app; split; [repeat constructor | exact Hfed1].
    + rewrite !count_fetches_app, Hc2', Hc1. reflexivity.
    + rewrite <- Hc2. simpl. apply cache_lookup_store_miss. exact Hn.
  - assert (Hs1 : cache_lookup (cache_key id hk) (extractor_cache st1) = Some raw) by exact Hs.
    pose proof (extract_hit w id cls p hk raw st1 Hk Hs1) as Ex.
    rewrite (bind_ret_step _ _ st1 raw) by (rewrite Ex; reflexivity).
    rewrite Ex. cbv beta. cbn [snd].
    match goal with |- context [?m (mkState ?c ?t)] =>
      destruct (process_tail_frame w s sc raw (mkState c t)) as [Hc2 [evs2 [Ht2 Hq2]]] end.
    destruct (fed_quiet_count raw evs2 Hq2) as [Hfed2 Hc2'].
    exists (evs2 ++ [ELog Info MsgCacheHit] ++ evs1).
    rewrite Hs. split; [|split; [|split]].
    + subst st1. cbn [extractor_cache trace] in *. rewrite Ht2. simpl. rewrite <- !app_assoc. reflexivity.
    + apply Forall_app; split; [exact Hfed2|].
      apply Forall_app; split; [repeat constructor | exact Hfed1].
    + rewrite !count_fetches_app, Hc2', Hc1. reflexivity.
    + rewrite <- Hc2. exact Hs.
Qed.

Lemma run_one_fetch w s sc id cls p hk raw st :
  resolves w s sc id cls p -> _make_hashable_key (PDict p) = Some hk ->
  (cache_lookup (cache_key id hk) (extractor_cache st) = None /\
   w_extractor_init w cls (PDict p) = None /\ w_fetch w cls (PDict p) = inr raw) \/
  cache_lookup (cache_key id hk) (extractor_cache st) = Some raw ->
  exists evs, trace (snd (run_one w (s, sc) st)) = evs ++ trace st /\
    Forall (fed raw) evs /\
    count_fetches evs =
      match cache_lookup (cache_key id hk) (extractor_cache st) with
      | None => 1 | Some _ => 0 end /\
    cache_lookup (cache_key id hk) (extractor_cache (snd (run_one w (s, sc) st))) = Some raw.
Proof.
  intros Hr Hk Hpre. unfold run_one.
  rewrite (bind_ret_step (log Info (MsgSignalStart s)) _ st tt eq_refl).
  set (st' := snd (log Info (MsgSignalStart s) st)).
  rewrite (bind_ret_step _ _ st' (fst (process_signal w s sc st')))
    by (rewrite attempt_step; reflexivity).
  rewrite attempt_step. cbn [snd].
  destruct (process_signal_fetch w s sc id cls p hk raw st' Hr Hk Hpre)
    as [evs [Ht [Hfd [Hc Hl]]]].
  destruct (process_signal w s sc st') as [o st2]. cbn [fst snd] in *.
  assert (Hst : trace st' = ELog Info (MsgSignalStart s) :: trace st) by reflexivity.
  assert (Hfx : forall x, Forall (fed raw) x -> Forall (fed raw) (x ++ [ELog Info (MsgSignalStart s)]))
    by (intros x Hx; apply Forall_app; split; [exact Hx | repeat constructor]).
  assert (Hcx : forall x, count_fetches (x ++ [ELog Info (MsgSignalStart s)]) = count_fetches x)
    by (intro x; rewrite count_fetches_app, (count_fetches_quiet [ELog Info (MsgSignalStart s)]) by (repeat constructor); lia).
  destruct o as [[|]|e|]; unfold ret, log, emit, bind, throw; cbn [fst snd extractor_cache trace].
  1-2, 4:
    exists (evs ++ [ELog Info (MsgSignalStart s)]);
    rewrite Ht, Hst, <- app_assoc; split; [reflexivity|];
    split; [apply Hfx; exact Hfd | split; [rewrite Hcx; exact Hc | exact Hl]].
  exists (ELog Error (MsgEtlFailure s e) :: evs ++ [ELog Info (MsgSignalStart s)]).
  rewrite Ht, Hst. split; [simpl; rewrite <- app_assoc; reflexivity|].
  split; [constructor; [exact I | apply Hfx; exact Hfd] | split; [|exact Hl]].
  change (count_fetches (ELog Error (MsgEtlFailure s e) :: evs ++ [ELog Info (MsgSignalStart s)])) with (count_fetches (evs ++ [ELog Info (MsgSignalStart s)])).
  rewrite Hcx. exact Hc.
Qed.

Lemma run_one_ret w n sc st : exists s, fst (run_one w (n, sc) st) = Ret s.
Proof.
  rewrite run_one_eq. destruct (process_signal w n sc _) as [[[|]|e|] st2]; eexists; reflexivity.
Qed.

(** ** Secrets, dicts, the cache, templates, loaders and runs *)

Lemma str_dict_get_set d k v : str_dict_get (str_dict_set d k v) k = Some v.
Proof.
  induction d as [|[k' w] r IH]; simpl.
  - rewrite String.eqb_refl. reflexivity.
  - destruct (String.eqb_spec k' k); simpl.
    + subst. rewrite String.eqb_refl. reflexivity.
    + destruct (String.eqb_spec k' k); [contradiction | exact IH].
Qed.

Lemma str_dict_get_set_other d k v k' :
  k <> k' -> str_dict_get (str_dict_set d k v) k' = str_dict_get d k'.
Proof.
  intro Hne. induction d as [|[k0 w] r IH]; simpl.
  - destruct (String.eqb_spec k k'); [contradiction | reflexivity].
  - destruct (String.eqb_spec k0 k); simpl.
    + subst. destruct (String.eqb_spec k k'); [contradiction | reflexivity].
    + destruct (String.eqb k0 k'); [reflexivity | exact IH].
Qed.

Lemma get_secrets_into_ok w names secrets st :
  Forall (fun n => exists v, w_env w n = Some v /\ v <> EmptyString) names ->
  exists d, get_secrets_into w names secrets st = (Ret d, st) /\
    (forall n, In n names -> str_dict_get d n = w_env w n) /\
    (forall n, ~ In n names -> str_dict_get d n = str_dict_get secrets n).
Proof.
  revert secrets. induction names as [|n r IH]; intros secrets Hall.
  - exists secrets. split; [reflexivity|]. split; [intros n []|auto].
  - inversion Hall as [|? ? [v [Hv Hne]] Hr]; subst.
    simpl. rewrite Hv. destruct (String.eqb_spec v EmptyString); [contradiction|].
    destruct (IH (str_dict_set secrets n v) Hr) as [d [Hd [H1 H2]]].
    exists d. split; [exact Hd|]. split.
    + intros n' [<- | Hin].
      * destruct (in_dec string_dec n r) as [Hin | Hnin]; [apply H1; exact Hin|].
        rewrite (H2 n Hnin), str_dict_get_set. symmetry. exact Hv.
      * apply H1. exact Hin.
    + intros n' Hnin. rewrite H2 by (intro; apply Hnin; right; assumption).
      apply str_dict_get_set_other. intro E. apply Hnin. left. exact E.
Qed.

Lemma key_eqb_trans a b c : key_eqb a b = true -> key_eqb a c = key_eqb b c.
Proof.
  destruct a, b, c; simpl; intro H; try discriminate; try reflexivity;
  repeat match goal with
         | H : String.eqb _ _ = true |- _ => apply String.eqb_eq in H; subst
         | H : Z.eqb _ _ = true |- _ => apply Z.eqb_eq in H; rewrite H
         end; reflexivity.
Qed.

Lemma py_dict_get_set_other d k v k' :
  key_eqb k k' = false -> py_dict_get (py_dict_set d k v) k' = py_dict_get d k'.
Proof.
  intro Hk. induction d as [|[k0 w] r IH]; simpl.
  - rewrite Hk. reflexivity.
  - destruct (key_eqb k0 k) eqn:E; simpl.
    + rewrite (key_eqb_trans _ _ k' E), Hk. reflexivity.
    + destruct (key_eqb k0 k'); [reflexivity | exact IH].
Qed.

Lemma key_eqb_str_neq s t : s <> t -> key_eqb (KStr s) (KStr t) = false.
Proof. intro H. simpl. apply String.eqb_neq. exact H. Qed.

Lemma apply_secret_mapping_loop signal secrets mapping params st :
  exists p,
    apply_secret_mapping signal secrets mapping params st =
      (Ret p, mkState (extractor_cache st)
                (rev (map (fun sn => ELog Warning (MsgSecretNotFound sn signal))
                          (filter (secret_missing secrets) (map snd mapping)))
                 ++ trace st)) /\
    (NoDup (map fst mapping) ->
     forall pn sn, In (pn, sn) mapping ->
       py_dict_get p (KStr pn) =
         match str_dict_get secrets sn with
         | Some v => Some (PStr v)
         | None => py_dict_get params (KStr pn)
         end) /\
    (forall k, Forall (fun pm => key_eqb (KStr (fst pm)) k = false) mapping ->
       py_dict_get p k = py_dict_get params k).
Proof.
  revert params st. induction mapping as [|[pn sn] r IH]; intros params st.
  - exists params. destruct st. split; [reflexivity|]. split; [intros _ ? ? []|auto].
  - simpl. unfold secret_missing at 1.
    destruct (str_dict_get secrets sn) as [v|] eqn:Ev.
    + destruct (IH (py_dict_set params (KStr pn) (PStr v)) st) as [p [Hp [H2 H3]]].
      exists p. split; [exact Hp|]. split.
      * intros Hnd pn' sn' Hin. inversion Hnd as [|? ? Hnin Hnd']; subst.
        destruct Hin as [E | Hin].
        -- injection E as <- <-. rewrite Ev, H3.
           ++ apply py_dict_get_set.
           ++ rewrite Forall_forall. intros [a b] Hab. apply key_eqb_str_neq.
              intro E. apply Hnin. subst. exact (in_map fst r (a, b) Hab).
        -- rewrite (H2 Hnd' pn' sn' Hin).
           destruct (str_dict_get secrets sn'); [reflexivity|].
           apply py_dict_get_set_other, key_eqb_str_neq.
           intro E. apply Hnin. subst. exact (in_map fst r (pn', sn') Hin).
      * intros k Hk. inversion Hk; subst. rewrite H3 by assumption.
        apply py_dict_get_set_other. assumption.
    + destruct (IH params (mkState (extractor_cache st)
                 (ELog Warning (MsgSecretNotFound sn signal) :: trace st))) as [p [Hp [H2 H3]]].
      exists p. split.
      * unfold bind, log, emit. rewrite Hp. simpl. rewrite <- app_assoc. reflexivity.
      * split.
        -- intros Hnd pn' sn' Hin. inversion Hnd as [|? ? Hnin Hnd']; subst.
           destruct Hin as [E | Hin].
           ++ injection E as <- <-. rewrite Ev. apply H3.
              rewrite Forall_forall. intros [a b] Hab. apply key_eqb_str_neq.
              intro E. apply Hnin. subst. exact (in_map fst r (a, b) Hab).
           ++ exact (H2 Hnd' pn' sn' Hin).
        -- intros k Hk. inversion Hk; subst. apply H3. assumption.
Qed.



Lemma cache_lookup_store key v c : cache_lookup key (cache_store key v c) = Some v.
Proof.
  induction c as [|[k w] r IH]; simpl.
  - rewrite hkey_eqb_refl. reflexivity.
  - destruct (hkey_eqb k key) eqn:E; simpl; rewrite E; [reflexivity | exact IH].
Qed.


Lemma traverse_some {A B} (f : A -> option B) l :
  (forall x, In x l -> f x <> None) -> exists r, traverse_opt f l = Some r.
Proof.
  intros H. destruct (traverse_opt f l) as [r|] eqn:E; eauto.
  destruct (traverse_none_in f l E) as [x [Hx Hf]]. exfalso. exact (H x Hx Hf).
Qed.

Lemma fold_left_id {A B} (f : A -> B -> A) l a :
  (forall r x, f r x = r) -> fold_left f l a = a.
Proof. intros H. revert a. induction l as [|x r IH]; intros a; simpl; [reflexivity|]. rewrite H. apply IH. Qed.

Lemma process_string_unset env s :
  (forall n, env n = None \/ env n = Some EmptyString) -> process_string env s = s.
Proof.
  intros H. unfold process_string, expand_dollars, expand_braces.
  rewrite fold_left_id; [rewrite fold_left_id; [reflexivity|]|].
  - intros r x. destruct (H x) as [-> | ->]; reflexivity.
  - intros r x. destruct (H x) as [-> | ->]; reflexivity.
Qed.

Lemma process_string_free env s : template_free s = true -> process_string env s = s.
Proof.
  unfold template_free. intros H. apply andb_prop in H as [H1 H2].
  unfold process_string, expand_braces, findall.
  rewrite (findall_none match_brace 123 s match_brace_head H1). simpl.
  unfold expand_dollars, findall.
  rewrite (findall_none match_dollar 36 s match_dollar_head H2). reflexivity.
Qed.

Lemma process_env_vars_id env (p : string -> bool) v :
  (forall s, p s = true -> process_string env s = s) ->
  all_strings p v = true -> _process_env_vars env v = v.
Proof.
  intros Hp. induction v as [| b | z | s | xs IH | kvs IH | r] using pyval_ind2;
    simpl; intros Hv; try reflexivity.
  - rewrite (Hp s Hv). reflexivity.
  - f_equal. rewrite forallb_forall in Hv.
    induction IH as [|x xs Hx _ IHxs]; simpl in *; [reflexivity|].
    rewrite Hx by auto. f_equal. apply IHxs. auto.
  - f_equal. rewrite forallb_forall in Hv.
    induction IH as [|[k x] kvs Hx _ IHkvs]; simpl in *; [reflexivity|].
    rewrite Hx by (apply (Hv (k, x)); auto). f_equal. apply IHkvs. auto.
Qed.

Lemma run_all_names w sigs st :
  exists sts evs, fst (run_all w sigs st) = Ret sts /\ map fst sts = map fst sigs /\
    trace (snd (run_all w sigs st)) = evs ++ trace st.
Proof.
  revert st. induction sigs as [|[n sc] r IH]; intros st.
  - exists [], []. split; [reflexivity | split; reflexivity].
  - destruct (run_one_ret w n sc st) as [s Hs].
    destruct (run_one_frame w n sc st) as [_ [evs1 [Ht1 _]]].
    destruct (IH (snd (run_one w (n, sc) st))) as [sts [evs2 [H1 [H2 H3]]]].
    exists ((n, s) :: sts), (evs2 ++ evs1).
    cbn [run_all]. rewrite (bind_ret_step _ _ st s Hs).
    rewrite (bind_ret_step _ _ _ sts H1). unfold ret. cbn [fst snd].
    split; [reflexivity|]. split; [simpl; f_equal; exact H2|].
    rewrite H3, Ht1, app_assoc. reflexivity.
Qed.

Lemma run_ret w cfg st : exists sts, fst (run w cfg st) = Ret sts.
Proof.
  destruct (run_all_names w (cfg_signals cfg) (mkState [] (ELog Info MsgPipelineStart :: trace st)))
    as [sts [evs [H1 _]]].
  exists sts. unfold run, clear_cache. unfold bind at 1 2, log at 1, emit at 1, put_cache at 1.
  rewrite (bind_ret_step _ _ _ sts H1). reflexivity.
Qed.

Lemma run_signal_eq w cfg signal sc st :
  signal_lookup signal (cfg_signals cfg) = Some sc ->
  run_signal w cfg signal st =
    match process_signal w signal sc
            (mkState [] (ELog Info (MsgSignalStart signal) :: ELog Info MsgPipelineStart :: trace st)) with
    | (Ret _, st2) => (Ret true, st2)
    | (Exit, st2) => (Ret false, st2)
    | (Throw e, st2) =>
        (Throw TypeError, mkState (extractor_cache st2) (ELog Error (MsgSignalError signal e) :: trace st2))
    end.
Proof.
  intros Hl. unfold run_signal, clear_cache. rewrite Hl.
  unfold bind at 1 2 3, log at 1 2, emit at 1 2, put_cache at 1. cbn [extractor_cache trace].
  unfold bind, attempt.
  destruct (process_signal w signal sc _) as [[b|e|] st2]; reflexivity.
Qed.

Lemma extract_cached_or_fetched w id cls p hk raw st :
  _make_hashable_key (PDict p) = Some hk ->
  (cache_lookup (cache_key id hk) (extractor_cache st) = None /\
   w_extractor_init w cls (PDict p) = None /\ w_fetch w cls (PDict p) = inr raw) \/
  cache_lookup (cache_key id hk) (extractor_cache st) = Some raw ->
  fst (extract w id cls p st) = Ret raw.
Proof.
  intros Hk [[Hl [Hi Hf]] | Hl].
  - rewrite (extract_miss w id cls p hk raw st Hk Hl Hi Hf). reflexivity.
  - rewrite (extract_hit w id cls p hk raw st Hk Hl). reflexivity.
Qed.

Lemma run_one_after_extract w n sc id cls p hk raw st (o : outcome string) s :
  resolves w n sc id cls p -> _make_hashable_key (PDict p) = Some hk ->
  (cache_lookup (cache_key id hk) (extractor_cache st) = None /\
   w_extractor_init w cls (PDict p) = None /\ w_fetch w cls (PDict p) = inr raw) \/
  cache_lookup (cache_key id hk) (extractor_cache st) = Some raw ->
  (forall st', fst (resolve_transformer w n sc st') = o) ->
  (o = Exit /\ s = Skipped) \/ (exists e, o = Throw e /\ s = Failed e) ->
  fst (run_one w (n, sc) st) = Ret s.
Proof.
  intros Hr Hk Hpre Ht Hos.
  set (st1 := mkState (extractor_cache st) (ELog Info (MsgSignalStart n) :: trace st)).
  assert (Hp : fst (process_signal w n sc st1) =
            (match o with Throw e => Throw e | _ => Exit end : outcome bool)).
  { destruct (process_signal_decomp w n sc id cls p raw st1 Hr) as [evs1 [_ ->]].
    rewrite (bind_ret_step _ _ _ raw).
    - unfold bind at 1. specialize (Ht (snd (extract w id cls p
               (mkState (extractor_cache st1) (evs1 ++ trace st1))))).
      destruct (resolve_transformer w n sc _) as [o' st2]. simpl in Ht. subst o'.
      destruct Hos as [[-> _] | [e [-> _]]]; reflexivity.
    - apply extract_cached_or_fetched with (hk := hk); [exact Hk|]. exact Hpre. }
  rewrite run_one_eq. fold st1.
  destruct (process_signal w n sc st1) as [o' st2]. simpl in Hp. subst o'.
  destruct Hos as [[-> ->] | [e [-> ->]]]; reflexivity.
Qed.

Lemma split_underscore_nonempty s : split_underscore s <> [].
Proof.
  induction s as [|c r IH]; simpl; [discriminate|].
  destruct (N_of_ascii c =? 95)%N; [discriminate|].
  destruct (split_underscore r); [contradiction | discriminate].
Qed.

Lemma split_underscore_app a b :
  split_underscore (a ++ "_" ++ b)%string = split_underscore a ++ split_underscore b.
Proof.
  induction a as [|c r IH]; [reflexivity|].
  simpl in IH |- *. rewrite IH. destruct (N_of_ascii c =? 95)%N; [reflexivity|].
  pose proof (split_underscore_nonempty r) as Hne.
  destruct (split_underscore r) as [|q qs]; [contradiction | reflexivity].
Qed.

Lemma concat_empty_cons (x : string) (xs : list string) :
  String.concat EmptyString (x :: xs) = (x ++ String.concat EmptyString xs)%string.
Proof. destruct xs as [|y r]; simpl; [symmetry; apply app_empty_r | reflexivity]. Qed.

Lemma concat_empty_app (xs ys : list string) :
  String.concat EmptyString (xs ++ ys) =
  (String.concat EmptyString xs ++ String.concat EmptyString ys)%string.
Proof.
  induction xs as [|x r IH]; [reflexivity|].
  rewrite <- app_comm_cons, !concat_empty_cons, IH. symmetry. apply str_app_assoc.
Qed.

Lemma no_char_concat k (xs : list string) :
  Forall (fun x => no_char k x = true) xs -> no_char k (String.concat EmptyString xs) = true.
Proof.
  induction 1 as [|x r Hx _ IH]; [reflexivity|].
  rewrite concat_empty_cons, no_char_app, Hx, IH. reflexivity.
Qed.

Lemma title_from_no_underscore b s : no_char 95 s = true -> no_char 95 (title_from b s) = true.
Proof.
  unfold no_char. revert b. induction s as [|c r IH]; intros b H; [reflexivity|].
  simpl in H |- *. apply andb_prop in H as [H1 H2]. rewrite (IH _ H2), andb_true_r.
  destruct (is_upper c || is_lower c) eqn:E; [|exact H1].
  unfold is_char, is_upper, is_lower, to_lower, to_upper in *.
  destruct b, c as [[] [] [] [] [] [] [] []]; vm_compute in E |- *; try reflexivity; discriminate.
Qed.

Lemma split_underscore_parts s : Forall (fun x => no_char 95 x = true) (split_underscore s).
Proof.
  induction s as [|c r IH]; simpl; [repeat constructor|].
  destruct (N_of_ascii c =? 95)%N eqn:E; [constructor; [reflexivity | exact IH]|].
  destruct (split_underscore r) as [|q qs]; [constructor; [|constructor]|].
  - unfold no_char. simpl. unfold is_char. rewrite E. reflexivity.
  - inversion IH as [|? ? Hq Hqs]; subst. constructor; [|exact Hqs].
    unfold no_char in *. simpl. unfold is_char. rewrite E. exact Hq.
Qed.

(** ** The extractor cache across any signals *)










(** ** Removing a dropped loader entry *)

Lemma bind_fst {A B} (m m' : M A) (k k' : A -> M B) st st' :
  fst (m st) = fst (m' st') -> (forall a s1 s2, fst (k a s1) = fst (k' a s2)) ->
  fst (bind m k st) = fst (bind m' k' st').
Proof.
  unfold bind. destruct (m st) as [o s1], (m' st') as [o' s2]. simpl. intros <- Hk.
  destruct o; auto.
Qed.

Lemma blind_bind {A B} (m : M A) (k : A -> M B) :
  blind m -> (forall a, blind (k a)) -> blind (bind m k).
Proof. intros Hm Hk st st'. apply bind_fst; [apply Hm | intros; apply Hk]. Qed.

Lemma blind_try_catch {A} (m : M A) h : blind m -> (forall e, blind (h e)) -> blind (try_catch m h).
Proof.
  intros Hm Hh st st'. unfold try_catch. specialize (Hm st st').
  destruct (m st) as [o s1], (m st') as [o' s2]. simpl in Hm. subst o'.
  destruct o; simpl; [reflexivity | apply Hh | reflexivity].
Qed.

Lemma blind_ret {A} (a : A) : blind (ret a).
Proof. intros st st'. reflexivity. Qed.
Lemma blind_throw {A} e : blind (@throw A e).
Proof. intros st st'. reflexivity. Qed.
Lemma blind_emit e : blind (emit e).
Proof. intros st st'. reflexivity. Qed.

Ltac blind_go :=
  repeat match goal with
  | |- forall _, _ => intro
  | |- blind (bind _ _) => apply blind_bind
  | |- blind (try_catch _ _) => apply blind_try_catch
  | |- blind (ret _) => apply blind_ret
  | |- blind (throw _) => apply blind_throw
  | |- blind (log _ _) => apply blind_emit
  | |- blind (emit _) => apply blind_emit
  | |- blind ((fun _ => _) _) => cbv beta
  | |- blind (match ?x with _ => _ end) => destruct x
  end.

Lemma init_loader_blind w signal lc : blind (init_loader w signal lc).
Proof. unfold init_loader, inject_supabase, log_supabase_url, construct_loader. blind_go. Qed.

Lemma init_loaders_blind w signal lcs : blind (init_loaders w signal lcs).
Proof. induction lcs as [|lc r IH]; simpl; blind_go; auto using init_loader_blind. Qed.

Lemma bind_ret_r {A} (m : M A) st : bind m (fun a => ret a) st = m st.
Proof. unfold bind. destruct (m st) as [[a|e|] s]; reflexivity. Qed.

Lemma init_loaders_drop_step w signal lc r st :
  loader_dropped w signal lc ->
  fst (init_loaders w signal (lc :: r) st)
    = fst (init_loaders w signal r
             (snd (try_catch (init_loader w signal lc)
                     (fun e => log Error (MsgLoaderInitFailed signal e) ;;; ret None) st))).
Proof.
  intros Hlc. cbn [init_loaders].
  assert (E : fst (try_catch (init_loader w signal lc)
                     (fun e => log Error (MsgLoaderInitFailed signal e) ;;; ret None) st) = Ret None).
  { specialize (Hlc st). pose proof (init_loader_no_exit w signal lc st) as Hx.
    unfold try_catch. destruct (init_loader w signal lc st) as [[[inst|]|e|] st1];
      simpl in *; try contradiction; reflexivity. }
  rewrite (bind_ret_step _ _ st None E). cbv beta iota. rewrite bind_ret_r. reflexivity.
Qed.

Lemma init_loaders_remove w signal pre lc post st st' :
  loader_dropped w signal lc ->
  fst (init_loaders w signal (pre ++ lc :: post) st) = fst (init_loaders w signal (pre ++ post) st').
Proof.
  intros Hlc. revert st st'. induction pre as [|x pre IH]; intros st st'.
  - simpl app. rewrite init_loaders_drop_step by exact Hlc. apply init_loaders_blind.
  - simpl app. cbn [init_loaders]. apply bind_fst.
    + apply blind_try_catch; [apply init_loader_blind | intro e; blind_go].
    + intros o s1 s2. apply bind_fst; [apply IH | reflexivity].
Qed.

Lemma init_loaders_raise w signal lc r st e :
  fst (init_loader w signal lc st) = Throw e ->
  init_loaders w signal (lc :: r) st
    = init_loaders w signal r
        (mkState (extractor_cache (snd (init_loader w signal lc st)))
                 (ELog Error (MsgLoaderInitFailed signal e) :: trace (snd (init_loader w signal lc st)))).
Proof.
  intros H. cbn [init_loaders]. unfold bind at 1, try_catch.
  destruct (init_loader w signal lc st) as [o s1]. simpl in H. subst o.
  unfold bind at 1. cbn. rewrite bind_ret_r. reflexivity.
Qed.

Lemma bind_same_k {A B} (m : M A) (k1 k2 : A -> M B) st :
  (forall a s, same_loads (k1 a s) (k2 a s)) -> same_loads (bind m k1 st) (bind m k2 st).
Proof.
  intros Hk. unfold bind. destruct (m st) as [[a|e|] s]; auto; repeat split.
Qed.

Lemma filter_no_load evs t :
  Forall (fun e => is_load e = false) evs -> filter is_load (evs ++ t) = filter is_load t.
Proof. intros H. rewrite filter_app, forall_no_load by exact H. reflexivity. Qed.

Lemma loads_tail_same w signal record L1 L2 st :
  (forall s1 s2, fst (init_loaders w signal L1 s1) = fst (init_loaders w signal L2 s2)) ->
  same_loads
    ((loaders <- init_loaders w signal L1 ;;
      ok <- run_loads w signal record loaders true ;;
      (if ok then log Info (MsgEtlSuccess signal)
       else log Warning (MsgNotFullyLoaded signal)) ;;;
      ret ok) st)
    ((loaders <- init_loaders w signal L2 ;;
      ok <- run_loads w signal record loaders true ;;
      (if ok then log Info (MsgEtlSuccess signal)
       else log Warning (MsgNotFullyLoaded signal)) ;;;
      ret ok) st).
Proof.
  intros Hb. specialize (Hb st st).
  destruct (init_loaders_frame w signal PNone L1 st) as [Hc1 [e1 [Ht1 Hf1]]].
  destruct (init_loaders_frame w signal PNone L2 st) as [Hc2 [e2 [Ht2 Hf2]]].
  assert (Hl1 : filter is_load (trace (snd (init_loaders w signal L1 st))) = filter is_load (trace st))
    by (rewrite Ht1; apply filter_no_load; eapply Forall_impl; [|exact Hf1]; intros ? [_ [_ E]]; exact E).
  assert (Hl2 : filter is_load (trace (snd (init_loaders w signal L2 st))) = filter is_load (trace st))
    by (rewrite Ht2; apply filter_no_load; eapply Forall_impl; [|exact Hf2]; intros ? [_ [_ E]]; exact E).
  unfold bind at 1 4.
  destruct (init_loaders w signal L1 st) as [o1 sA], (init_loaders w signal L2 st) as [o2 sB].
  simpl in Hb, Hc1, Hc2, Hl1, Hl2. subst o2.
  destruct o1 as [ls|e|]; [| repeat split; simpl; congruence ..].
  destruct (run_loads_spec w signal record ls true sA) as [HA [eA [HtA HfA]]].
  destruct (run_loads_spec w signal record ls true sB) as [HB [eB [HtB HfB]]].
  destruct (run_loads_frame w signal PNone record ls true sA) as [HcA _].
  destruct (run_loads_frame w signal PNone record ls true sB) as [HcB _].
  rewrite (bind_ret_step _ _ _ _ HA), (bind_ret_step _ _ _ _ HB).
  destruct (true && forallb (fun l => load_ok w l record) ls);
    cbv [bind log emit ret]; cbn [fst snd extractor_cache trace filter is_load];
    (split; [reflexivity|split]); simpl;
    [congruence | rewrite HtA, HtB, !filter_app, HfA, HfB; congruence
    | congruence | rewrite HtA, HtB, !filter_app, HfA, HfB; congruence].
Qed.

Lemma process_signal_remove w signal sc pre lc post st :
  default default_loaders (sc_loaders sc) = pre ++ lc :: post ->
  loader_dropped w signal lc ->
  same_loads (process_signal w signal sc st)
             (process_signal w signal (with_loaders sc (pre ++ post)) st).
Proof.
  intros HL Hlc. destruct sc as [a b c d e f]. simpl in HL.
  unfold process_signal.
  change (resolve_extractor w signal (with_loaders (mkSignal a b c d e f) (pre ++ post)))
    with (resolve_extractor w signal (mkSignal a b c d e f)).
  apply bind_same_k. intros [[id cls] p] s1. cbv beta iota.
  apply bind_same_k. intros raw s2.
  change (resolve_transformer w signal (with_loaders (mkSignal a b c d e f) (pre ++ post)))
    with (resolve_transformer w signal (mkSignal a b c d e f)).
  apply bind_same_k. intros tcls s3.
  apply bind_same_k. intros record s4.
  cbn [sc_loaders with_loaders default]. rewrite HL.
  apply loads_tail_same. intros; apply init_loaders_remove; exact Hlc.
Qed.

Lemma run_one_remove w signal sc pre lc post st :
  default default_loaders (sc_loaders sc) = pre ++ lc :: post ->
  loader_dropped w signal lc ->
  same_loads (run_one w (signal, sc) st)
             (run_one w (signal, with_loaders sc (pre ++ post)) st).
Proof.
  intros HL Hlc. rewrite !run_one_eq.
  destruct (process_signal_remove w signal sc pre lc post
              (mkState (extractor_cache st) (ELog Info (MsgSignalStart signal) :: trace st)) HL Hlc)
    as [H1 [H2 H3]].
  destruct (process_signal w signal sc _) as [o1 sA],
           (process_signal w signal (with_loaders sc (pre ++ post)) _) as [o2 sB].
  simpl in H1, H2, H3. subst o2.
  destruct o1 as [[|]|e|]; repeat split; simpl; congruence.
Qed.

(** ** The module path of [init_loader] *)

(** Up to the first constructor call, the module path of [init_loader]
    for a module that is neither Google Sheets nor an unset Supabase URL. *)
Lemma init_loader_module w signal lc m st :
  lc_module lc = Some m ->
  str_contains "google_sheets_loader" (str_lower m) = false ->
  (str_contains "supabase_loader" (str_lower m) = true -> exists u, w_env w "SUPABASE_URL" = Some u) ->
  init_loader w signal lc st =
    (match lc_class lc with
     | None => throw TypeError
     | Some c =>
         match w_import w m c with
         | None => log Error (MsgImportLoaderFailed signal) ;;; ret None
         | Some cls =>
             r1 <- construct_loader w cls KwParams (loader_kwargs w m (default [] (lc_params lc))) ;;
             match r1 with
             | None => ret (Some (cls, PDict (loader_kwargs w m (default [] (lc_params lc)))))
             | Some TypeError =>
                 r2 <- construct_loader w cls KwConfig (loader_kwargs w m (default [] (lc_params lc))) ;;
                 match r2 with
                 | None => ret (Some (cls, PDict (loader_kwargs w m (default [] (lc_params lc)))))
                 | Some ImportError | Some AttributeError =>
                     log Error (MsgImportLoaderFailed signal) ;;; ret None
                 | Some e => throw e
                 end
             | Some ImportError | Some AttributeError =>
                 log Error (MsgImportLoaderFailed signal) ;;; ret None
             | Some e => throw e
             end
         end
     end) (mkState (extractor_cache st) (loader_kwargs_trace m (trace st))).
Proof.
  intros Hm Hg Hs. unfold init_loader, loader_kwargs, loader_kwargs_trace. rewrite Hm, Hg.
  destruct (str_contains "supabase_loader" (str_lower m)).
  - destruct (Hs eq_refl) as [u Hu].
    unfold inject_supabase, log_supabase_url, getenv_val at 1. rewrite Hu.
    reflexivity.
  - destruct st. reflexivity.
Qed.


(** ** Templates over pieces *)

Section Pieces.
Local Open Scope string_scope.










End Pieces.

Section Folds.
Local Open Scope string_scope.
Variable env : string -> option string.




Lemma env_value_none_some var :
  env_value env var = None ->
  env var = None \/ env var = Some EmptyString.
Proof.
  unfold env_value. destruct (env var) as [v|]; [|auto].
  destruct (String.eqb_spec v EmptyString) as [->|]; [auto | discriminate].
Qed.


















End Folds.

(** * The claims *)

(** C2: in a configuration where one signal's extractor constructs and
    always raises [ExtractionError] from [fetch()], and the other signals'
    plugins never raise, [run] returns (it does not raise) a status for
    every configured signal, in order: the failing signal is [Failed
    ExtractionError] and every other signal is [Succeeded] or
    [PartiallyLoaded]. *)
Theorem run_isolates_failing_signal w cfg pre nf scf post st :
  cfg_signals cfg = pre ++ (nf, scf) :: post ->
  Forall (fun e => well_behaved w (fst e) (snd e)) (pre ++ post) ->
  extractor_always_fails w nf scf ->
  exists pre_sts post_sts,
    fst (run w cfg st) = Ret (pre_sts ++ (nf, Failed ExtractionError) :: post_sts) /\
    map fst pre_sts = map fst pre /\ map fst post_sts = map fst post /\
    Forall (fun s => completed (snd s)) (pre_sts ++ post_sts).
Proof.
  intros Hcfg Hwb Hf.
  apply Forall_app in Hwb as [Hpre Hpost].
  assert (Hall : Forall (fun e => well_behaved w (fst e) (snd e) \/
                                  extractor_always_fails w (fst e) (snd e)) (cfg_signals cfg)).
  { rewrite Hcfg. apply Forall_app. split.
    - eapply Forall_impl; [|exact Hpre]. intros e He. left. exact He.
    - constructor; [right; exact Hf|].
      eapply Forall_impl; [|exact Hpost]. intros e He. left. exact He. }
  unfold run.
  rewrite (bind_ret_step (log Info MsgPipelineStart) _ st tt eq_refl).
  rewrite (bind_ret_step clear_cache _ _ tt eq_refl).
  match goal with |- context [bind (run_all ?w ?l) ?k ?st1] =>
    destruct (run_all_spec w l st1 (cache_ok_nil w) Hall) as [sts [Hsts Hrel]];
    rewrite (bind_ret_step _ k st1 sts Hsts) end.
  rewrite Hcfg in Hrel.
  apply Forall2_app_inv_l in Hrel as [l1 [l2 [H1 [H2 ->]]]].
  inversion H2 as [|e s r rs Hs H3]; subst.
  destruct s as [n' s']. destruct Hs as [Hn [_ Hfs]]. simpl in Hn, Hfs.
  subst n'. specialize (Hfs Hf). subst s'.
  destruct (statuses_completed _ _ _ H1 Hpre) as [A1 B1].
  destruct (statuses_completed _ _ _ H3 Hpost) as [A2 B2].
  exists l1, rs. split; [reflexivity|]. split; [exact A1|]. split; [exact A2|].
  apply Forall_app. split; assumption.
Qed.

Lemma run_isolates_failing_signal_witness :
  cfg_signals demo_config =
    [("bitcoin_price", demo_signal "coingecko_extractor" "bitcoin_price_transformer")]
    ++ ("m2_money_supply", demo_signal "fred_extractor" "m2_transformer")
    :: [("fear_and_greed", demo_signal "alternative_extractor" "fear_greed_transformer")] /\
  exists pre_sts post_sts,
    fst (run demo_world demo_config (mkState [] []))
      = Ret (pre_sts ++ ("m2_money_supply", Failed ExtractionError) :: post_sts) /\
    map fst pre_sts = ["bitcoin_price"] /\ map fst post_sts = ["fear_and_greed"] /\
    Forall (fun s => completed (snd s)) (pre_sts ++ post_sts).
Proof.
  split; [reflexivity|].
  apply (run_isolates_failing_signal demo_world demo_config
           [("bitcoin_price", demo_signal "coingecko_extractor" "bitcoin_price_transformer")]
           "m2_money_supply" (demo_signal "fred_extractor" "m2_transformer")
           [("fear_and_greed", demo_signal "alternative_extractor" "fear_greed_transformer")]).
  - reflexivity.
  - repeat constructor; simpl.
    + eexists; eexists; eexists; split; [intro st; reflexivity|].
      split; [reflexivity | intro q; eexists; reflexivity].
    + exists "BitcoinPriceTransformer". split; [intro st; reflexivity | intro raw; eexists; reflexivity].
    + eexists; eexists; eexists; split; [intro st; reflexivity|].
      split; [reflexivity | intro q; eexists; reflexivity].
    + exists "FearGreedTransformer". split; [intro st; reflexivity | intro raw; eexists; reflexivity].
  - eexists; eexists; eexists; split; [intro st; reflexivity|].
    split; [reflexivity | intro q; reflexivity].
Defined.

(** C4: in [run]'s loop body for a signal ([run_one]) and in
    [run_signal], every [load()] call receives the dict a [transform()]
    call returned with [signal_name] set to the signal's name (replacing a
    [signal_name] the transformer put there): looking [signal_name] up in
    the record gives the name. *)
Theorem signal_name_injected w cfg signal sc :
  (forall st, exists evs, trace (snd (run_one w (signal, sc) st)) = evs ++ trace st /\
                          Forall (record_tagged w signal) evs) /\
  (forall st, exists evs, trace (snd (run_signal w cfg signal st)) = evs ++ trace st /\
                          Forall (record_tagged w signal) evs).
Proof.
  split; intro st.
  - apply (run_one_frame w signal sc st).
  - apply (run_signal_frame w cfg signal st).
Qed.

(** C3: a signal with a named extractor that declares a secret which the
    environment does not hold (or holds empty) fails in [run] with
    [MissingSecretError] raised by [SecretsManager.get_secrets], before
    any extractor is constructed: the iteration logs the extraction start
    and the failure, and no warning. *)
Theorem missing_secret_fails_early w signal sc n cls nm st :
  sc_extractor sc = ExtName n -> extractor_map n = Some cls ->
  In nm (default [] (sc_secrets sc)) -> w_env w nm = None \/ w_env w nm = Some EmptyString ->
  run_one w (signal, sc) st =
    (Ret (Failed MissingSecretError),
     mkState (extractor_cache st)
       ([ELog Error (MsgEtlFailure signal MissingSecretError);
         ELog Info (MsgExtractStart n);
         ELog Info (MsgSignalStart signal)] ++ trace st)).
Proof.
  intros Hext Hmap Hin Hnm. rewrite run_one_eq. unfold process_signal.
  rewrite (bind_throw_step _ _ _ MissingSecretError
             (f_equal fst (resolve_extractor_missing w signal sc n cls nm _ Hext Hmap Hin Hnm))).
  rewrite (resolve_extractor_missing w signal sc n cls nm _ Hext Hmap Hin Hnm).
  reflexivity.
Qed.

Lemma missing_secret_fails_early_witness :
  run_one demo_world ("m2_money_supply", fred_signal) (mkState [] []) =
    (Ret (Failed MissingSecretError),
     mkState [] [ELog Error (MsgEtlFailure "m2_money_supply" MissingSecretError);
                 ELog Info (MsgExtractStart "fred_extractor");
                 ELog Info (MsgSignalStart "m2_money_supply")]).
Proof.
  apply (missing_secret_fails_early demo_world "m2_money_supply" fred_signal
           "fred_extractor" "FredExtractor" "FRED_API_KEY").
  - reflexivity.
  - reflexivity.
  - simpl. left. reflexivity.
  - left. reflexivity.
Defined.

(** C3, against the claim: [m2_money_supply] declaring [FRED_API_KEY]
    in an environment without it ends [Failed MissingSecretError]; the
    trace holds no warning, no construction of [FredExtractor] and no
    [ExtractionError]. *)
Lemma missing_secret_counterexample :
  fst (run_one demo_world ("m2_money_supply", fred_signal) (mkState [] []))
    = Ret (Failed MissingSecretError) /\
  Forall (fun e => match e with
                   | ELog Warning _ | EConstructExtractor _ _ => False
                   | _ => True
                   end)
         (trace (snd (run_one demo_world ("m2_money_supply", fred_signal) (mkState [] [])))).
Proof. vm_compute. split; [reflexivity | repeat constructor]. Qed.

(** C5: when no cache key can be built from the parameters, extraction
    constructs the extractor, calls [fetch()] once and returns its record;
    the cache is left as it was, and the failure of the key is logged at
    level [Error] (not [Warning]) before the uncached fetch. *)
Theorem cache_key_failure_fallback w id cls params raw st :
  _make_hashable_key (PDict params) = None ->
  w_extractor_init w cls (PDict params) = None ->
  w_fetch w cls (PDict params) = inr raw ->
  extract w id cls params st =
    (Ret raw, mkState (extractor_cache st)
                ([ELog Info MsgFetchedUncached; EFetch cls (PDict params);
                  EConstructExtractor cls (PDict params);
                  ELog Error (MsgCacheKeyFailed TypeError)] ++ trace st)).
Proof.
  intros Hk Hi Hf. unfold_extract. rewrite Hk. cbn. rewrite Hi, Hf. reflexivity.
Qed.

Lemma cache_key_failure_fallback_witness :
  extract demo_world (IdName "coingecko_extractor") "CoinGeckoExtractor" mixed_params
          (mkState [] []) =
    (Ret (PDict [(KStr "price", PInt 100)]),
     mkState [] [ELog Info MsgFetchedUncached; EFetch "CoinGeckoExtractor" (PDict mixed_params);
                 EConstructExtractor "CoinGeckoExtractor" (PDict mixed_params);
                 ELog Error (MsgCacheKeyFailed TypeError)]).
Proof.
  apply (cache_key_failure_fallback demo_world (IdName "coingecko_extractor")
           "CoinGeckoExtractor" mixed_params (PDict [(KStr "price", PInt 100)]) (mkState [] [])).
  - vm_compute. reflexivity.
  - reflexivity.
  - reflexivity.
Defined.

(** C5, against the claim: on [mixed_params] the key construction
    raises, and the failure is logged as an error; no warning is logged. *)
Lemma cache_key_failure_counterexample :
  _make_hashable_key (PDict mixed_params) = None /\
  In (ELog Error (MsgCacheKeyFailed TypeError))
     (trace (snd (extract demo_world (IdName "coingecko_extractor") "CoinGeckoExtractor"
                          mixed_params (mkState [] [])))) /\
  Forall (fun e => match e with ELog Warning _ => False | _ => True end)
     (trace (snd (extract demo_world (IdName "coingecko_extractor") "CoinGeckoExtractor"
                          mixed_params (mkState [] [])))).
Proof. vm_compute. split; [reflexivity | split; [tauto | repeat constructor]]. Qed.

(** C6: every loader the loop is given receives the record in a [load()]
    call, in order, whatever the others raise, and the loop's result is
    [True] exactly when every [load()] returned; a signal whose body ends
    with that result [False] is [PartiallyLoaded] in [run] (and its last
    log line is the warning, where a full success logs [EtlSuccess]), but
    [run_signal] returns [True] for it, as for a full success. *)
Theorem partial_load_surfaced w cfg signal sc b b' st :
  signal_lookup signal (cfg_signals cfg) = Some sc ->
  fst (process_signal w signal sc
         (mkState (extractor_cache st) (ELog Info (MsgSignalStart signal) :: trace st))) = Ret b ->
  fst (process_signal w signal sc
         (mkState [] (ELog Info (MsgSignalStart signal) :: ELog Info MsgPipelineStart :: trace st)))
    = Ret b' ->
  (forall record ls ok st0,
     fst (run_loads w signal record ls ok st0)
       = Ret (ok && forallb (fun l => load_ok w l record) ls) /\
     exists evs, trace (snd (run_loads w signal record ls ok st0)) = evs ++ trace st0 /\
                 filter is_load evs = rev (map (fun l => ELoad (fst l) (snd l) record) ls)) /\
  (forall st0 b0, fst (process_signal w signal sc st0) = Ret b0 ->
     hd_error (trace (snd (process_signal w signal sc st0)))
       = Some (if b0 then ELog Info (MsgEtlSuccess signal)
               else ELog Warning (MsgNotFullyLoaded signal))) /\
  fst (run_one w (signal, sc) st) = Ret (if b then Succeeded else PartiallyLoaded) /\
  fst (run_signal w cfg signal st) = Ret true.
Proof.
  intros Hl Hb Hb'. split; [intros; apply run_loads_spec|].
  split; [intros st0 b0; apply process_signal_last|]. split.
  - rewrite run_one_eq. destruct (process_signal w signal sc _) as [o st2].
    simpl in Hb. subst o. destruct b; reflexivity.
  - unfold run_signal.
    rewrite (bind_ret_step (log Info MsgPipelineStart) _ st tt eq_refl).
    rewrite (bind_ret_step clear_cache _ _ tt eq_refl). cbv beta.
    rewrite Hl.
    rewrite (bind_ret_step (log Info (MsgSignalStart signal)) _ _ tt eq_refl). cbv beta.
    match goal with |- context [bind (attempt ?m) ?k ?st1] =>
      assert (E : fst (attempt m st1) = Ret (Ret b')) by (rewrite attempt_step; cbn [fst]; f_equal; exact Hb');
      rewrite (bind_ret_step _ k st1 _ E) end.
    reflexivity.
Qed.

Lemma partial_load_surfaced_witness :
  fst (run_one load_world ("bitcoin_price", partial_signal) (mkState [] []))
    = Ret PartiallyLoaded /\
  fst (run_signal load_world partial_config "bitcoin_price" (mkState [] [])) = Ret true.
Proof.
  destruct (partial_load_surfaced load_world partial_config "bitcoin_price" partial_signal
              false false (mkState [] [])) as [_ [_ [H1 H2]]].
  - reflexivity.
  - vm_compute. reflexivity.
  - vm_compute. reflexivity.
  - split; [exact H1 | exact H2].
Defined.

(** C6, against the claim: with [DbLoader] raising [LoadError] and
    [FileLoader] loading, [FileLoader.load] is called, the signal is
    [PartiallyLoaded] in [run], and [run_signal] returns [True], the
    value it returns when every loader succeeds. *)
Lemma partial_load_counterexample :
  In (ELoad "FileLoader" (PDict [])
        (PDict [(KStr "value", PDict [(KStr "price", PInt 100)]);
                (KStr "signal_name", PStr "bitcoin_price")]))
     (trace (snd (run_one load_world ("bitcoin_price", partial_signal) (mkState [] [])))) /\
  fst (run_one load_world ("bitcoin_price", partial_signal) (mkState [] []))
    = Ret PartiallyLoaded /\
  fst (run_signal load_world partial_config "bitcoin_price" (mkState [] [])) = Ret true /\
  fst (run_signal load_world full_config "bitcoin_price" (mkState [] [])) = Ret true.
Proof. vm_compute. split; [tauto | split; [reflexivity | split; reflexivity]]. Qed.

(** C7: [run_signal] on a name the configuration does not hold returns
    [False] without raising, logs the pipeline start and the error, and
    leaves the extraction cache empty: it is cleared before the lookup. *)
Theorem run_signal_unknown w cfg name st :
  signal_lookup name (cfg_signals cfg) = None ->
  run_signal w cfg name st =
    (Ret false, mkState [] (ELog Error (MsgSignalNotFound name)
                             :: ELog Info MsgPipelineStart :: trace st)).
Proof.
  intros Hl. unfold run_signal.
  rewrite (bind_ret_step (log Info MsgPipelineStart) _ st tt eq_refl).
  rewrite (bind_ret_step clear_cache _ _ tt eq_refl). cbv beta.
  rewrite Hl. reflexivity.
Qed.

Lemma run_signal_unknown_witness :
  run_signal demo_world demo_config "nonexistent" (mkState [] []) =
    (Ret false, mkState [] [ELog Error (MsgSignalNotFound "nonexistent");
                            ELog Info MsgPipelineStart]).
Proof. apply (run_signal_unknown demo_world demo_config "nonexistent" (mkState [] [])). reflexivity. Defined.

(** C7, against the claim: a cache holding one entry before the call is
    empty after [run_signal "nonexistent"]. *)
Lemma run_signal_unknown_counterexample :
  fst (run_signal demo_world demo_config "nonexistent"
         (mkState [(HTuple [HStr "coingecko_extractor"; HTuple []], PDict [])] [])) = Ret false /\
  extractor_cache (snd (run_signal demo_world demo_config "nonexistent"
         (mkState [(HTuple [HStr "coingecko_extractor"; HTuple []], PDict [])] []))) = [].
Proof. vm_compute. split; reflexivity. Qed.

(** C9: a loader entry whose construction raises is logged
    ([MsgLoaderInitFailed]) and the loop goes on with the next entries;
    any entry that yields no loader (it raised, its import failed, or it
    was skipped) can be removed from the signal's configuration without
    changing the signal's outcome in [run] nor the [load()] calls made,
    so the remaining loaders alone decide success.  In particular, when
    the extractor and the transformer never raise and every entry yields
    no loader, no [load()] is called, [run] records the signal as
    [Succeeded] and [run_signal] returns [True]. *)
Theorem dropped_loaders_success w cfg signal sc st :
  (forall lc r st1 e,
     fst (init_loader w signal lc st1) = Throw e ->
     init_loaders w signal (lc :: r) st1
       = init_loaders w signal r
           (mkState (extractor_cache (snd (init_loader w signal lc st1)))
                    (ELog Error (MsgLoaderInitFailed signal e)
                       :: trace (snd (init_loader w signal lc st1))))) /\
  (forall pre lc post,
     default default_loaders (sc_loaders sc) = pre ++ lc :: post ->
     loader_dropped w signal lc ->
     fst (run_one w (signal, sc) st) = fst (run_one w (signal, with_loaders sc (pre ++ post)) st) /\
     filter is_load (trace (snd (run_one w (signal, sc) st)))
       = filter is_load (trace (snd (run_one w (signal, with_loaders sc (pre ++ post)) st)))) /\
  (well_behaved w signal sc ->
   Forall (loader_dropped w signal) (default default_loaders (sc_loaders sc)) ->
   fst (run_one w (signal, sc) st) = Ret Succeeded /\
   (exists evs, trace (snd (run_one w (signal, sc) st)) = evs ++ trace st /\
                filter is_load evs = []) /\
   (signal_lookup signal (cfg_signals cfg) = Some sc ->
    fst (run_signal w cfg signal st) = Ret true)).
Proof.
  split; [intros; apply init_loaders_raise; assumption|].
  split.
  { intros pre lc post HL Hlc.
    destruct (run_one_remove w signal sc pre lc post st HL Hlc) as [H1 [_ H3]]. auto. }
  intros Hwb Hd. split; [|split].
  - rewrite run_one_eq.
    pose proof (process_signal_dropped w signal sc
                  (mkState (extractor_cache st) (ELog Info (MsgSignalStart signal) :: trace st))
                  Hwb Hd) as Hp.
    destruct (process_signal w signal sc _) as [o st2]. simpl in Hp. subst o. reflexivity.
  - assert (Hf : frame (fun _ _ => True) (fun e => is_load e = false) (run_one w (signal, sc))).
    { unfold run_one. frame_go. apply process_signal_no_load. exact Hd. }
    destruct (Hf st) as [_ [evs [Ht Hl]]]. exists evs. split; [exact Ht | apply forall_no_load; exact Hl].
  - intros Hl. eapply run_signal_found; [exact Hl|]. apply process_signal_dropped; assumption.
Qed.

Lemma dropped_loaders_success_witness :
  init_loaders demo_world "bitcoin_price" [keyless_entry] (mkState [] [])
    = init_loaders demo_world "bitcoin_price" []
        (mkState [] [ELog Error (MsgLoaderInitFailed "bitcoin_price" KeyError)]) /\
  (fst (run_one demo_world ("bitcoin_price", mixed_loaders_signal) (mkState [] []))
     = fst (run_one demo_world ("bitcoin_price", demo_signal "coingecko_extractor"
                                                  "bitcoin_price_transformer") (mkState [] [])) /\
   filter is_load (trace (snd (run_one demo_world ("bitcoin_price", mixed_loaders_signal)
                                 (mkState [] []))))
     = filter is_load (trace (snd (run_one demo_world
                                     ("bitcoin_price", demo_signal "coingecko_extractor"
                                                        "bitcoin_price_transformer")
                                     (mkState [] []))))).
Proof.
  destruct (dropped_loaders_success demo_world demo_config "bitcoin_price" mixed_loaders_signal
              (mkState [] [])) as [H1 [H2 _]].
  split.
  - exact (H1 keyless_entry [] (mkState [] []) KeyError eq_refl).
  - exact (H2 [] keyless_entry [mkLoader (Some "etl.load.file_loader") (Some "FileLoader") None None None]
              eq_refl (fun st => I)).
Defined.










(** * Further properties of the code *)

(** [SecretsManager.get_secrets]: when every required name is set to a
    non-empty value, it returns a dict that maps exactly those names to
    their values and changes nothing else; when one of them is unset or
    empty, it raises [MissingSecretError]. *)
Theorem get_secrets_spec w names st :
  (Forall (fun n => exists v, w_env w n = Some v /\ v <> EmptyString) names ->
   exists d, get_secrets w names st = (Ret d, st) /\
     (forall n, In n names -> str_dict_get d n = w_env w n) /\
     (forall n, ~ In n names -> str_dict_get d n = None)) /\
  (forall nm, In nm names -> w_env w nm = None \/ w_env w nm = Some EmptyString ->
   get_secrets w names st = (Throw MissingSecretError, st)).
Proof.
  split.
  - intro Hall. destruct (get_secrets_into_ok w names [] st Hall) as [d [Hd [H1 H2]]].
    exists d. split; [exact Hd|]. split; [exact H1|]. intros n Hn. rewrite (H2 n Hn). reflexivity.
  - intros nm Hin Hnm. exact (get_secrets_into_missing w names [] nm st Hin Hnm).
Qed.

Lemma get_secrets_spec_witness :
  (exists d, get_secrets env_world ["FRED_API_KEY"] (mkState [] []) = (Ret d, mkState [] []) /\
             str_dict_get d "FRED_API_KEY" = Some "k123") /\
  get_secrets env_world ["FRED_API_KEY"; "COINGECKO_API_KEY"] (mkState [] [])
    = (Throw MissingSecretError, mkState [] []).
Proof.
  split.
  - assert (Hall : Forall (fun n => exists v, w_env env_world n = Some v /\ v <> EmptyString)
                     ["FRED_API_KEY"]).
    { constructor; [exists "k123"; split; [reflexivity | discriminate] | constructor]. }
    destruct (proj1 (get_secrets_spec env_world ["FRED_API_KEY"] (mkState [] [])) Hall)
      as [d [Hd [H1 _]]].
    exists d. split; [exact Hd|]. rewrite (H1 "FRED_API_KEY"); [reflexivity | left; reflexivity].
  - apply (proj2 (get_secrets_spec env_world ["FRED_API_KEY"; "COINGECKO_API_KEY"] (mkState [] []))
             "COINGECKO_API_KEY"); [right; left; reflexivity | left; reflexivity].
Defined.

(** The [secret_mapping] loop: it never raises and leaves the cache
    alone; it logs one warning per entry whose secret is not among the
    resolved secrets, in the order of the mapping; each parameter named
    by the mapping holds its secret when the secret was found and keeps
    its old value otherwise; keys the mapping does not name are
    unchanged. *)
Theorem apply_secret_mapping_spec signal secrets mapping params st :
  exists p,
    apply_secret_mapping signal secrets mapping params st =
      (Ret p, mkState (extractor_cache st)
                (rev (map (fun sn => ELog Warning (MsgSecretNotFound sn signal))
                          (filter (secret_missing secrets) (map snd mapping)))
                 ++ trace st)) /\
    (NoDup (map fst mapping) ->
     forall pn sn, In (pn, sn) mapping ->
       py_dict_get p (KStr pn) =
         match str_dict_get secrets sn with
         | Some v => Some (PStr v)
         | None => py_dict_get params (KStr pn)
         end) /\
    (forall k, Forall (fun pm => key_eqb (KStr (fst pm)) k = false) mapping ->
       py_dict_get p k = py_dict_get params k).
Proof. exact (apply_secret_mapping_loop signal secrets mapping params st). Qed.

Lemma apply_secret_mapping_spec_witness :
  exists p,
    apply_secret_mapping "m2_money_supply" [("FRED_API_KEY", "k123")]
      [("api_key", "FRED_API_KEY"); ("token", "OTHER_KEY")] [(KStr "series_id", PStr "M2SL")]
      (mkState [] [])
    = (Ret p, mkState [] [ELog Warning (MsgSecretNotFound "OTHER_KEY" "m2_money_supply")]) /\
    py_dict_get p (KStr "api_key") = Some (PStr "k123") /\
    py_dict_get p (KStr "token") = None /\
    py_dict_get p (KStr "series_id") = Some (PStr "M2SL").
Proof.
  destruct (apply_secret_mapping_spec "m2_money_supply" [("FRED_API_KEY", "k123")]
              [("api_key", "FRED_API_KEY"); ("token", "OTHER_KEY")]
              [(KStr "series_id", PStr "M2SL")] (mkState [] [])) as [p [H1 [H2 H3]]].
  assert (Hnd : NoDup (map fst [("api_key", "FRED_API_KEY"); ("token", "OTHER_KEY")])).
  { simpl. constructor; [simpl; intros [H | []]; discriminate | constructor; [simpl; tauto | constructor]]. }
  exists p. split; [|split; [|split]].
  - rewrite H1. reflexivity.
  - rewrite (H2 Hnd "api_key" "FRED_API_KEY"); [reflexivity | left; reflexivity].
  - rewrite (H2 Hnd "token" "OTHER_KEY"); [reflexivity | right; left; reflexivity].
  - rewrite H3; [reflexivity|]. repeat constructor.
Defined.

(** A named extractor whose declared secrets are all set to non-empty
    values, and whose [secret_mapping] only names declared secrets (each
    parameter once), resolves without any warning: the extractor
    parameters hold each mapped secret's value under its parameter name,
    and every other key keeps its value from [extractor_params]. *)
Theorem resolve_extractor_named w signal sc n cls st :
  sc_extractor sc = ExtName n -> extractor_map n = Some cls ->
  Forall (fun nm => exists v, w_env w nm = Some v /\ v <> EmptyString) (default [] (sc_secrets sc)) ->
  Forall (fun pm => In (snd pm) (default [] (sc_secrets sc))) (default [] (sc_secret_mapping sc)) ->
  NoDup (map fst (default [] (sc_secret_mapping sc))) ->
  exists p,
    resolve_extractor w signal sc st =
      (Ret (IdName n, cls, p),
       mkState (extractor_cache st) (ELog Info (MsgExtractStart n) :: trace st)) /\
    (forall pn sn, In (pn, sn) (default [] (sc_secret_mapping sc)) ->
       py_dict_get p (KStr pn) = option_map PStr (w_env w sn)) /\
    (forall k, Forall (fun pm => key_eqb (KStr (fst pm)) k = false) (default [] (sc_secret_mapping sc)) ->
       py_dict_get p k = py_dict_get (default [] (sc_extractor_params sc)) k).
Proof.
  intros Hext Hmap Hall Hin Hnd.
  set (st1 := mkState (extractor_cache st) (ELog Info (MsgExtractStart n) :: trace st)).
  destruct (get_secrets_into_ok w _ [] st1 Hall) as [d [Hd [Hd1 _]]].
  destruct (apply_secret_mapping_loop signal d (default [] (sc_secret_mapping sc))
              (default [] (sc_extractor_params sc)) st1) as [p [Hp [Hp2 Hp3]]].
  assert (Hf : filter (secret_missing d) (map snd (default [] (sc_secret_mapping sc))) = []).
  { clear Hp Hp2 Hp3 Hnd.
    induction (default [] (sc_secret_mapping sc)) as [|[pn sn] r IHr]; [reflexivity|].
    inversion Hin as [|? ? Hsn Hr]; subst.
    rewrite Forall_forall in Hall.
    destruct (Hall sn Hsn) as [v [Hv _]].
    simpl. unfold secret_missing at 1.
    rewrite (Hd1 sn Hsn), Hv. exact (IHr Hr). }
  rewrite Hf in Hp. simpl in Hp.
  exists p. split; [|split].
  - unfold resolve_extractor. rewrite Hext, Hmap.
    unfold bind at 1, log, emit. fold st1.
    unfold get_secrets, bind. rewrite Hd, Hp. reflexivity.
  - intros pn sn Hpn. rewrite (Hp2 Hnd pn sn Hpn).
    rewrite Forall_forall in Hin, Hall.
    destruct (Hall sn (Hin (pn, sn) Hpn)) as [v [Hv _]].
    rewrite (Hd1 sn (Hin (pn, sn) Hpn)), Hv. reflexivity.
  - exact Hp3.
Qed.

Lemma resolve_extractor_named_witness :
  exists p,
    resolve_extractor env_world "m2_money_supply" fred_signal (mkState [] []) =
      (Ret (IdName "fred_extractor", "FredExtractor", p),
       mkState [] [ELog Info (MsgExtractStart "fred_extractor")]) /\
    py_dict_get p (KStr "api_key") = Some (PStr "k123") /\
    py_dict_get p (KStr "series_id") = Some (PStr "M2SL").
Proof.
  assert (Hsec : Forall (fun nm => exists v, w_env env_world nm = Some v /\ v <> EmptyString)
                   (default [] (sc_secrets fred_signal))).
  { constructor; [exists "k123"; split; [reflexivity | discriminate] | constructor]. }
  assert (Hin : Forall (fun pm => In (snd pm) (default [] (sc_secrets fred_signal)))
                  (default [] (sc_secret_mapping fred_signal))).
  { constructor; [left; reflexivity | constructor]. }
  assert (Hnd : NoDup (map fst (default [] (sc_secret_mapping fred_signal)))).
  { constructor; [simpl; tauto | constructor]. }
  destruct (resolve_extractor_named env_world "m2_money_supply" fred_signal "fred_extractor"
              "FredExtractor" (mkState [] []) eq_refl eq_refl Hsec Hin Hnd) as [p [H1 [H2 H3]]].
  exists p. split; [exact H1|]. split.
  - rewrite (H2 "api_key" "FRED_API_KEY"); [reflexivity | left; reflexivity].
  - rewrite H3; [reflexivity|]. repeat constructor.
Defined.

(** [_make_hashable_key] builds a key for every value whose dicts, at any
    depth, have only [str] keys (what a YAML mapping with plain keys
    gives): such extractor parameters are always cached. *)
Theorem make_hashable_key_str_keyed v :
  str_keyed v = true -> exists h, _make_hashable_key v = Some h.
Proof.
  induction v as [| b | z | s | xs IH | kvs IH | r] using pyval_ind2;
    intro Hv; try (simpl; eauto; fail).
  - simpl in Hv |- *. rewrite forallb_forall in Hv. rewrite Forall_forall in IH.
    destruct (traverse_some _make_hashable_key xs) as [hs Hhs].
    + intros x Hx. destruct (IH x Hx (Hv x Hx)) as [h Hh]. congruence.
    + rewrite Hhs. simpl. eauto.
  - rewrite mk_dict_direct. simpl in Hv.
    rewrite forallb_forall in Hv. rewrite Forall_forall in IH.
    match goal with
    | |- context [traverse_opt ?g kvs] =>
        destruct (traverse_some g kvs) as [items Hitems];
          [| rewrite Hitems]
    end.
    + intros kv Hkv. pose proof (Hv kv Hkv) as Hs. apply Bool.andb_true_iff in Hs. destruct Hs as [_ Hs].
      destruct (IH kv Hkv Hs) as [h Hh]. rewrite Hh. discriminate.
    + destruct (sort_by_defined fst items) as [sorted Hs].
      * right. exists true. intros a Ha.
        assert (Hk : In (fst a) (map fst kvs)).
        { rewrite <- (traverse_keys _ kvs items Hitems). apply in_map. exact Ha. }
        apply in_map_iff in Hk. destruct Hk as [kv [Hkv Hin]].
        pose proof (Hv kv Hin) as Hk. apply Bool.andb_true_iff in Hk. destruct Hk as [Hk _].
        rewrite <- Hkv. destruct (fst kv); simpl in *; congruence.
      * rewrite Hs. eauto.
Qed.

Lemma make_hashable_key_str_keyed_witness :
  exists h, _make_hashable_key (PDict coin_params) = Some h.
Proof. apply make_hashable_key_str_keyed. reflexivity. Defined.

(** [_process_env_vars] returns the configuration unchanged when no
    environment variable is set to a non-empty value, and, in any
    environment, when no string in it contains [{] or [$]. *)
Theorem process_env_vars_identity env v :
  ((forall n, env n = None \/ env n = Some EmptyString) ->
   _process_env_vars env v = v) /\
  (all_strings template_free v = true -> _process_env_vars env v = v).
Proof.
  split.
  - intros H. apply (process_env_vars_id env (fun _ => true)).
    + intros s _. apply process_string_unset. exact H.
    + induction v as [| b | z | s | xs IH | kvs IH | r] using pyval_ind2; simpl; try reflexivity.
      * rewrite forallb_forall. rewrite Forall_forall in IH. exact IH.
      * rewrite forallb_forall. rewrite Forall_forall in IH. exact IH.
  - apply process_env_vars_id. intros s Hs. apply process_string_free. exact Hs.
Qed.

Lemma process_env_vars_identity_witness :
  _process_env_vars (fun _ => None)
    (PDict [(KStr "url", PStr "{{SUPABASE_URL}}"); (KStr "key", PStr "${SUPABASE_KEY}")])
  = PDict [(KStr "url", PStr "{{SUPABASE_URL}}"); (KStr "key", PStr "${SUPABASE_KEY}")] /\
  _process_env_vars env_vars (PList [PStr "financial_signals"; PInt 3])
  = PList [PStr "financial_signals"; PInt 3].
Proof.
  split.
  - apply (proj1 (process_env_vars_identity (fun _ => None)
             (PDict [(KStr "url", PStr "{{SUPABASE_URL}}"); (KStr "key", PStr "${SUPABASE_KEY}")]))).
    intros n. left. reflexivity.
  - apply (proj2 (process_env_vars_identity env_vars (PList [PStr "financial_signals"; PInt 3]))).
    reflexivity.
Defined.

(** With [SUPABASE_URL] unset, a Supabase loader entry (a module path
    containing [supabase_loader], or a [type] of [supabase_loader]) raises
    [TypeError] at the log line that slices the URL, before any
    construction; the loader loop logs the failure and drops the entry. *)
Theorem supabase_url_unset w signal lc st :
  w_env w "SUPABASE_URL" = None -> supabase_entry lc = true ->
  init_loader w signal lc st = (Throw TypeError, st) /\
  init_loaders w signal [lc] st =
    (Ret [], mkState (extractor_cache st) (ELog Error (MsgLoaderInitFailed signal TypeError) :: trace st)).
Proof.
  intros Hu Hs.
  assert (H : init_loader w signal lc st = (Throw TypeError, st)).
  { unfold supabase_entry in Hs. unfold init_loader.
    destruct (lc_module lc) as [m|].
    - apply andb_prop in Hs as [H1 H2]. apply negb_true_iff in H1. rewrite H1, H2.
      unfold inject_supabase, getenv_val, bind. rewrite Hu. reflexivity.
    - destruct (lc_type lc) as [t|]; [|discriminate].
      apply String.eqb_eq in Hs. subst t. cbn -[inject_supabase].
      unfold inject_supabase, getenv_val, bind. rewrite Hu. reflexivity. }
  split; [exact H|].
  cbn [init_loaders]. unfold bind at 1, try_catch. rewrite H. destruct st. reflexivity.
Qed.

Lemma supabase_url_unset_witness :
  init_loader demo_world "bitcoin_price"
    (mkLoader (Some "etl.load.supabase_loader") (Some "SupabaseLoader") None None None)
    (mkState [] []) = (Throw TypeError, mkState [] []).
Proof.
  exact (proj1 (supabase_url_unset demo_world "bitcoin_price"
                  (mkLoader (Some "etl.load.supabase_loader") (Some "SupabaseLoader") None None None)
                  (mkState [] []) eq_refl eq_refl)).
Defined.

(** The default loaders of a signal without [loaders]: with
    [SUPABASE_URL] unset they yield no loader at all (one logged
    [TypeError]); with it set they yield one Supabase loader built with
    [config=] holding the table [financial_signals] and the URL and key
    from the environment. *)
Theorem default_loaders_supabase w signal st :
  (w_env w "SUPABASE_URL" = None ->
   init_loaders w signal default_loaders st =
     (Ret [], mkState (extractor_cache st) (ELog Error (MsgLoaderInitFailed signal TypeError) :: trace st))) /\
  (forall u cls, w_env w "SUPABASE_URL" = Some u ->
   w_import w "etl.load.supabase_loader" "SupabaseLoader" = Some cls ->
   w_loader_init w cls KwConfig (PDict (supabase_config w u)) = None ->
   init_loaders w signal default_loaders st =
     (Ret [(cls, PDict (supabase_config w u))],
      mkState (extractor_cache st)
        (EConstructLoader cls (PDict (supabase_config w u)) :: ELog Info MsgSupabaseUrl :: trace st))).
Proof.
  split.
  - intros Hu. unfold default_loaders, init_loaders, init_loader, inject_supabase, getenv_val.
    cbn - [w_env]. rewrite Hu. destruct st. reflexivity.
  - intros u cls Hu Hi Hc.
    unfold default_loaders, init_loaders, init_loader, inject_supabase, construct_loader.
    cbn - [w_env w_import w_loader_init supabase_config getenv_val].
    rewrite Hi. unfold getenv_val at 1 2. rewrite Hu.
    change [(KStr "table", PStr "financial_signals"); (KStr "url", PStr u);
            (KStr "key", getenv_val w "SUPABASE_KEY")] with (supabase_config w u).
    unfold bind, try_catch, log_supabase_url, log, emit, ret.
    cbn - [supabase_config getenv_val w_loader_init].
    rewrite Hc. reflexivity.
Qed.

Lemma default_loaders_supabase_witness :
  init_loaders demo_world "bitcoin_price" default_loaders (mkState [] []) =
    (Ret [], mkState [] [ELog Error (MsgLoaderInitFailed "bitcoin_price" TypeError)]) /\
  init_loaders env_world "bitcoin_price" default_loaders (mkState [] []) =
    (Ret [("SupabaseLoader", PDict [(KStr "table", PStr "financial_signals");
                                    (KStr "url", PStr "https://db.example");
                                    (KStr "key", PStr "sk")])],
     mkState [] [EConstructLoader "SupabaseLoader"
                   (PDict [(KStr "table", PStr "financial_signals");
                           (KStr "url", PStr "https://db.example"); (KStr "key", PStr "sk")]);
                 ELog Info MsgSupabaseUrl]).
Proof.
  split.
  - exact (proj1 (default_loaders_supabase demo_world "bitcoin_price" (mkState [] [])) eq_refl).
  - exact (proj2 (default_loaders_supabase env_world "bitcoin_price" (mkState [] []))
             "https://db.example" "SupabaseLoader" eq_refl eq_refl eq_refl).
Defined.

(** A module-style loader entry (not Google Sheets; for a Supabase
    module, with [SUPABASE_URL] set, so that [url] and [key] are injected
    and the URL logged) whose constructor raises [TypeError] when called
    with [params=] is constructed a second time with [config=] and the
    same dict: the loader is kept when that succeeds, and any error of
    the second call other than [ImportError] or [AttributeError]
    propagates. *)
Theorem loader_params_then_config w signal lc m c cls st :
  lc_module lc = Some m ->
  str_contains "google_sheets_loader" (str_lower m) = false ->
  (str_contains "supabase_loader" (str_lower m) = true ->
   exists u, w_env w "SUPABASE_URL" = Some u) ->
  lc_class lc = Some c -> w_import w m c = Some cls ->
  let p := PDict (loader_kwargs w m (default [] (lc_params lc))) in
  w_loader_init w cls KwParams p = Some TypeError ->
  let st2 := mkState (extractor_cache st)
               (EConstructLoader cls p :: EConstructLoader cls p
                  :: loader_kwargs_trace m (trace st)) in
  (w_loader_init w cls KwConfig p = None ->
   init_loader w signal lc st = (Ret (Some (cls, p)), st2)) /\
  (forall e, w_loader_init w cls KwConfig p = Some e -> e <> ImportError -> e <> AttributeError ->
   init_loader w signal lc st = (Throw e, st2)).
Proof.
  intros Hm Hg Hs Hc Hi p Hp st2.
  rewrite (init_loader_module w signal lc m st Hm Hg Hs), Hc, Hi.
  unfold construct_loader, bind, emit, ret. cbn [fst snd extractor_cache trace].
  fold p. rewrite Hp. split.
  - intros H2. rewrite H2. reflexivity.
  - intros e H2 Hi1 Ha. rewrite H2. unfold throw.
    destruct e; try reflexivity; contradiction.
Qed.

Lemma loader_params_then_config_witness :
  init_loader env_world "bitcoin_price" supabase_module_entry (mkState [] []) =
    (Ret (Some ("SupabaseLoader", PDict (supabase_config env_world "https://db.example"))),
     mkState [] [EConstructLoader "SupabaseLoader" (PDict (supabase_config env_world "https://db.example"));
                 EConstructLoader "SupabaseLoader" (PDict (supabase_config env_world "https://db.example"));
                 ELog Info MsgSupabaseUrl]).
Proof.
  exact (proj1 (loader_params_then_config env_world "bitcoin_price" supabase_module_entry
                  "etl.load.supabase_loader" "SupabaseLoader" "SupabaseLoader" (mkState [] [])
                  eq_refl eq_refl (fun _ => ex_intro _ "https://db.example" eq_refl)
                  eq_refl eq_refl eq_refl) eq_refl).
Defined.

(** Entries of [loaders] that fail without stopping the signal: an entry
    with neither [module] nor [type] ([KeyError]) and a [type] whose
    module does not import ([ImportError]) are logged as loader
    initialisation failures; a [module] that does not import is logged
    as an import failure.  Each yields no loader. *)
Theorem loader_entry_errors w signal lc st :
  (lc_module lc = None -> lc_type lc = None ->
   init_loaders w signal [lc] st =
     (Ret [], mkState (extractor_cache st) (ELog Error (MsgLoaderInitFailed signal KeyError) :: trace st))) /\
  (forall t, lc_module lc = None -> lc_type lc = Some t ->
   t <> "google_sheets_loader" -> t <> "supabase_loader" ->
   w_import w ("etl.load." ++ t)%string (class_name_of t) = None ->
   init_loaders w signal [lc] st =
     (Ret [], mkState (extractor_cache st) (ELog Error (MsgLoaderInitFailed signal ImportError) :: trace st))) /\
  (forall m c, lc_module lc = Some m ->
   str_contains "google_sheets_loader" (str_lower m) = false ->
   str_contains "supabase_loader" (str_lower m) = false ->
   lc_class lc = Some c -> w_import w m c = None ->
   init_loaders w signal [lc] st =
     (Ret [], mkState (extractor_cache st) (ELog Error (MsgImportLoaderFailed signal) :: trace st))).
Proof.
  split; [|split].
  - intros Hm Ht. cbn [init_loaders]. unfold init_loader. rewrite Hm, Ht.
    destruct st. reflexivity.
  - intros t Hm Ht Hg Hs Hi. cbn [init_loaders]. unfold init_loader. rewrite Hm, Ht.
    destruct (String.eqb_spec t "google_sheets_loader"); [contradiction|].
    destruct (String.eqb_spec t "supabase_loader"); [contradiction|].
    unfold bind at 2 3, ret at 1. rewrite Hi. destruct st. reflexivity.
  - intros m c Hm Hg Hs Hc Hi. cbn [init_loaders]. unfold init_loader. rewrite Hm, Hg, Hs, Hc.
    unfold bind at 2 3, ret at 1. rewrite Hi. destruct st. reflexivity.
Qed.

Lemma loader_entry_errors_witness :
  init_loaders env_world "s" [mkLoader None None None None None] (mkState [] []) =
    (Ret [], mkState [] [ELog Error (MsgLoaderInitFailed "s" KeyError)]) /\
  init_loaders env_world "s" [mkLoader None None (Some "missing_loader") None None] (mkState [] []) =
    (Ret [], mkState [] [ELog Error (MsgLoaderInitFailed "s" ImportError)]) /\
  init_loaders env_world "s"
    [mkLoader (Some "etl.load.missing_loader") (Some "MissingLoader") None None None] (mkState [] []) =
    (Ret [], mkState [] [ELog Error (MsgImportLoaderFailed "s")]).
Proof.
  split; [|split].
  - exact (proj1 (loader_entry_errors env_world "s" (mkLoader None None None None None)
                    (mkState [] [])) eq_refl eq_refl).
  - apply (proj1 (proj2 (loader_entry_errors env_world "s"
                           (mkLoader None None (Some "missing_loader") None None) (mkState [] [])))
             "missing_loader"); try reflexivity; discriminate.
  - exact (proj2 (proj2 (loader_entry_errors env_world "s"
                           (mkLoader (Some "etl.load.missing_loader") (Some "MissingLoader")
                              None None None) (mkState [] [])))
             "etl.load.missing_loader" "MissingLoader" eq_refl eq_refl eq_refl eq_refl eq_refl).
Defined.

(** [run] never raises: it returns one status per configured signal, in
    the order of the configuration, and its log starts with the pipeline
    start and ends with the pipeline end and the run-finished line. *)
Theorem run_statuses w cfg st :
  exists sts evs,
    fst (run w cfg st) = Ret sts /\ map fst sts = map fst (cfg_signals cfg) /\
    trace (snd (run w cfg st)) =
      ELog Info MsgRunFinished :: ELog Info MsgPipelineEnd ::
      evs ++ ELog Info MsgPipelineStart :: trace st.
Proof.
  set (st1 := mkState [] (ELog Info MsgPipelineStart :: trace st)).
  destruct (run_all_names w (cfg_signals cfg) st1) as [sts [evs [H1 [H2 H3]]]].
  exists sts, evs.
  assert (E : run w cfg st =
            (log Info MsgPipelineEnd ;;; log Info MsgRunFinished ;;; ret sts)
              (snd (run_all w (cfg_signals cfg) st1))).
  { unfold run, clear_cache. unfold bind at 1 2, log at 1, emit at 1, put_cache at 1.
    fold st1. rewrite (bind_ret_step _ _ _ sts H1). reflexivity. }
  rewrite E. simpl. split; [reflexivity|]. split; [exact H2|]. rewrite H3. reflexivity.
Qed.

(** [run_signal] on a configured signal whose processing raises any
    exception, even an [ExtractionError] its handlers name, logs the
    error and then raises [TypeError] (from the three-argument
    [log_etl_failure] call) instead of returning [False]. *)
Theorem run_signal_raises w cfg signal sc st e :
  signal_lookup signal (cfg_signals cfg) = Some sc ->
  let st0 := mkState [] (ELog Info (MsgSignalStart signal) :: ELog Info MsgPipelineStart :: trace st) in
  fst (process_signal w signal sc st0) = Throw e ->
  run_signal w cfg signal st =
    (Throw TypeError,
     mkState (extractor_cache (snd (process_signal w signal sc st0)))
             (ELog Error (MsgSignalError signal e) :: trace (snd (process_signal w signal sc st0)))).
Proof.
  intros Hl st0 He. rewrite (run_signal_eq w cfg signal sc st Hl). fold st0.
  destruct (process_signal w signal sc st0) as [o st2]. simpl in He. subst o. reflexivity.
Qed.

Lemma run_signal_raises_witness :
  fst (run_signal demo_world m2_config "m2_money_supply" (mkState [] [])) = Throw TypeError.
Proof.
  rewrite (run_signal_raises demo_world m2_config "m2_money_supply" fred_signal
             (mkState [] []) MissingSecretError eq_refl eq_refl).
  reflexivity.
Defined.

(** The exit code of [main]: 0 for a full run whatever its signals do;
    0 for [--signal] naming a signal not in the configuration; for a
    configured signal, 1 exactly when its processing raises; 1 when the
    configuration file is missing. *)
Theorem main_exit_code w cfg st :
  fst (main w (Some cfg) None st) = Ret 0%Z /\
  (forall s, signal_lookup s (cfg_signals cfg) = None -> fst (main w (Some cfg) (Some s) st) = Ret 0%Z) /\
  (forall s sc, signal_lookup s (cfg_signals cfg) = Some sc -> s <> EmptyString ->
     fst (main w (Some cfg) (Some s) st) =
       match fst (process_signal w s sc
                    (mkState [] (ELog Info (MsgSignalStart s) :: ELog Info MsgPipelineStart :: trace st))) with
       | Throw _ => Ret 1%Z
       | _ => Ret 0%Z
       end) /\
  (forall s, fst (main w None s st) = Ret 1%Z).
Proof.
  assert (Hrun : fst (try_catch ((run w cfg ;;; ret tt) ;;; ret 0%Z) (fun _ => ret 1%Z) st) = Ret 0%Z).
  { destruct (run_ret w cfg st) as [sts Hs].
    unfold try_catch, bind, ret. destruct (run w cfg st) as [o st1].
    simpl in Hs. subst o. reflexivity. }
  split; [|split; [|split]].
  - exact Hrun.
  - intros s Hl. unfold main.
    destruct (String.eqb s EmptyString); [exact Hrun|].
    unfold try_catch, bind at 1 2. unfold run_signal, clear_cache. rewrite Hl. reflexivity.
  - intros s sc Hl Hne. unfold main.
    destruct (String.eqb_spec s EmptyString); [contradiction|].
    unfold try_catch, bind at 1 2. rewrite (run_signal_eq w cfg s sc st Hl).
    destruct (process_signal w s sc _) as [[b|e|] st2]; reflexivity.
  - reflexivity.
Qed.

Lemma main_exit_code_witness :
  fst (main demo_world (Some demo_config) None (mkState [] [])) = Ret 0%Z /\
  fst (main demo_world (Some m2_config) (Some "m2_money_supply") (mkState [] [])) = Ret 1%Z /\
  fst (main demo_world (Some demo_config) (Some "nonexistent") (mkState [] [])) = Ret 0%Z.
Proof.
  split; [exact (proj1 (main_exit_code demo_world demo_config (mkState [] [])))|]. split.
  - rewrite (proj1 (proj2 (proj2 (main_exit_code demo_world m2_config (mkState [] []))))
               "m2_money_supply" fred_signal eq_refl); [reflexivity | discriminate].
  - exact (proj1 (proj2 (main_exit_code demo_world demo_config (mkState [] [])))
             "nonexistent" eq_refl).
Defined.

(** Transformer resolution happens after extraction, so a signal whose
    transformer cannot be used has already fetched and cached the
    extractor's record.  An unknown transformer name, or a dict
    transformer whose constructor raises [ImportError] or
    [AttributeError], skips the signal; an empty transformer list fails
    it with [IndexError]; any other constructor error fails it. *)
Theorem transformer_failure_after_fetch w n sc id cls p hk raw st :
  resolves w n sc id cls p -> _make_hashable_key (PDict p) = Some hk ->
  (cache_lookup (cache_key id hk) (extractor_cache st) = None /\
   w_extractor_init w cls (PDict p) = None /\ w_fetch w cls (PDict p) = inr raw) \/
  cache_lookup (cache_key id hk) (extractor_cache st) = Some raw ->
  cache_lookup (cache_key id hk) (extractor_cache (snd (run_one w (n, sc) st))) = Some raw /\
  (forall t, sc_transformer sc = TrName t -> transformer_map t = None ->
     fst (run_one w (n, sc) st) = Ret Skipped) /\
  (sc_transformer sc = TrList [] -> fst (run_one w (n, sc) st) = Ret (Failed IndexError)) /\
  (forall d tcls e,
     (sc_transformer sc = TrDict d \/ exists ds, sc_transformer sc = TrList (d :: ds)) ->
     w_import w (t_module d) (t_class d) = Some tcls ->
     w_transformer_init w tcls
       (if py_truthy (default (PDict []) (t_params d))
        then Some (default (PDict []) (t_params d)) else None) = Some e ->
     fst (run_one w (n, sc) st) =
       Ret (match e with ImportError | AttributeError => Skipped | _ => Failed e end)).
Proof.
  intros Hr Hk Hpre. split; [|split; [|split]].
  - destruct (run_one_fetch w n sc id cls p hk raw st Hr Hk Hpre) as [_ [_ [_ [_ H]]]]. exact H.
  - intros t Ht Hm. apply (run_one_after_extract w n sc id cls p hk raw st Exit); auto.
    intros st'. unfold resolve_transformer. rewrite Ht, Hm. reflexivity.
  - intros Ht. apply (run_one_after_extract w n sc id cls p hk raw st (Throw IndexError)); eauto.
    intros st'. unfold resolve_transformer. rewrite Ht. reflexivity.
  - intros d tcls e Hd Hi He.
    assert (Hres : forall st', resolve_transformer w n sc st' = init_transformer_dict w n d st').
    { intros st'. unfold resolve_transformer.
      destruct Hd as [-> | [ds ->]]; reflexivity. }
    apply (run_one_after_extract w n sc id cls p hk raw st
             (match e with ImportError | AttributeError => Exit | _ => Throw e end)); auto.
    + intros st'. rewrite Hres. unfold init_transformer_dict.
      unfold bind at 1, log at 1, emit at 1. rewrite Hi, He.
      destruct e; reflexivity.
    + destruct e; eauto.
Qed.

Lemma transformer_failure_after_fetch_witness :
  fst (run_one demo_world ("bitcoin_price", transformer_signal (TrName "unknown_transformer"))
         (mkState [] [])) = Ret Skipped /\
  cache_lookup (cache_key (IdName "coingecko_extractor") (HTuple []))
    (extractor_cache (snd (run_one demo_world
       ("bitcoin_price", transformer_signal (TrName "unknown_transformer")) (mkState [] []))))
    = Some (PDict [(KStr "price", PInt 100)]) /\
  fst (run_one demo_world ("bitcoin_price", transformer_signal (TrList [])) (mkState [] []))
    = Ret (Failed IndexError).
Proof.
  assert (Hmiss :
    (cache_lookup (cache_key (IdName "coingecko_extractor") (HTuple []))
       (extractor_cache (mkState [] [])) = None /\
     w_extractor_init demo_world "CoinGeckoExtractor" (PDict []) = None /\
     w_fetch demo_world "CoinGeckoExtractor" (PDict []) = inr (PDict [(KStr "price", PInt 100)])) \/
    cache_lookup (cache_key (IdName "coingecko_extractor") (HTuple []))
      (extractor_cache (mkState [] [])) = Some (PDict [(KStr "price", PInt 100)])).
  { left. split; [reflexivity | split; reflexivity]. }
  destruct (transformer_failure_after_fetch demo_world "bitcoin_price"
              (transformer_signal (TrName "unknown_transformer"))
              (IdName "coingecko_extractor") "CoinGeckoExtractor" [] (HTuple [])
              (PDict [(KStr "price", PInt 100)]) (mkState [] [])
              (fun st => eq_refl) eq_refl Hmiss) as [Hc [Hn _]].
  destruct (transformer_failure_after_fetch demo_world "bitcoin_price"
              (transformer_signal (TrList []))
              (IdName "coingecko_extractor") "CoinGeckoExtractor" [] (HTuple [])
              (PDict [(KStr "price", PInt 100)]) (mkState [] [])
              (fun st => eq_refl) eq_refl Hmiss) as [_ [_ [Hl _]]].
  split; [exact (Hn "unknown_transformer" eq_refl eq_refl)|].
  split; [exact Hc | exact (Hl eq_refl)].
Defined.

(** An extractor that raises on a cache miss is tried twice: its
    constructor (or [fetch()]) is called inside the caching [try], the
    [except Exception] logs the error as a cache-key failure and calls
    it again, and the second error propagates.  Nothing is cached. *)
Theorem extract_failure_retried w id cls p hk e st :
  _make_hashable_key (PDict p) = Some hk ->
  cache_lookup (cache_key id hk) (extractor_cache st) = None ->
  (w_extractor_init w cls (PDict p) = Some e ->
   extract w id cls p st =
     (Throw e, mkState (extractor_cache st)
                 ([EConstructExtractor cls (PDict p); ELog Error (MsgCacheKeyFailed e);
                   EConstructExtractor cls (PDict p); ELog Info MsgCacheMiss] ++ trace st))) /\
  (w_extractor_init w cls (PDict p) = None -> w_fetch w cls (PDict p) = inl e ->
   extract w id cls p st =
     (Throw e, mkState (extractor_cache st)
                 ([EFetch cls (PDict p); EConstructExtractor cls (PDict p);
                   ELog Error (MsgCacheKeyFailed e);
                   EFetch cls (PDict p); EConstructExtractor cls (PDict p);
                   ELog Info MsgCacheMiss] ++ trace st))).
Proof.
  intros Hk Hl. split.
  - intros Hi. unfold_extract. rewrite Hk. simpl. rewrite Hl, Hi. simpl. rewrite ?Hi. reflexivity.
  - intros Hi Hf. unfold_extract. rewrite Hk. simpl. rewrite Hl, Hi, Hf. simpl. rewrite ?Hi, ?Hf.
    reflexivity.
Qed.

Lemma extract_failure_retried_witness :
  extract demo_world (IdName "fred_extractor") "FredExtractor" [] (mkState [] []) =
    (Throw ExtractionError,
     mkState [] [EFetch "FredExtractor" (PDict []); EConstructExtractor "FredExtractor" (PDict []);
                 ELog Error (MsgCacheKeyFailed ExtractionError);
                 EFetch "FredExtractor" (PDict []); EConstructExtractor "FredExtractor" (PDict []);
                 ELog Info MsgCacheMiss]).
Proof.
  exact (proj2 (extract_failure_retried demo_world (IdName "fred_extractor") "FredExtractor" []
                  (HTuple []) ExtractionError (mkState [] []) eq_refl eq_refl) eq_refl eq_refl).
Defined.

(** The class name [_load_plugin] looks up: the title-cased words of the
    plugin name split at [_], concatenated, so it never contains [_];
    [a_b] maps to the class name of [a] followed by that of [b]. *)
Theorem class_name_of_words a b :
  class_name_of (a ++ "_" ++ b)%string = (class_name_of a ++ class_name_of b)%string /\
  no_char 95 (class_name_of a) = true.
Proof.
  split.
  - unfold class_name_of. rewrite split_underscore_app, map_app. apply concat_empty_app.
  - unfold class_name_of. apply no_char_concat.
    pose proof (split_underscore_parts a) as H.
    rewrite Forall_map. eapply Forall_impl; [|exact H].
    intros x Hx. apply title_from_no_underscore. exact Hx.
Qed.
